(** * Graph decompositions of the storm model checker

    A shallow embedding of
    - [StronglyConnectedComponentDecomposition] (iterative Tarjan over the
      rows of a sparse transition matrix, restricted to a subsystem), and
    - [MaximalEndComponentDecomposition] (fixpoint over candidate blocks),
    followed by the properties of both engines.

    Loops of the source that are not structurally bounded ([while], the
    [goto]-driven recursion replacement, the worklist iteration) take a
    [fuel] argument and return [None] when it runs out. *)

From Stdlib Require Import List Arith Bool Lia PeanoNat Relations Sorting.Sorted.
From Stdlib Require Import QArith.
Import ListNotations.
Local Open Scope nat_scope.

Set Implicit Arguments.
Set Warnings "-notation-for-abbreviation".

(* ================================================================= *)
(** ** Containers *)

(** [std::vector<T>] indexed by state: reads out of range are given a
    default, writes out of range leave the vector unchanged.  On
    well-formed inputs every index used is a state of the subsystem. *)
Fixpoint list_set {A : Type} (l : list A) (i : nat) (x : A) : list A :=
  match l, i with
  | [], _ => []
  | _ :: t, 0 => x :: t
  | y :: t, S i' => y :: list_set t i' x
  end.

Definition vec_get (v : list nat) (i : nat) : nat := nth i v 0.

(** [storm::storage::BitVector]: a vector of bits. *)
Definition BitVector := list bool.

(** [BitVector(n)] and [BitVector(n, true)]. *)
Definition bv_new (n : nat) (b : bool) : BitVector := repeat b n.

Definition bv_get (bv : BitVector) (i : nat) : bool := nth i bv false.

Definition bv_set (bv : BitVector) (i : nat) (b : bool) : BitVector :=
  list_set bv i b.

Definition bv_empty (bv : BitVector) : bool := forallb negb bv.

Definition bv_clear (bv : BitVector) : BitVector := repeat false (length bv).

(** Iteration over a bit vector visits the set indices in ascending order. *)
Definition bv_indices (bv : BitVector) : list nat :=
  filter (bv_get bv) (seq 0 (length bv)).

(** [set(begin, end)]: sets the bit of every element of the range. *)
Definition bv_setRange (bv : BitVector) (l : list nat) : BitVector :=
  fold_left (fun acc i => bv_set acc i true) l bv.

(** [BitVector(n, begin, end)]. *)
Definition bv_fromRange (n : nat) (l : list nat) : BitVector :=
  bv_setRange (bv_new n false) l.

(** [storm::storage::VectorSet<uint_fast64_t>]: a set kept as an ascending
    vector without repetitions.  [StateBlock] and the SCC [Block] are
    instances of it. *)
Definition VectorSet := list nat.
Definition StateBlock := VectorSet.

Fixpoint vs_insert (x : nat) (s : VectorSet) : VectorSet :=
  match s with
  | [] => [x]
  | y :: t =>
      if x <? y then x :: s
      else if x =? y then s
      else y :: vs_insert x t
  end.

Definition vs_contains (s : VectorSet) (x : nat) : bool :=
  existsb (Nat.eqb x) s.

Definition vs_erase (s r : VectorSet) : VectorSet :=
  filter (fun x => negb (vs_contains r x)) s.

Definition vs_fromRange (l : list nat) : VectorSet :=
  fold_left (fun acc x => vs_insert x acc) l [].

Definition vs_empty (s : VectorSet) : bool :=
  match s with [] => true | _ => false end.

(* ================================================================= *)
(** ** Models *)

Section Engines.

(** The engines are templates over the value type of the matrix. *)
Variable ValueType : Type.

Definition MatrixEntry := (nat * ValueType)%type.

(** [storm::storage::SparseMatrix<ValueType>]: each row is the sequence of
    its stored entries [(column, value)]. *)
Definition SparseMatrix := list (list MatrixEntry).

(** [getRow(row)].  The source does not check the index.  For an index
    beyond the matrix the embedding yields the empty row; this is exact
    whenever the index is a row, and the properties that the engines return
    a result are stated for models in which every index read is a row. *)
Definition getRow (A : SparseMatrix) (row : nat) : list MatrixEntry :=
  nth row A [].

Record AbstractModel := mkModel {
  numberOfStates : nat;
  transitionMatrix : SparseMatrix;
  nondeterministicChoiceIndices : list nat
}.

(** The choice rows of a state: [choiceIndex[s], choiceIndex[s+1]). *)
Definition choicesOf (m : AbstractModel) (state : nat) : list nat :=
  let lo := vec_get (nondeterministicChoiceIndices m) state in
  let hi := vec_get (nondeterministicChoiceIndices m) (state + 1) in
  seq lo (hi - lo).

(** Modelled from the spec: [AbstractModel::getRows] is declared outside the
    files at hand.  It yields the iterator range over the stored entries of
    all choice rows of [state], in row order ("choice-rows for state s occupy
    the half-open range [choiceIndex[s], choiceIndex[s+1])"; a deterministic
    model presents the choice index [0,1,...,N]). *)
Definition getRows (m : AbstractModel) (state : nat) : list MatrixEntry :=
  flat_map (getRow (transitionMatrix m)) (choicesOf m state).

(* ================================================================= *)
(** ** StronglyConnectedComponentDecomposition *)

(** The environment of Tarjan's algorithm set up by
    [performSccDecomposition], together with [this->blocks]. *)
Record TarjanState := mkTarjan {
  currentIndex : nat;
  stateIndices : list nat;
  lowlinks : list nat;
  tarjanStack : list nat;          (* back of the vector = head of the list *)
  tarjanStackStates : BitVector;
  visitedStates : BitVector;
  blocks : list VectorSet          (* in [emplace_back] order *)
}.

(** The data local to one call of [performSccDecompositionHelper].
    [recursionStateStack] and [recursionIteratorStack] are pushed and popped
    together; they are kept as one stack of pairs, the top at the head.  An
    iterator into the rows of a state is the range from its position to
    [end()].  [statesInStack] is written but never read and is left out. *)
Record HelperState := mkHelper {
  env : TarjanState;
  recursionStack : list (nat * list MatrixEntry);
  statesWithSelfloop : BitVector;
  statesThatCanLeaveTheirScc : BitVector
}.

Section Helper.

Variable model : AbstractModel.
Variable subsystem : BitVector.
Variables dropNaiveSccs onlyBottomSccs : bool.

(** Label [recursionStepForward], up to the loop over the successors:
    the treatment of a newly discovered state. *)
Definition stepForward (currentState : nat) (ts : TarjanState) : TarjanState :=
  mkTarjan (S (currentIndex ts))
           (list_set (stateIndices ts) currentState (currentIndex ts))
           (list_set (lowlinks ts) currentState (currentIndex ts))
           (currentState :: tarjanStack ts)
           (bv_set (tarjanStackStates ts) currentState true)
           (bv_set (visitedStates ts) currentState true)
           (blocks ts).

Definition setLowlinks (ts : TarjanState) (l : list nat) : TarjanState :=
  mkTarjan (currentIndex ts) (stateIndices ts) l (tarjanStack ts)
           (tarjanStackStates ts) (visitedStates ts) (blocks ts).

(** How the loop over the successors is left. *)
Inductive Traversal :=
| Finished
| Descend (successor : nat) (successorIt : list MatrixEntry).

(** The loop [for (; successorIt != end; ++successorIt)]: runs until the
    range is exhausted or an unvisited successor inside the subsystem is
    found; in that case the iterator still points at that successor. *)
Fixpoint traverseSuccessors (currentState : nat) (successorIt : list MatrixEntry)
    (low : list nat) (selfloop : BitVector) (ts : TarjanState)
    : list nat * BitVector * Traversal :=
  match successorIt with
  | [] => (low, selfloop, Finished)
  | (successor, _) :: next =>
      let selfloop' :=
        if dropNaiveSccs && (currentState =? successor)
        then bv_set selfloop currentState true else selfloop in
      if bv_get subsystem successor then
        if negb (bv_get (visitedStates ts) successor) then
          (low, selfloop', Descend successor successorIt)
        else if bv_get (tarjanStackStates ts) successor then
          traverseSuccessors currentState next
            (list_set low currentState
               (Nat.min (vec_get low currentState)
                        (vec_get (stateIndices ts) successor)))
            selfloop' ts
        else traverseSuccessors currentState next low selfloop' ts
      else traverseSuccessors currentState next low selfloop' ts
  end.

(** The [do ... while (lastState != currentState)] loop that pops one SCC
    from the stack of the algorithm.  The loop is entered only for a state
    that is on the stack ([close_root] below), so the stack does not run
    empty; on an empty stack the function returns what it has popped. *)
Fixpoint popScc (currentState : nat) (stack : list nat) (onStack : BitVector)
    (canLeave : BitVector) (scc : VectorSet) (isBottomScc : bool)
    : list nat * BitVector * VectorSet * bool :=
  match stack with
  | [] => ([], onStack, scc, isBottomScc)
  | lastState :: stack' =>
      let onStack' := bv_set onStack lastState false in
      let scc' := vs_insert lastState scc in
      let isBottomScc' :=
        if onlyBottomSccs && isBottomScc && bv_get canLeave lastState
        then false else isBottomScc in
      if lastState =? currentState
      then (stack', onStack', scc', isBottomScc')
      else popScc currentState stack' onStack' canLeave scc' isBottomScc'
  end.

(** The code after the loop over the successors: if the current state is
    the root of an SCC, pop the SCC and decide whether to keep it. *)
Definition closeScc (currentState : nat) (selfloop canLeave : BitVector)
    (ts : TarjanState) : TarjanState :=
  if vec_get (lowlinks ts) currentState =? vec_get (stateIndices ts) currentState
  then
    let '(stack', onStack', scc, isBottomScc) :=
      popScc currentState (tarjanStack ts) (tarjanStackStates ts) canLeave [] true in
    let keepScc :=
      (negb dropNaiveSccs || ((1 <? length scc) || bv_get selfloop (hd 0 scc)))
      && (negb onlyBottomSccs || isBottomScc) in
    mkTarjan (currentIndex ts) (stateIndices ts) (lowlinks ts) stack' onStack'
             (visitedStates ts)
             (if keepScc then blocks ts ++ [scc] else blocks ts)
  else ts.

(** Label [recursionStepBackward], up to the increment of the iterator. *)
Definition stepBackward (currentState successor : nat) (canLeave : BitVector)
    (ts : TarjanState) : TarjanState * BitVector :=
  let low' := Nat.min (vec_get (lowlinks ts) currentState)
                      (vec_get (lowlinks ts) successor) in
  let ts' := setLowlinks ts (list_set (lowlinks ts) currentState low') in
  let canLeave' :=
    if onlyBottomSccs
       && negb (vec_get (lowlinks ts') currentState
                =? vec_get (lowlinks ts') successor)
    then bv_set canLeave currentState true else canLeave in
  (ts', canLeave').

(** The body of [while (!recursionStateStack.empty())] from the loop over
    the successors on.  One round runs that loop for the state on top of
    the recursion stack and then either
    - jumps to [recursionStepForward] with the unvisited successor pushed, or
    - closes the SCC of the state if it is a root, pops the recursion stacks
      and, if a state is left, jumps to [recursionStepBackward] for it.
    At [recursionStepBackward] the saved iterator of the parent is
    dereferenced; it points at the successor that was just finished.  An
    iterator at [end()] there would be undefined behaviour and yields [None]
    ([helperLoop_total] shows that this does not happen). *)
Fixpoint helperLoop (fuel : nat) (hs : HelperState) : option TarjanState :=
  match fuel with
  | 0 => None
  | S fuel' =>
      match recursionStack hs with
      | [] => Some (env hs)
      | (currentState, successorIt) :: rest =>
          match traverseSuccessors currentState successorIt
                  (lowlinks (env hs)) (statesWithSelfloop hs) (env hs) with
          | (low, selfloop, Descend successor it) =>
              helperLoop fuel'
                (mkHelper (stepForward successor (setLowlinks (env hs) low))
                          ((successor, getRows model successor)
                             :: (currentState, it) :: rest)
                          selfloop (statesThatCanLeaveTheirScc hs))
          | (low, selfloop, Finished) =>
              let ts := closeScc currentState selfloop
                          (statesThatCanLeaveTheirScc hs)
                          (setLowlinks (env hs) low) in
              match rest with
              | [] => Some ts
              | (parent, []) :: _ => None
              | (parent, (successor, _) :: next) :: rest' =>
                  let '(ts', canLeave) :=
                    stepBackward parent successor
                      (statesThatCanLeaveTheirScc hs) ts in
                  helperLoop fuel'
                    (mkHelper ts' ((parent, next) :: rest') selfloop canLeave)
              end
          end
      end
  end.

(** [performSccDecompositionHelper]: sets up the recursion stacks and the
    two auxiliary bit vectors, and enters the loop at
    [recursionStepForward] for the start state. *)
Definition performSccDecompositionHelper (fuel : nat) (startState : nat)
    (ts : TarjanState) : option TarjanState :=
  let n := length (lowlinks ts) in
  helperLoop fuel
    (mkHelper (stepForward startState ts)
              [(startState, getRows model startState)]
              (if dropNaiveSccs then bv_new n false else [])
              (if onlyBottomSccs then bv_new n false else [])).

(** The loop [for (auto state : subsystem)] of [performSccDecomposition]. *)
Fixpoint sccStartLoop (fuel : nat) (states : list nat) (ts : TarjanState)
    : option TarjanState :=
  match states with
  | [] => Some ts
  | state :: rest =>
      if negb (bv_get (visitedStates ts) state) then
        match performSccDecompositionHelper fuel state ts with
        | Some ts' => sccStartLoop fuel rest ts'
        | None => None
        end
      else sccStartLoop fuel rest ts
  end.

Definition initialTarjanState : TarjanState :=
  let n := numberOfStates model in
  mkTarjan 0 (repeat 0 n) (repeat 0 n) [] (bv_new n false) (bv_new n false) [].

End Helper.

(** [performSccDecomposition(model, subsystem, dropNaiveSccs, onlyBottomSccs)];
    the result is the content of [this->blocks]. *)
Definition performSccDecomposition (fuel : nat) (model : AbstractModel)
    (subsystem : BitVector) (dropNaiveSccs onlyBottomSccs : bool)
    : option (list VectorSet) :=
  option_map blocks
    (sccStartLoop model subsystem dropNaiveSccs onlyBottomSccs fuel
       (bv_indices subsystem) (initialTarjanState model)).

(** [performSccDecomposition(model, dropNaiveSccs, onlyBottomSccs)]: the
    overload without a subsystem prepares the bit vector [fullSystem] of all
    states and calls the overload above. *)
Definition performSccDecompositionOfModel (fuel : nat) (model : AbstractModel)
    (dropNaiveSccs onlyBottomSccs : bool) : option (list VectorSet) :=
  performSccDecomposition fuel model (bv_new (numberOfStates model) true)
                          dropNaiveSccs onlyBottomSccs.

(** The constructor taking a [StateBlock]: the block is turned into a bit
    vector over the states of the model. *)
Definition sccDecompositionOfBlock (fuel : nat) (model : AbstractModel)
    (block : StateBlock) (dropNaiveSccs onlyBottomSccs : bool)
    : option (list VectorSet) :=
  performSccDecomposition fuel model
    (bv_fromRange (numberOfStates model) block) dropNaiveSccs onlyBottomSccs.

(* ================================================================= *)
(** ** MaximalEndComponentDecomposition *)

(** [storm::storage::MaximalEndComponent]: the states added by [addState]
    with their choices, in the order in which they were added. *)
Definition MaximalEndComponent := list (nat * list nat).

(** Modelled from the spec: the default value of the parameter
    [onlyBottomSccs] of the constructor of the SCC decomposition is given in
    a header that is not at hand; the MEC engine runs the SCC engine with
    "no bottom-only". *)
Definition defaultOnlyBottomSccs : bool := false.

Section Mec.

Variable model : AbstractModel.

(** The test of one choice: every entry of the row lies in the block. *)
Definition choiceContained (block : StateBlock) (choice : nat) : bool :=
  forallb (fun entry : MatrixEntry => vs_contains block (fst entry))
          (getRow (transitionMatrix model) choice).

(** [keepStateInMEC]: some choice of the state has all its successors in
    the SCC. *)
Definition keepStateInMEC (scc : StateBlock) (state : nat) : bool :=
  existsb (choiceContained scc) (choicesOf model state).

(** The loop [for (auto state : statesToCheck)] filling [statesToRemove]. *)
Definition computeStatesToRemove (scc : StateBlock) (statesToCheck : BitVector)
    : BitVector :=
  fold_left (fun statesToRemove state =>
               if keepStateInMEC scc state then statesToRemove
               else bv_set statesToRemove state true)
            (bv_indices statesToCheck)
            (bv_new (numberOfStates model) false).

(** The states to be reconsidered: [statesToCheck.clear()] followed by the
    loop over [statesToRemove], which reads [transitionMatrix.getRow(state)]. *)
Definition statesToReconsider (scc : StateBlock)
    (statesToRemove statesToCheck : BitVector) : BitVector :=
  fold_left (fun chk state =>
               fold_left (fun chk' (entry : MatrixEntry) =>
                            if vs_contains scc (fst entry)
                            then bv_set chk' (fst entry) true else chk')
                         (getRow (transitionMatrix model) state) chk)
            (bv_indices statesToRemove)
            (bv_clear statesToCheck).

(** [while (!statesToCheck.empty())]. *)
Fixpoint pruneLoop (fuel : nat) (scc : StateBlock) (statesToCheck : BitVector)
    (mecChanged : bool) : option (StateBlock * BitVector * bool) :=
  match fuel with
  | 0 => None
  | S fuel' =>
      if bv_empty statesToCheck then Some (scc, statesToCheck, mecChanged)
      else
        let statesToRemove := computeStatesToRemove scc statesToCheck in
        let mecChanged' := mecChanged || negb (bv_empty statesToRemove) in
        let scc' := vs_erase scc (vs_fromRange (bv_indices statesToRemove)) in
        pruneLoop fuel' scc'
          (statesToReconsider scc' statesToRemove statesToCheck) mecChanged'
  end.

(** [for (auto& scc : sccs)]: the SCCs are pruned in place, one after the
    other; [statesToCheck] and [mecChanged] are shared. *)
Fixpoint pruneSccs (fuel : nat) (sccs : list StateBlock)
    (statesToCheck : BitVector) (mecChanged : bool)
    : option (list StateBlock * BitVector * bool) :=
  match sccs with
  | [] => Some ([], statesToCheck, mecChanged)
  | scc :: rest =>
      match pruneLoop fuel scc (bv_setRange statesToCheck scc) mecChanged with
      | None => None
      | Some (scc', statesToCheck', mecChanged') =>
          match pruneSccs fuel rest statesToCheck' mecChanged' with
          | None => None
          | Some (rest', statesToCheck'', mecChanged'') =>
              Some (scc' :: rest', statesToCheck'', mecChanged'')
          end
      end
  end.

(** One round of the loop over the candidates, for the candidate [mec]:
    the SCC decomposition of the candidate followed by the pruning of its
    SCCs.  Yields [mecChanged], the pruned SCCs and [statesToCheck]. *)
Definition refinementPass (fuel : nat) (mec : StateBlock)
    (statesToCheck : BitVector) : option (bool * list StateBlock * BitVector) :=
  match sccDecompositionOfBlock fuel model mec true defaultOnlyBottomSccs with
  | None => None
  | Some sccs =>
      match pruneSccs fuel sccs statesToCheck (1 <? length sccs) with
      | None => None
      | Some (sccs', statesToCheck', mecChanged) =>
          Some (mecChanged, sccs', statesToCheck')
      end
  end.

(** The candidates appended when the candidate changed. *)
Definition newCandidates (sccs : list StateBlock) : list StateBlock :=
  filter (fun scc => negb (vs_empty scc)) sccs.

(** The loop over [endComponentStateSets].  The list is split at the
    iterator: [passed] are the candidates before [mecIterator], [pending]
    starts at [*mecIterator].  New candidates are pushed at the back of the
    list, a changed candidate is erased. *)
Fixpoint mecLoop (fuel : nat) (passed pending : list StateBlock)
    (statesToCheck : BitVector) : option (list StateBlock) :=
  match fuel with
  | 0 => None
  | S fuel' =>
      match pending with
      | [] => Some passed
      | mec :: rest =>
          match refinementPass fuel' mec statesToCheck with
          | None => None
          | Some (mecChanged, sccs, statesToCheck') =>
              if mecChanged
              then mecLoop fuel' passed (rest ++ newCandidates sccs) statesToCheck'
              else mecLoop fuel' (passed ++ [mec]) rest statesToCheck'
          end
      end
  end.

(** The choices of [state] all of whose successors lie in the state set. *)
Definition containedChoices (mecStateSet : StateBlock) (state : nat) : list nat :=
  filter (choiceContained mecStateSet) (choicesOf model state).

Definition buildMec (mecStateSet : StateBlock) : MaximalEndComponent :=
  map (fun state => (state, containedChoices mecStateSet state)) mecStateSet.

(** [performMaximalEndComponentDecomposition(model, subsystem)]; the result
    is the content of [this->blocks].  The list of candidates starts with
    the state block made of the set bits of [subsystem]. *)
Definition performMaximalEndComponentDecomposition (fuel : nat)
    (subsystem : BitVector) : option (list MaximalEndComponent) :=
  option_map (map buildMec)
    (mecLoop fuel [] [bv_indices subsystem]
       (bv_new (numberOfStates model) false)).

(** The constructor [MaximalEndComponentDecomposition(model)]: the
    decomposition of the full state space. *)
Definition mecDecompositionOfModel (fuel : nat)
    : option (list MaximalEndComponent) :=
  performMaximalEndComponentDecomposition fuel
    (bv_new (numberOfStates model) true).

End Mec.

End Engines.

Arguments Finished {ValueType}.

(** A [VectorSet] is strictly ascending. *)
Definition vs_ok (s : VectorSet) : Prop := StronglySorted lt s.

(* ================================================================= *)
(** ** Replacing the weights of a model *)

Section WeightMap.

Variables V W : Type.
Variable f : V -> W.

Definition mapEntries (row : list (MatrixEntry V)) : list (MatrixEntry W) :=
  map (fun entry => (fst entry, f (snd entry))) row.

(** The model with every weight [w] replaced by [f w]. *)
Definition mapWeights (m : AbstractModel V) : AbstractModel W :=
  mkModel (numberOfStates m)
          (map mapEntries (transitionMatrix m))
          (nondeterministicChoiceIndices m).

Definition mapTraversal (r : Traversal V) : Traversal W :=
  match r with
  | Finished => Finished
  | Descend c it => Descend c (mapEntries it)
  end.

Definition mapHelper (hs : HelperState V) : HelperState W :=
  mkHelper (env hs)
           (map (fun fr => (fst fr, mapEntries (snd fr))) (recursionStack hs))
           (statesWithSelfloop hs) (statesThatCanLeaveTheirScc hs).

End WeightMap.

(* ================================================================= *)
(** ** The graph of a model restricted to a subsystem *)

Section Graph.

Variable ValueType : Type.
Variable model : AbstractModel ValueType.
Variable subsystem : BitVector.

(** The successors the SCC engine iterates over for a state. *)
Definition successors (state : nat) : list nat :=
  map fst (getRows model state).

Definition edge (u v : nat) : Prop :=
  bv_get subsystem u = true /\ bv_get subsystem v = true /\ In v (successors u).

Definition reach : nat -> nat -> Prop := clos_refl_trans nat edge.

Definition mutuallyReachable (x y : nat) : Prop := reach x y /\ reach y x.

(** A block is a strongly connected component of the restricted graph: it
    is nonempty, lies in the subsystem and contains, with each of its
    states, exactly the states mutually reachable with it. *)
Definition isScc (B : VectorSet) : Prop :=
  vs_ok B /\ B <> [] /\
  forall x, In x B ->
    bv_get subsystem x = true /\ forall y, In y B <-> mutuallyReachable x y.

(** A state lies in a non-trivial SCC if it has a self-loop or shares its
    SCC with another state. *)
Definition nontrivial (x : nat) : Prop :=
  In x (successors x) \/ exists y, y <> x /\ mutuallyReachable x y.

(** Blocks are listed in reverse topological order: no edge leads from a
    state of a block to a state of a block listed later. *)
Definition emittedInOrder (bs : list VectorSet) : Prop :=
  forall l1 B l2 x y,
    bs = l1 ++ B :: l2 -> In x B -> edge x y -> ~ In y (concat l2).

End Graph.

(* ================================================================= *)
(** ** Specification vocabulary *)

(** Blocks of a decomposition are pairwise disjoint. *)
Definition disjointBlocks (bs : list VectorSet) : Prop :=
  ForallOrdPairs (fun a b => forall x, In x a -> ~ In x b) bs.

Section MecSpec.

Variable ValueType : Type.
Variable model : AbstractModel ValueType.

(** The states of a MEC and the choices retained at a state. *)
Definition mecStates (mec : MaximalEndComponent) : list nat := map fst mec.

Definition retainedChoices (mec : MaximalEndComponent) (s : nat) : list nat :=
  match find (fun p => fst p =? s) mec with
  | Some (_, choices) => choices
  | None => []
  end.

(** A step inside a MEC along a retained choice. *)
Definition retainedStep (mec : MaximalEndComponent) (s t : nat) : Prop :=
  In s (mecStates mec) /\ In t (mecStates mec) /\
  exists c, In c (retainedChoices mec s) /\
            In t (map fst (getRow (transitionMatrix model) c)).

(** An end component: nonempty, every state retains a choice, retained
    choices stay inside, and any two states are connected by retained
    steps. *)
Definition isEndComponent (mec : MaximalEndComponent) : Prop :=
  mec <> [] /\
  (forall s, In s (mecStates mec) -> retainedChoices mec s <> []) /\
  (forall s c t, In s (mecStates mec) -> In c (retainedChoices mec s) ->
                 In t (map fst (getRow (transitionMatrix model) c)) ->
                 In t (mecStates mec)) /\
  (forall s t, In s (mecStates mec) -> In t (mecStates mec) ->
               clos_refl_trans nat (retainedStep mec) s t).

(** A step from [s] to [t] along a choice of [s] that stays inside the set
    of states [E]. *)
Definition insideStep (E : list nat) (s t : nat) : Prop :=
  In s E /\ In t E /\
  exists c, In c (choicesOf model s) /\ choiceContained model E c = true /\
            In t (map fst (getRow (transitionMatrix model) c)).

(** A set of states that is an end component under the choices that stay
    inside it: it is nonempty, every state has a step inside the set (the
    rows of a stochastic matrix are not empty), and any two states are
    connected by steps inside the set. *)
Definition endComponentSet (E : list nat) : Prop :=
  E <> [] /\
  (forall s, In s E -> exists t, insideStep E s t) /\
  (forall s t, In s E -> In t E -> clos_refl_trans nat (insideStep E) s t).

(** The states of a block that have a choice with a successor among the
    removed states: the predecessors of the removed states inside the block. *)
Definition predecessorsInside (scc removed : StateBlock) : list nat :=
  filter (fun s =>
            existsb (fun c =>
                       existsb (fun entry : MatrixEntry ValueType =>
                                  vs_contains removed (fst entry))
                               (getRow (transitionMatrix model) c))
                    (choicesOf model s))
         scc.

(** Well-formed models: the choice index has one entry per state plus one,
    starts at row 0, is monotone and ends at the number of rows; every
    column is a state. *)
Fixpoint ascending (l : list nat) : bool :=
  match l with
  | x :: ((y :: _) as t) => (x <=? y) && ascending t
  | _ => true
  end.

Definition wellFormedModel : bool :=
  (length (nondeterministicChoiceIndices model) =? S (numberOfStates model))
  && (hd 1 (nondeterministicChoiceIndices model) =? 0)
  && ascending (nondeterministicChoiceIndices model)
  && (last (nondeterministicChoiceIndices model) 0
      =? length (transitionMatrix model))
  && forallb (forallb (fun entry : MatrixEntry ValueType =>
                         fst entry <? numberOfStates model))
             (transitionMatrix model).

End MecSpec.

(* ================================================================= *)
(** ** The measure of the loop over the candidates *)

(** The weight of a candidate in the measure of the loop over the
    candidates. *)
Definition blockWeight (K : StateBlock) : nat := 2 * length K - 1.

Definition candidateWeight (K : StateBlock) : nat := Nat.max 1 (blockWeight K).

Definition pendingWeight (pending : list StateBlock) : nat :=
  list_sum (map candidateWeight pending).

(* ================================================================= *)
(** ** Invariants of the SCC engine *)

Section SccInvariantDefs.

Variable ValueType : Type.
Variable model : AbstractModel ValueType.
Variable subsystem : BitVector.
Variables dropNaiveSccs onlyBottomSccs : bool.

Local Notation inS := (bv_get subsystem).
Local Notation succs := (successors model).
Local Notation R := (reach model subsystem).
Local Notation Frame := (nat * list (MatrixEntry ValueType))%type.

(** The stack of the algorithm is cut into segments by the states on the
    recursion stack: the segment of a state [g] on the recursion stack
    consists of [g] and of the finished states [B] above it whose SCC is
    still open; [T] is the stack below [g].  [SegOK] collects what is known
    about one segment; [it] is the saved iterator of [g]. *)
Record SegOK (idx low : nat -> nat) (vis sl : nat -> bool)
    (g : nat) (it : list (MatrixEntry ValueType)) (B T : list nat)
    (parent : option Frame) : Prop := mkSegOK {
  seg_in : inS g = true;
  seg_done : exists done,
      succs g = done ++ map fst it
      /\ (forall y, In y done -> inS y = true -> vis y = true)
      /\ (forall y, In y done -> In y T -> low g <= idx y)
      /\ (dropNaiveSccs = true -> (sl g = true <-> In g done));
  seg_black_low : forall x y, In x B -> In y (succs x) -> In y T -> low g <= idx y;
  seg_black_vis : forall x y, In x B -> In y (succs x) -> inS y = true -> vis y = true;
  seg_black_reach : forall x, In x B -> R g x /\ R x g;
  seg_low_le : low g <= idx g;
  seg_low_wit : exists w, In w (g :: T) /\ low g = idx w /\ R g w;
  seg_link : match parent with
             | Some (p, itp) => exists w itp', itp = (g, w) :: itp'
             | None => True
             end
}.

Inductive Segs (idx low : nat -> nat) (vis sl : nat -> bool)
    : list Frame -> list nat -> Prop :=
| Segs_nil : Segs idx low vis sl [] []
| Segs_cons g it rest B T :
    Segs idx low vis sl rest T ->
    SegOK idx low vis sl g it B T (hd_error rest) ->
    Segs idx low vis sl ((g, it) :: rest) (B ++ g :: T).

(** What is known about the environment of the algorithm, apart from the
    lowlinks: [closed] states are the visited states that have left the
    stack. *)
Record GInv (ts : TarjanState) : Prop := mkGInv {
  g_size_idx : length (stateIndices ts) = numberOfStates model;
  g_size_vis : length (visitedStates ts) = numberOfStates model;
  g_size_ons : length (tarjanStackStates ts) = numberOfStates model;
  g_ons : forall x, bv_get (tarjanStackStates ts) x = true <-> In x (tarjanStack ts);
  g_nodup : NoDup (tarjanStack ts);
  g_visT : forall x, In x (tarjanStack ts) -> bv_get (visitedStates ts) x = true;
  g_visS : forall x, bv_get (visitedStates ts) x = true -> inS x = true;
  g_idx : forall x, bv_get (visitedStates ts) x = true ->
                    vec_get (stateIndices ts) x < currentIndex ts;
  g_sorted : StronglySorted
               (fun a b => vec_get (stateIndices ts) b < vec_get (stateIndices ts) a)
               (tarjanStack ts);
  g_closed : forall x y, bv_get (visitedStates ts) x = true ->
                         ~ In x (tarjanStack ts) ->
                         In y (succs x) -> inS y = true ->
                         bv_get (visitedStates ts) y = true /\ ~ In y (tarjanStack ts);
  g_blocks_scc : forall B, In B (blocks ts) -> isScc model subsystem B;
  g_blocks_closed : forall B x, In B (blocks ts) -> In x B ->
                      bv_get (visitedStates ts) x = true /\ ~ In x (tarjanStack ts);
  g_blocks_nodup : NoDup (concat (blocks ts));
  g_cover : onlyBottomSccs = false ->
            forall x, bv_get (visitedStates ts) x = true -> ~ In x (tarjanStack ts) ->
                      dropNaiveSccs = false \/ nontrivial model subsystem x ->
                      In x (concat (blocks ts));
  g_kept : dropNaiveSccs = true ->
           forall x, In x (concat (blocks ts)) -> nontrivial model subsystem x
}.

(** What is known about the lowlinks, the self-loop bits and the recursion
    stack while the loop over the successors runs. *)
Record LInv (low : list nat) (sl : BitVector) (fr : list Frame)
    (ts : TarjanState) : Prop := mkLInv {
  l_size_low : length low = numberOfStates model;
  l_size_sl : dropNaiveSccs = true -> length sl = numberOfStates model;
  l_sl_vis : dropNaiveSccs = true ->
             forall x, bv_get (visitedStates ts) x = false -> bv_get sl x = false;
  l_segs : Segs (vec_get (stateIndices ts)) (vec_get low)
                (bv_get (visitedStates ts)) (bv_get sl) fr (tarjanStack ts)
}.

(** The number of states of the subsystem that are not yet visited. *)
Definition unvisited (ts : TarjanState) : nat :=
  length (filter (fun x => inS x && negb (bv_get (visitedStates ts) x))
                 (seq 0 (numberOfStates model))).

(** The state in which a call of the helper starts and ends: the stack of
    the algorithm is empty. *)
Definition TopInv (ts : TarjanState) : Prop :=
  GInv ts /\ tarjanStack ts = [] /\
  length (lowlinks ts) = numberOfStates model.

End SccInvariantDefs.

(* ================================================================= *)
(** ** Models used in the examples *)

(** A deterministic model: one row per state, all weights 1. *)
Definition deterministicModel (targets : list (list nat)) : AbstractModel Q :=
  mkModel (length targets)
          (map (map (fun t => (t, 1%Q))) targets)
          (seq 0 (S (length targets))).

(** The line graph 0 -> 1 -> 2 with a self-loop on 2. *)
Definition lineGraph : AbstractModel Q := deterministicModel [[1]; [2]; [2]].

(** State 0 has a self-loop, state 1 moves to state 0. *)
Definition sinkAndFeeder : AbstractModel Q := deterministicModel [[0]; [0]].

(** The cycle 0 -> 1 -> 2 -> 0 in which state 2 may also fall into the
    absorbing state 3. *)
Definition leakyCycle : AbstractModel Q :=
  mkModel 4
          [[(1, 1%Q)]; [(2, 1%Q)]; [(0, (1#2)%Q); (3, (1#2)%Q)]; [(3, 1%Q)]]
          [0; 1; 2; 3; 4].

(** Two states; the entry 0 -> 1 is stored with weight 0, the entry 0 -> 0
    carries all the probability. *)
Definition zeroWeightEntry : AbstractModel Q :=
  mkModel 2 [[(0, 1%Q); (1, 0%Q)]; [(0, 1%Q)]] [0; 1; 2].

(** State 1 has the choices "to 0" and "to 2"; state 2 is absorbing. *)
Definition forcedExit : AbstractModel Q :=
  mkModel 3 [[(1, 1%Q)]; [(0, 1%Q)]; [(2, 1%Q)]; [(2, 1%Q)]] [0; 1; 3; 4].

(* ================================================================= *)
(** ** Facts about the containers *)

Lemma list_set_length (A : Type) (l : list A) (i : nat) (x : A) :
  length (list_set l i x) = length l.
Proof.
  revert i; induction l as [|y t IH]; intros [|i]; simpl; auto.
Qed.

Lemma nth_list_set (A : Type) (l : list A) (i j : nat) (x d : A) :
  nth j (list_set l i x) d =
  if (i =? j) && (i <? length l) then x else nth j l d.
Proof.
  revert i j; induction l as [|y t IH]; intros i j.
  - simpl. rewrite andb_false_r. destruct i; reflexivity.
  - destruct i as [|i], j as [|j]; simpl; auto.
Qed.

Lemma vec_get_set (v : list nat) (i j x : nat) :
  vec_get (list_set v i x) j =
  if (i =? j) && (i <? length v) then x else vec_get v j.
Proof. apply nth_list_set. Qed.

Lemma bv_get_set (bv : BitVector) (i j : nat) (b : bool) :
  bv_get (bv_set bv i b) j =
  if (i =? j) && (i <? length bv) then b else bv_get bv j.
Proof. apply nth_list_set. Qed.

Lemma bv_set_length (bv : BitVector) (i : nat) (b : bool) :
  length (bv_set bv i b) = length bv.
Proof. apply list_set_length. Qed.

Lemma bv_get_lt (bv : BitVector) (i : nat) :
  bv_get bv i = true -> i < length bv.
Proof.
  unfold bv_get; intros H.
  destruct (Nat.lt_ge_cases i (length bv)) as [|Hge]; auto.
  rewrite nth_overflow in H by assumption. discriminate.
Qed.

Lemma bv_get_set_false (bv : BitVector) (i j : nat) :
  bv_get (bv_set bv i false) j = if i =? j then false else bv_get bv j.
Proof.
  rewrite bv_get_set.
  destruct (Nat.eqb_spec i j) as [->|]; simpl; auto.
  destruct (Nat.ltb_spec j (length bv)); auto.
  unfold bv_get. rewrite nth_overflow; auto.
Qed.

Lemma bv_get_new_false (n i : nat) : bv_get (bv_new n false) i = false.
Proof.
  unfold bv_get, bv_new.
  destruct (nth_in_or_default i (repeat false n) false) as [H|H]; auto.
  apply repeat_spec in H. exact H.
Qed.

Lemma bv_new_length (n : nat) (b : bool) : length (bv_new n b) = n.
Proof. apply repeat_length. Qed.

Lemma bv_indices_In (bv : BitVector) (x : nat) :
  In x (bv_indices bv) <-> bv_get bv x = true.
Proof.
  unfold bv_indices. rewrite filter_In, in_seq. split.
  - tauto.
  - intros H. split; auto. apply bv_get_lt in H. lia.
Qed.

Lemma bv_indices_NoDup (bv : BitVector) : NoDup (bv_indices bv).
Proof. apply NoDup_filter, seq_NoDup. Qed.

Lemma bv_empty_get (bv : BitVector) :
  bv_empty bv = true <-> forall x, bv_get bv x = false.
Proof.
  unfold bv_empty. rewrite forallb_forall. split.
  - intros H x. unfold bv_get.
    destruct (nth_in_or_default x bv false) as [Hin|Hd]; auto.
    apply H in Hin. destruct (nth x bv false); auto.
  - intros H b Hb. apply In_nth with (d := false) in Hb.
    destruct Hb as (n & _ & Hn). specialize (H n). unfold bv_get in H.
    rewrite H in Hn. subst b. reflexivity.
Qed.

Lemma bv_empty_indices (bv : BitVector) :
  bv_empty bv = true <-> bv_indices bv = [].
Proof.
  rewrite bv_empty_get. split.
  - intros H. destruct (bv_indices bv) as [|x l] eqn:E; auto.
    assert (Hx : In x (bv_indices bv)) by (rewrite E; left; auto).
    apply bv_indices_In in Hx. rewrite H in Hx. discriminate.
  - intros E x. destruct (bv_get bv x) eqn:G; auto.
    apply bv_indices_In in G. rewrite E in G. destruct G.
Qed.

Lemma bv_clear_get (bv : BitVector) (x : nat) : bv_get (bv_clear bv) x = false.
Proof. apply bv_get_new_false. Qed.

Lemma bv_clear_length (bv : BitVector) : length (bv_clear bv) = length bv.
Proof. apply repeat_length. Qed.

Lemma bv_setRange_length (l : list nat) (bv : BitVector) :
  length (bv_setRange bv l) = length bv.
Proof.
  unfold bv_setRange. revert bv; induction l as [|x l IH]; intros bv; simpl; auto.
  rewrite IH. apply bv_set_length.
Qed.

Lemma bv_setRange_get (l : list nat) (bv : BitVector) (x : nat) :
  bv_get (bv_setRange bv l) x = true <->
  bv_get bv x = true \/ (In x l /\ x < length bv).
Proof.
  unfold bv_setRange. revert bv; induction l as [|y l IH]; intros bv; simpl.
  - tauto.
  - rewrite IH, bv_get_set, bv_set_length.
    destruct (Nat.eqb_spec y x) as [->|Hne]; simpl.
    + destruct (Nat.ltb_spec x (length bv)); intuition lia.
    + intuition lia.
Qed.

Lemma bv_fromRange_get (n : nat) (l : list nat) (x : nat) :
  bv_get (bv_fromRange n l) x = true <-> In x l /\ x < n.
Proof.
  unfold bv_fromRange. rewrite bv_setRange_get, bv_get_new_false, bv_new_length.
  intuition discriminate.
Qed.

Lemma bv_fromRange_length (n : nat) (l : list nat) :
  length (bv_fromRange n l) = n.
Proof.
  unfold bv_fromRange. rewrite bv_setRange_length. apply bv_new_length.
Qed.

Lemma vs_insert_In (x y : nat) (s : VectorSet) :
  In y (vs_insert x s) <-> y = x \/ In y s.
Proof.
  induction s as [|z t IH]; simpl.
  - intuition.
  - destruct (Nat.ltb_spec x z); simpl; [intuition|].
    destruct (Nat.eqb_spec x z); simpl; [subst; intuition|].
    rewrite IH. intuition.
Qed.

Lemma vs_insert_ok (x : nat) (s : VectorSet) : vs_ok s -> vs_ok (vs_insert x s).
Proof.
  unfold vs_ok. induction s as [|z t IH]; simpl; intros H.
  - repeat constructor.
  - inversion H as [|? ? Ht Hz]; subst.
    destruct (Nat.ltb_spec x z).
    + constructor; auto. constructor; auto.
      rewrite Forall_forall in *. intros w Hw. specialize (Hz w Hw). lia.
    + destruct (Nat.eqb_spec x z); auto.
      constructor; auto.
      rewrite Forall_forall in *. intros w Hw.
      apply vs_insert_In in Hw. destruct Hw as [->|Hw]; [lia|auto].
Qed.

Lemma vs_ok_NoDup (s : VectorSet) : vs_ok s -> NoDup s.
Proof.
  unfold vs_ok. induction 1 as [|z t Ht IH Hz]; constructor; auto.
  intros Hin. rewrite Forall_forall in Hz. specialize (Hz z Hin). lia.
Qed.

Lemma vs_insert_length (x : nat) (s : VectorSet) :
  ~ In x s -> length (vs_insert x s) = S (length s).
Proof.
  induction s as [|z t IH]; simpl; intros H; auto.
  destruct (Nat.ltb_spec x z); simpl; auto.
  destruct (Nat.eqb_spec x z); simpl; [subst; tauto|].
  rewrite IH; tauto.
Qed.

Lemma vs_contains_In (s : VectorSet) (x : nat) :
  vs_contains s x = true <-> In x s.
Proof.
  unfold vs_contains. rewrite existsb_exists. split.
  - intros (y & Hy & E). apply Nat.eqb_eq in E. subst; auto.
  - intros H. exists x. split; auto. apply Nat.eqb_refl.
Qed.

Lemma vs_erase_In (s r : VectorSet) (x : nat) :
  In x (vs_erase s r) <-> In x s /\ ~ In x r.
Proof.
  unfold vs_erase. rewrite filter_In, negb_true_iff.
  rewrite <- vs_contains_In with (s := r).
  destruct (vs_contains r x); intuition congruence.
Qed.

Lemma vs_fromRange_gen_In (l : list nat) (acc : VectorSet) (x : nat) :
  In x (fold_left (fun a y => vs_insert y a) l acc) <-> In x l \/ In x acc.
Proof.
  revert acc; induction l as [|y l IH]; intros acc; simpl.
  - tauto.
  - rewrite IH, vs_insert_In. intuition.
Qed.

Lemma vs_fromRange_gen_ok (l : list nat) (acc : VectorSet) :
  vs_ok acc -> vs_ok (fold_left (fun a y => vs_insert y a) l acc).
Proof.
  revert acc; induction l as [|y l IH]; intros acc H; simpl; auto.
  apply IH, vs_insert_ok, H.
Qed.

Lemma vs_fromRange_gen_length (l : list nat) (acc : VectorSet) :
  NoDup l -> (forall x, In x l -> ~ In x acc) ->
  length (fold_left (fun a y => vs_insert y a) l acc) = length l + length acc.
Proof.
  revert acc; induction l as [|y l IH]; intros acc Hnd Hdis; simpl; auto.
  inversion Hnd; subst.
  rewrite IH; auto.
  - rewrite vs_insert_length; [lia|]. apply Hdis. left; auto.
  - intros x Hx Hin. apply vs_insert_In in Hin. destruct Hin as [->|Hin]; auto.
    apply (Hdis x); auto. right; auto.
Qed.

Lemma vs_fromRange_In (l : list nat) (x : nat) :
  In x (vs_fromRange l) <-> In x l.
Proof. unfold vs_fromRange. rewrite vs_fromRange_gen_In. simpl. tauto. Qed.

(* ================================================================= *)
(** ** Facts about reachability *)

Section GraphFacts.

Variable ValueType : Type.
Variable model : AbstractModel ValueType.
Variable subsystem : BitVector.

Local Notation reach := (reach model subsystem).
Local Notation edge := (edge model subsystem).

Lemma reach_refl (x : nat) : reach x x.
Proof. apply rt_refl. Qed.

Lemma reach_trans (x y z : nat) : reach x y -> reach y z -> reach x z.
Proof. apply rt_trans. Qed.

Lemma reach_edge (x y : nat) : edge x y -> reach x y.
Proof. apply rt_step. Qed.

(** A set that no edge leaves is closed under reachability. *)
Lemma reach_closed (C : nat -> Prop) :
  (forall x y, C x -> edge x y -> C y) ->
  forall x y, reach x y -> C x -> C y.
Proof.
  intros HC x y H. induction H; eauto.
Qed.

End GraphFacts.

(* ================================================================= *)
(** ** The result does not depend on the fuel *)

Section SccFuel.

Variable ValueType : Type.
Variable model : AbstractModel ValueType.
Variable subsystem : BitVector.
Variables dropNaiveSccs onlyBottomSccs : bool.

Lemma helperLoop_fuel fuel :
  forall hs r,
  helperLoop model subsystem dropNaiveSccs onlyBottomSccs fuel hs = Some r ->
  forall fuel', fuel <= fuel' ->
  helperLoop model subsystem dropNaiveSccs onlyBottomSccs fuel' hs = Some r.
Proof.
  induction fuel as [|fuel IH]; intros hs r H fuel' Hle; [discriminate|].
  destruct fuel' as [|fuel']; [lia|].
  simpl in *.
  destruct (recursionStack hs) as [|[cur it] rest]; auto.
  destruct (traverseSuccessors subsystem dropNaiveSccs cur it
              (lowlinks (env hs)) (statesWithSelfloop hs) (env hs))
    as [[low sl] [|c it']].
  - destruct rest as [|[p [|[c w] next]] rest']; auto.
    apply IH with (fuel' := fuel') in H; [exact H|lia].
  - apply IH with (fuel' := fuel') in H; [exact H|lia].
Qed.

Lemma sccStartLoop_fuel fuel fuel' :
  fuel <= fuel' ->
  forall states ts r,
  sccStartLoop model subsystem dropNaiveSccs onlyBottomSccs fuel states ts = Some r ->
  sccStartLoop model subsystem dropNaiveSccs onlyBottomSccs fuel' states ts = Some r.
Proof.
  intros Hle. induction states as [|s rest IH]; intros ts r H; simpl in *; auto.
  destruct (negb (bv_get (visitedStates ts) s)); auto.
  unfold performSccDecompositionHelper in *.
  match type of H with
  | match helperLoop _ _ _ _ _ ?hs with _ => _ end = _ =>
      destruct (helperLoop model subsystem dropNaiveSccs onlyBottomSccs fuel hs)
        as [ts1|] eqn:E; [|discriminate];
      eapply helperLoop_fuel in E; [rewrite E|exact Hle]
  end.
  auto.
Qed.

Lemma performSccDecomposition_fuel fuel fuel' r :
  fuel <= fuel' ->
  performSccDecomposition fuel model subsystem dropNaiveSccs onlyBottomSccs = Some r ->
  performSccDecomposition fuel' model subsystem dropNaiveSccs onlyBottomSccs = Some r.
Proof.
  unfold performSccDecomposition. intros Hle H.
  destruct (sccStartLoop model subsystem dropNaiveSccs onlyBottomSccs fuel
              (bv_indices subsystem) (initialTarjanState model)) as [ts|] eqn:E;
    [|discriminate].
  eapply sccStartLoop_fuel in E; [rewrite E|exact Hle]. exact H.
Qed.

Lemma performSccDecomposition_unique fuel1 fuel2 r1 r2 :
  performSccDecomposition fuel1 model subsystem dropNaiveSccs onlyBottomSccs = Some r1 ->
  performSccDecomposition fuel2 model subsystem dropNaiveSccs onlyBottomSccs = Some r2 ->
  r1 = r2.
Proof.
  intros H1 H2.
  apply performSccDecomposition_fuel with (fuel' := Nat.max fuel1 fuel2) in H1; [|lia].
  apply performSccDecomposition_fuel with (fuel' := Nat.max fuel1 fuel2) in H2; [|lia].
  congruence.
Qed.

End SccFuel.

(* ================================================================= *)
(** ** The invariants hold throughout a run of the SCC engine *)

Section SccInvariant.

Variable ValueType : Type.
Variable model : AbstractModel ValueType.
Variable subsystem : BitVector.
Variables dropNaiveSccs onlyBottomSccs : bool.

Local Notation inS := (bv_get subsystem).
Local Notation succs := (successors model).
Local Notation R := (reach model subsystem).
Local Notation Frame := (nat * list (MatrixEntry ValueType))%type.
Local Notation SegOK := (SegOK model subsystem dropNaiveSccs).
Local Notation Segs := (Segs model subsystem dropNaiveSccs).
Local Notation GInv := (GInv model subsystem dropNaiveSccs onlyBottomSccs).
Local Notation LInv := (LInv model subsystem dropNaiveSccs).
Local Notation unvisited := (unvisited model subsystem).
Local Notation TopInv := (TopInv model subsystem dropNaiveSccs onlyBottomSccs).

Lemma Segs_gray_In idx low vis sl fr T :
  Segs idx low vis sl fr T -> forall g it, In (g, it) fr -> In g T.
Proof.
  induction 1 as [|g it rest B T Hrest IH Hok]; intros g' it' Hin.
  - destruct Hin.
  - apply in_or_app. right. destruct Hin as [E|Hin].
    + inversion E; subst. left; auto.
    + right. eapply IH; eauto.
Qed.

Lemma Segs_nil_inv idx low vis sl T : Segs idx low vis sl [] T -> T = [].
Proof. inversion 1; auto. Qed.

Lemma Segs_mono idx low vis sl idx' low' vis' sl' fr T :
  Segs idx low vis sl fr T ->
  (forall x, In x T -> idx' x = idx x) ->
  (forall g it, In (g, it) fr -> low' g = low g) ->
  (forall x, vis x = true -> vis' x = true) ->
  (forall g it, In (g, it) fr -> sl' g = sl g) ->
  Segs idx' low' vis' sl' fr T.
Proof.
  induction 1 as [|g it rest B T Hrest IH Hok]; intros Hidx Hlow Hvis Hsl.
  - constructor.
  - constructor.
    + apply IH; intros; auto.
      * apply Hidx. apply in_or_app. right. right. auto.
      * eapply Hlow. right; eauto.
      * eapply Hsl. right; eauto.
    + assert (Lg : low' g = low g) by (eapply Hlow; left; eauto).
      assert (Sg : sl' g = sl g) by (eapply Hsl; left; eauto).
      assert (IT : forall y, In y T -> idx' y = idx y).
      { intros y Hy. apply Hidx. apply in_or_app. right. right. auto. }
      assert (Ig : idx' g = idx g).
      { apply Hidx. apply in_or_app. right. left. auto. }
      destruct Hok as [Hin Hdone Hbl Hbv Hbr Hle Hwit Hlink].
      constructor; auto.
      * destruct Hdone as (done & E & Dv & Dl & Ds).
        exists done. repeat split; auto.
        -- intros y Hy HT. rewrite Lg, IT; auto.
        -- rewrite Sg. apply Ds; auto.
        -- rewrite Sg. apply Ds; auto.
      * intros x y Hx Hy HT. rewrite Lg, IT; eauto.
      * intros x y Hx Hy Hs. eauto.
      * rewrite Lg, Ig. auto.
      * destruct Hwit as (w & Hw & E & Hr). exists w. repeat split; auto.
        rewrite Lg, E. symmetry. destruct Hw as [<-|Hw]; auto.
Qed.

Lemma Segs_reach_top idx low vis sl g it rest T :
  Segs idx low vis sl ((g, it) :: rest) T -> forall w, In w T -> R w g.
Proof.
  remember ((g, it) :: rest) as fr eqn:Efr. intros H. revert g it rest Efr.
  induction H as [|g0 it0 rest0 B T Hrest IH Hok]; intros g it rest Efr w Hw.
  - discriminate.
  - inversion Efr; subst. clear Efr.
    apply in_app_or in Hw. destruct Hw as [Hw|[<-|Hw]].
    + apply (seg_black_reach Hok); auto.
    + apply reach_refl.
    + destruct rest as [|[p itp] rest'].
      * apply Segs_nil_inv in Hrest. subst. destruct Hw.
      * specialize (IH p itp rest' eq_refl w Hw).
        eapply reach_trans; [exact IH|]. apply reach_edge.
        pose proof (seg_link Hok) as (v & itp' & ->). simpl in *.
        inversion Hrest as [|? ? ? Bp Tp Hrest' Hokp]; subst.
        destruct (seg_done Hokp) as (done & E & _).
        split; [apply (seg_in Hokp)|]. split; [apply (seg_in Hok)|].
        rewrite E. apply in_or_app. right. left. auto.
Qed.

Lemma StronglySorted_app_inv (A : Type) (Rl : A -> A -> Prop) (l1 l2 : list A) :
  StronglySorted Rl (l1 ++ l2) ->
  StronglySorted Rl l1 /\ StronglySorted Rl l2 /\
  forall a b, In a l1 -> In b l2 -> Rl a b.
Proof.
  induction l1 as [|x l1 IH]; simpl; intros H.
  - repeat split; auto. constructor. intros a b [].
  - inversion H as [|? ? Hs Hf]; subst.
    destruct (IH Hs) as (S1 & S2 & S3).
    rewrite Forall_forall in Hf.
    repeat split; auto.
    + constructor; auto. rewrite Forall_forall. intros y Hy. apply Hf.
      apply in_or_app; auto.
    + intros a b [<-|Ha] Hb; auto. apply Hf. apply in_or_app; auto.
Qed.

Lemma StronglySorted_ext (A : Type) (R1 R2 : A -> A -> Prop) (l : list A) :
  (forall a b, In a l -> In b l -> R1 a b -> R2 a b) ->
  StronglySorted R1 l -> StronglySorted R2 l.
Proof.
  intros H S. induction S as [|x l S IH F]; constructor.
  - apply IH. intros a b Ha Hb. apply H; right; auto.
  - rewrite Forall_forall in *. intros y Hy. apply H; simpl; auto.
Qed.

Lemma stack_order (idx : nat -> nat) (B T : list nat) (g : nat) :
  StronglySorted (fun a b => idx b < idx a) (B ++ g :: T) ->
  (forall x, In x B -> idx g < idx x) /\ (forall y, In y T -> idx y < idx g).
Proof.
  intros H. apply StronglySorted_app_inv in H. destruct H as (_ & S2 & S3).
  split.
  - intros x Hx. apply (S3 x g); simpl; auto.
  - inversion S2 as [|? ? _ Hf]; subst. rewrite Forall_forall in Hf. auto.
Qed.

Lemma NoDup_stack (B T : list nat) (g : nat) :
  NoDup (B ++ g :: T) ->
  ~ In g B /\ ~ In g T /\ NoDup T /\ (forall x, In x B -> ~ In x T).
Proof.
  intros H. pose proof (NoDup_remove_2 _ _ _ H) as Hg.
  pose proof (NoDup_remove_1 _ _ _ H) as Hr.
  repeat split.
  - intros Hin. apply Hg. apply in_or_app; auto.
  - intros Hin. apply Hg. apply in_or_app; auto.
  - clear - Hr. induction B; simpl in *; auto. inversion Hr; auto.
  - clear - Hr. induction B as [|b B IH]; simpl in *; intros x [].
    + subst. inversion Hr; subst. intros Hin. apply H1. apply in_or_app; auto.
    + inversion Hr; subst. apply IH; auto.
Qed.

(** One round of the loop over the successors that does not descend. *)
Lemma Segs_advance idx low vis sl (ons : nat -> bool) cur t w next rest T low' sl' :
  NoDup T ->
  StronglySorted (fun a b => idx b < idx a) T ->
  (forall x, ons x = true <-> In x T) ->
  (forall x, In x T -> vis x = true) ->
  (forall x, vis x = true -> inS x = true) ->
  Segs idx low vis sl ((cur, (t, w) :: next) :: rest) T ->
  (inS t = true -> vis t = true) ->
  (forall x, x <> cur -> low' x = low x) ->
  low' cur = (if ons t then Nat.min (low cur) (idx t) else low cur) ->
  (forall x, x <> cur -> sl' x = sl x) ->
  sl' cur = (if dropNaiveSccs && (cur =? t) then true else sl cur) ->
  Segs idx low' vis sl' ((cur, next) :: rest) T.
Proof.
  intros Hnd Hsort Hons HvT HvS Hsegs Hvt Hlo Hlc Hso Hsc.
  inversion Hsegs as [|g it rest0 B T' Hrest Hok]; subst.
  destruct (NoDup_stack _ _ _ Hnd) as (HcB & HcT & HndT & HBT).
  destruct (stack_order _ _ _ _ Hsort) as (HoB & HoT).
  assert (Hgr : forall g it, In (g, it) rest -> g <> cur).
  { intros g it Hin ->. apply HcT. eapply Segs_gray_In; eauto. }
  assert (Hle : low' cur <= low cur).
  { rewrite Hlc. destruct (ons t); auto. apply Nat.le_min_l. }
  constructor.
  - eapply Segs_mono; eauto.
  - destruct Hok as [Hin Hdone Hbl Hbv Hbr Hlele Hwit Hlink].
    destruct Hdone as (done & E & Dv & Dl & Ds).
    assert (Hedge : inS t = true -> edge model subsystem cur t).
    { intros Ht. split; auto. split; auto. rewrite E. apply in_or_app.
      right. left. auto. }
    constructor; auto.
    + exists (done ++ [t]). split; [|split; [|split]].
      * rewrite E. simpl. rewrite <- app_assoc. reflexivity.
      * intros y Hy Hs. apply in_app_or in Hy. destruct Hy as [Hy|[<-|[]]]; auto.
      * intros y Hy HT. apply in_app_or in Hy. destruct Hy as [Hy|[<-|[]]].
        -- etransitivity; [exact Hle|]. auto.
        -- rewrite Hlc. assert (Ho : ons t = true).
           { apply Hons. apply in_or_app. right. right. auto. }
           rewrite Ho. apply Nat.le_min_r.
      * intros Hd. rewrite Hsc, Hd. simpl.
        destruct (Nat.eqb_spec cur t) as [->|Hne].
        -- split; auto. intros _. apply in_or_app. right. left. auto.
        -- rewrite (Ds Hd). split.
           ++ intros. apply in_or_app. auto.
           ++ intros Hy. apply in_app_or in Hy. destruct Hy as [Hy|[Hy|[]]]; auto.
              congruence.
    + intros x y Hx Hy HT. etransitivity; [exact Hle|]. eauto.
    + lia.
    + destruct Hwit as (v & Hv & Ev & Rv).
      rewrite Hlc. destruct (ons t) eqn:Ho.
      * destruct (Nat.le_gt_cases (low cur) (idx t)) as [Hcmp|Hcmp].
        -- exists v. rewrite Nat.min_l by assumption. auto.
        -- exists t. rewrite Nat.min_r by lia.
           assert (HtT : In t (B ++ cur :: T')) by (apply Hons; auto).
           split; [|split; auto].
           ++ apply in_app_or in HtT. destruct HtT as [HtB|HtT]; auto.
              apply HoB in HtB. lia.
           ++ apply reach_edge. apply Hedge. apply HvS, HvT. auto.
      * exists v. auto.
Qed.

Hypothesis subsystem_size : length subsystem = numberOfStates model.

Lemma inS_lt (x : nat) : inS x = true -> x < numberOfStates model.
Proof. intros H. apply bv_get_lt in H. lia. Qed.

Lemma top_frame_facts ts low sl cur it rest :
  GInv ts -> LInv low sl ((cur, it) :: rest) ts ->
  In cur (tarjanStack ts) /\ bv_get (visitedStates ts) cur = true /\
  inS cur = true /\ cur < numberOfStates model.
Proof.
  intros G L.
  assert (H : In cur (tarjanStack ts)).
  { eapply Segs_gray_In; [apply (l_segs L)|left; reflexivity]. }
  pose proof (g_visT G _ H) as Hv. pose proof (g_visS G _ Hv) as Hs.
  auto using inS_lt.
Qed.

Lemma LInv_advance ts cur t w next rest low sl :
  GInv ts -> LInv low sl ((cur, (t, w) :: next) :: rest) ts ->
  (inS t = true -> bv_get (visitedStates ts) t = true) ->
  LInv (if bv_get (tarjanStackStates ts) t
        then list_set low cur
               (Nat.min (vec_get low cur) (vec_get (stateIndices ts) t))
        else low)
       (if dropNaiveSccs && (cur =? t) then bv_set sl cur true else sl)
       ((cur, next) :: rest) ts.
Proof.
  intros G L Hvt.
  destruct (top_frame_facts G L) as (HcT & Hcv & Hcs & Hclt).
  destruct L as [Hsz Hszsl Hslv Hsegs].
  constructor.
  - destruct (bv_get (tarjanStackStates ts) t); auto.
    rewrite list_set_length. auto.
  - intros Hd. destruct (dropNaiveSccs && (cur =? t)); auto.
    rewrite bv_set_length. auto.
  - intros Hd x Hx. destruct (dropNaiveSccs && (cur =? t)); auto.
    rewrite bv_get_set. destruct (Nat.eqb_spec cur x) as [->|]; simpl; auto.
    congruence.
  - eapply Segs_advance with (ons := bv_get (tarjanStackStates ts));
      try exact Hsegs; auto.
    + apply (g_nodup G).
    + apply (g_sorted G).
    + apply (g_ons G).
    + apply (g_visT G).
    + apply (g_visS G).
    + intros x Hx. destruct (bv_get (tarjanStackStates ts) t); auto.
      rewrite vec_get_set. destruct (Nat.eqb_spec cur x); simpl; auto. congruence.
    + destruct (bv_get (tarjanStackStates ts) t); auto.
      rewrite vec_get_set, Nat.eqb_refl. simpl.
      destruct (Nat.ltb_spec cur (length low)); auto. lia.
    + intros x Hx. destruct (dropNaiveSccs && (cur =? t)); auto.
      rewrite bv_get_set. destruct (Nat.eqb_spec cur x); simpl; auto. congruence.
    + destruct (dropNaiveSccs && (cur =? t)) eqn:Ed; auto.
      rewrite bv_get_set, Nat.eqb_refl. simpl.
      apply andb_true_iff in Ed. destruct Ed as [Ed _].
      destruct (Nat.ltb_spec cur (length sl)); auto.
      rewrite (Hszsl Ed) in *. lia.
Qed.

Lemma traverse_inv ts :
  GInv ts ->
  forall it cur rest low sl low' sl' r,
  LInv low sl ((cur, it) :: rest) ts ->
  traverseSuccessors subsystem dropNaiveSccs cur it low sl ts = (low', sl', r) ->
  match r with
  | Finished => LInv low' sl' ((cur, []) :: rest) ts
  | Descend c it' =>
      LInv low' sl' ((cur, it') :: rest) ts /\
      (exists w next, it' = (c, w) :: next) /\
      inS c = true /\ bv_get (visitedStates ts) c = false
  end.
Proof.
  intros G. induction it as [|[t w] next IH]; intros cur rest low sl low' sl' r L H.
  - simpl in H. inversion H; subst. exact L.
  - simpl in H.
    destruct (top_frame_facts G L) as (HcT & Hcv & Hcs & Hclt).
    destruct (inS t) eqn:Hs.
    + destruct (bv_get (visitedStates ts) t) eqn:Hv; simpl in H.
      * pose proof (LInv_advance G L (fun _ => Hv)) as L'.
        destruct (bv_get (tarjanStackStates ts) t); eapply IH; eauto.
      * inversion H; subst. clear H.
        assert (Hne : (cur =? t) = false).
        { apply Nat.eqb_neq. intros ->. congruence. }
        rewrite Hne, andb_false_r.
        split; [exact L|]. split; [eauto|]. split; auto.
    + assert (Ho : bv_get (tarjanStackStates ts) t = false).
      { destruct (bv_get (tarjanStackStates ts) t) eqn:Ho; auto.
        apply (g_ons G) in Ho. apply (g_visT G), (g_visS G) in Ho. congruence. }
      assert (Hvt : inS t = true -> bv_get (visitedStates ts) t = true)
        by (intros; congruence).
      pose proof (LInv_advance G L Hvt) as L'. rewrite Ho in L'.
      eapply IH; eauto.
Qed.

Lemma vec_get_set_in (v : list nat) (i j x : nat) :
  i < length v ->
  vec_get (list_set v i x) j = if i =? j then x else vec_get v j.
Proof.
  intros H. rewrite vec_get_set.
  destruct (Nat.ltb_spec i (length v)); [|lia].
  rewrite andb_true_r. reflexivity.
Qed.

Lemma bv_get_set_in (bv : BitVector) (i j : nat) (b : bool) :
  i < length bv ->
  bv_get (bv_set bv i b) j = if i =? j then b else bv_get bv j.
Proof.
  intros H. rewrite bv_get_set.
  destruct (Nat.ltb_spec i (length bv)); [|lia].
  rewrite andb_true_r. reflexivity.
Qed.

(** The treatment of a newly discovered state [c]: either the start state
    (empty recursion stack) or the successor the iterator of the state on
    top of the recursion stack points at. *)
Lemma forward_inv ts low sl fr c :
  GInv ts -> LInv low sl fr ts ->
  inS c = true -> bv_get (visitedStates ts) c = false ->
  match fr with
  | [] => True
  | (p, itp) :: _ => exists w next, itp = (c, w) :: next
  end ->
  GInv (stepForward c (setLowlinks ts low)) /\
  LInv (lowlinks (stepForward c (setLowlinks ts low))) sl
       ((c, getRows model c) :: fr) (stepForward c (setLowlinks ts low)).
Proof.
  intros G L Hs Hv Hlink.
  pose proof (inS_lt _ Hs) as Hlt.
  destruct G as [Zi Zv Zo Gons Gnd GvT GvS Gidx Gsort Gcl Gscc Gbc Gbn Gcov Gkept].
  destruct L as [Zl Zsl Lslv Lsegs].
  assert (HcT : ~ In c (tarjanStack ts)).
  { intros Hin. apply GvT in Hin. congruence. }
  assert (Eidx : forall x, vec_get (list_set (stateIndices ts) c (currentIndex ts)) x
                           = if c =? x then currentIndex ts else vec_get (stateIndices ts) x).
  { intros x. apply vec_get_set_in. lia. }
  assert (Elow : forall x, vec_get (list_set low c (currentIndex ts)) x
                           = if c =? x then currentIndex ts else vec_get low x).
  { intros x. apply vec_get_set_in. lia. }
  assert (Evis : forall x, bv_get (bv_set (visitedStates ts) c true) x
                           = if c =? x then true else bv_get (visitedStates ts) x).
  { intros x. apply bv_get_set_in. lia. }
  assert (Eons : forall x, bv_get (bv_set (tarjanStackStates ts) c true) x
                           = if c =? x then true else bv_get (tarjanStackStates ts) x).
  { intros x. apply bv_get_set_in. lia. }
  split.
  - constructor; simpl.
    + rewrite list_set_length. auto.
    + rewrite bv_set_length. auto.
    + rewrite bv_set_length. auto.
    + intros x. rewrite Eons. destruct (Nat.eqb_spec c x) as [->|Hne].
      * intuition.
      * rewrite Gons. intuition.
    + constructor; auto.
    + intros x Hx. rewrite Evis. destruct (Nat.eqb_spec c x); auto.
      destruct Hx; [congruence|auto].
    + intros x. rewrite Evis. destruct (Nat.eqb_spec c x) as [<-|]; auto.
    + intros x. rewrite Evis, Eidx. destruct (Nat.eqb_spec c x); auto.
      intros Hx. apply Gidx in Hx. lia.
    + constructor.
      * eapply StronglySorted_ext; [|exact Gsort]. simpl.
        intros a b Ha Hb. rewrite !Eidx.
        destruct (Nat.eqb_spec c a); [subst; tauto|].
        destruct (Nat.eqb_spec c b); [subst; tauto|]. auto.
      * rewrite Forall_forall. intros y Hy. rewrite !Eidx, Nat.eqb_refl.
        destruct (Nat.eqb_spec c y); [subst; tauto|].
        apply Gidx, GvT, Hy.
    + intros x y. rewrite !Evis.
      destruct (Nat.eqb_spec c x) as [->|Hne]; [tauto|].
      intros Hx HxT Hy HyS.
      destruct (Gcl x y) as (Hvy & HyT); auto.
      destruct (Nat.eqb_spec c y) as [->|]; [congruence|]. tauto.
    + exact Gscc.
    + intros B x HB Hx. destruct (Gbc B x HB Hx) as (Hvx & HxT).
      rewrite Evis. destruct (Nat.eqb_spec c x) as [->|]; [congruence|]. tauto.
    + exact Gbn.
    + intros Hb x. rewrite Evis. destruct (Nat.eqb_spec c x) as [->|]; [tauto|].
      intros Hx HxT. apply Gcov; auto.
    + exact Gkept.
  - constructor; simpl.
    + rewrite list_set_length. auto.
    + exact Zsl.
    + intros Hd x. rewrite Evis. destruct (Nat.eqb_spec c x); [discriminate|].
      auto.
    + change (c :: tarjanStack ts) with ([] ++ c :: tarjanStack ts).
      apply Segs_cons.
      * eapply Segs_mono; [exact Lsegs| | | |]; simpl.
        -- intros x Hx. rewrite Eidx.
           destruct (Nat.eqb_spec c x); [subst; tauto|auto].
        -- intros g it Hin. rewrite Elow.
           destruct (Nat.eqb_spec c g); auto. subst.
           exfalso. apply HcT. eapply Segs_gray_In; eauto.
        -- intros x Hx. rewrite Evis. destruct (c =? x); auto.
        -- auto.
      * constructor.
        -- exact Hs.
        -- exists []. simpl. split; [reflexivity|]. split; [tauto|].
           split; [tauto|]. intros Hd. rewrite (Lslv Hd c Hv).
           split; [discriminate|tauto].
        -- simpl; tauto.
        -- simpl; tauto.
        -- simpl; tauto.
        -- rewrite Elow, Eidx, Nat.eqb_refl. auto.
        -- exists c. simpl. rewrite Elow, Eidx, Nat.eqb_refl.
           split; auto. split; auto. apply reach_refl.
        -- destruct fr as [|[p itp] fr']; simpl; auto.
Qed.

Lemma popScc_spec cur cl T' :
  forall B ons scc b, ~ In cur B ->
  exists b',
    popScc onlyBottomSccs cur (B ++ cur :: T') ons cl scc b =
    (T', fold_left (fun o x => bv_set o x false) (B ++ [cur]) ons,
     fold_left (fun a y => vs_insert y a) (B ++ [cur]) scc, b').
Proof.
  induction B as [|a B IH]; intros ons scc b Hn; simpl.
  - rewrite Nat.eqb_refl. eexists. reflexivity.
  - destruct (Nat.eqb_spec a cur) as [->|Hne].
    + exfalso. apply Hn. left; auto.
    + apply IH. intros Hin. apply Hn. right; auto.
Qed.

Lemma clear_bits_get (l : list nat) (ons : BitVector) (x : nat) :
  bv_get (fold_left (fun o y => bv_set o y false) l ons) x = true <->
  bv_get ons x = true /\ ~ In x l.
Proof.
  revert ons; induction l as [|a l IH]; intros ons; simpl.
  - tauto.
  - rewrite IH, bv_get_set_false.
    destruct (Nat.eqb_spec a x); intuition congruence.
Qed.

Lemma clear_bits_length (l : list nat) (ons : BitVector) :
  length (fold_left (fun o y => bv_set o y false) l ons) = length ons.
Proof.
  revert ons; induction l as [|a l IH]; intros ons; simpl; auto.
  rewrite IH. apply bv_set_length.
Qed.

(** When the state on top of the recursion stack has run through all its
    successors and its lowlink equals its index, its segment is a strongly
    connected component and no edge leaves the closed states. *)
Lemma root_closes idx low vis sl cur B T' parent :
  SegOK idx low vis sl cur [] B T' parent ->
  low cur = idx cur ->
  (forall y, In y T' -> idx y < idx cur) ->
  (forall x y, vis x = true -> ~ In x (B ++ cur :: T') ->
               In y (succs x) -> inS y = true ->
               vis y = true /\ ~ In y (B ++ cur :: T')) ->
  (forall x, vis x = true -> inS x = true) ->
  (forall x, In x (B ++ cur :: T') -> vis x = true) ->
  NoDup (B ++ cur :: T') ->
  (forall x y, vis x = true -> ~ In x T' -> In y (succs x) -> inS y = true ->
               vis y = true /\ ~ In y T')
  /\ (forall x y, In x B \/ x = cur ->
                  (In y B \/ y = cur <-> mutuallyReachable model subsystem x y)).
Proof.
  intros Hok Hroot HoT Hold HvS HvT Hnd.
  destruct (NoDup_stack _ _ _ Hnd) as (HcB & HcT & HndT & HBT).
  destruct Hok as [Hin Hdone Hbl Hbv Hbr Hle Hwit Hlink].
  destruct Hdone as (done & E & Dv & Dl & Ds).
  simpl in E. rewrite app_nil_r in E.
  assert (Hnew : forall x y, vis x = true -> ~ In x T' -> In y (succs x) ->
                             inS y = true -> vis y = true /\ ~ In y T').
  { intros x y Hx HxT Hy Hys.
    destruct (in_dec Nat.eq_dec x (B ++ cur :: T')) as [Hi|Hni].
    - apply in_app_or in Hi. destruct Hi as [Hi|[<-|Hi]]; [| |tauto].
      + split; [eauto|]. intros HyT.
        pose proof (Hbl x y Hi Hy HyT). pose proof (HoT y HyT). lia.
      + rewrite E in Hy. split; [eauto|]. intros HyT.
        pose proof (Dl y Hy HyT). pose proof (HoT y HyT). lia.
    - destruct (Hold x y Hx Hni Hy Hys) as (Hvy & HyT). split; auto.
      intros Hi. apply HyT. apply in_or_app. right. right. auto. }
  split; [exact Hnew|].
  assert (Hseg : forall x, In x B \/ x = cur -> R cur x /\ R x cur).
  { intros x [Hx| ->]; auto. split; apply reach_refl. }
  intros x y Hx. split.
  - intros Hy. destruct (Hseg x Hx), (Hseg y Hy).
    split; eapply reach_trans; eauto.
  - intros [Hxy Hyx].
    assert (Rcy : R cur y).
    { apply reach_trans with x; [apply (Hseg x Hx)|exact Hxy]. }
    assert (Ryc : R y cur).
    { apply reach_trans with x; [exact Hyx|apply (Hseg x Hx)]. }
    assert (Cy : vis y = true /\ ~ In y T').
    { refine (reach_closed (fun z => vis z = true /\ ~ In z T') _ Rcy _).
      - intros a b [Ha HaT] (_ & Hbs & Hab). eauto.
      - split; auto. apply HvT. apply in_or_app. right. left. auto. }
    destruct Cy as [Hvy HyT].
    destruct (in_dec Nat.eq_dec y (B ++ cur :: T')) as [Hi|Hni].
    + apply in_app_or in Hi. destruct Hi as [Hi|[<-|Hi]]; tauto.
    + exfalso.
      assert (Cc : vis cur = true /\ ~ In cur (B ++ cur :: T')).
      { refine (reach_closed
                  (fun z => vis z = true /\ ~ In z (B ++ cur :: T')) _ Ryc _); auto.
        intros a b [Ha HaT] (_ & Hbs & Hab). eauto. }
      apply (proj2 Cc). apply in_or_app. right. left. auto.
Qed.

Lemma NoDup_segment (B T : list nat) (g : nat) :
  NoDup (B ++ g :: T) -> NoDup (B ++ [g]).
Proof.
  intros H. destruct (NoDup_stack _ _ _ H) as (HgB & _ & _ & _).
  apply NoDup_remove_1 in H. apply NoDup_app_remove_r in H.
  apply NoDup_app; auto.
  - constructor; [tauto|constructor].
  - intros a Ha [<-|[]]. tauto.
Qed.

(** Closing the SCC of a root. *)
Lemma close_root ts low sl cl cur rest :
  GInv ts -> LInv low sl ((cur, []) :: rest) ts ->
  vec_get low cur = vec_get (stateIndices ts) cur ->
  let ts2 := closeScc dropNaiveSccs onlyBottomSccs cur sl cl (setLowlinks ts low) in
  GInv ts2 /\ LInv low sl rest ts2 /\ lowlinks ts2 = low /\
  stateIndices ts2 = stateIndices ts /\ visitedStates ts2 = visitedStates ts /\
  currentIndex ts2 = currentIndex ts /\
  ~ In cur (tarjanStack ts2) /\
  (forall x, In x (tarjanStack ts2) ->
             vec_get (stateIndices ts) x < vec_get (stateIndices ts) cur).
Proof.
  intros G L Hroot.
  destruct (top_frame_facts G L) as (HcTs & Hcv & Hcs & Hclt).
  destruct L as [Zl Zsl Lslv Lsegs].
  inversion Lsegs as [|g it rest0 B T' Hrest Hok Efr ET]; subst g it rest0.
  destruct G as [Zi Zv Zo Gons Gnd GvT GvS Gidx Gsort Gcl Gscc Gbc Gbn Gcov Gkept].
  unfold closeScc, setLowlinks; simpl.
  rewrite (proj2 (Nat.eqb_eq _ _) Hroot).
  rewrite <- ET in *. clear ET.
  destruct (NoDup_stack _ _ _ Gnd) as (HcB & HcT & HndT & HBT).
  destruct (stack_order _ _ _ _ Gsort) as (HoB & HoT).
  destruct (@popScc_spec cur cl T' B (tarjanStackStates ts) [] true HcB) as (b' & Epop).
  rewrite Epop. clear Epop.
  destruct (root_closes Hok Hroot HoT Gcl GvS GvT Gnd) as (Hnew & Hmax).
  set (scc := fold_left (fun a y => vs_insert y a) (B ++ [cur]) []).
  set (ons' := fold_left (fun o x => bv_set o x false) (B ++ [cur])
                         (tarjanStackStates ts)).
  set (keep := (negb dropNaiveSccs || ((1 <? length scc) || bv_get sl (hd 0 scc)))
               && (negb onlyBottomSccs || b')).
  assert (Fscc : forall x, In x scc <-> In x B \/ x = cur).
  { intros x. unfold scc. rewrite vs_fromRange_gen_In, in_app_iff. simpl.
    intuition. }
  assert (FsT : forall x, In x scc -> In x (B ++ cur :: T')).
  { intros x Hx. apply Fscc in Hx. apply in_or_app. simpl.
    destruct Hx; [left|right; left]; auto. }
  assert (FsT' : forall x, In x scc -> ~ In x T').
  { intros x Hx. apply Fscc in Hx. destruct Hx as [Hx| ->]; auto. }
  assert (Fok : vs_ok scc) by (apply vs_fromRange_gen_ok; constructor).
  assert (Fisscc : isScc model subsystem scc).
  { split; [exact Fok|]. split.
    - intros E. assert (Hc : In cur scc) by (apply Fscc; auto).
      rewrite E in Hc. destruct Hc.
    - intros x Hx. split; [apply GvS, GvT, FsT, Hx|].
      intros y. rewrite Fscc. apply Hmax. apply Fscc. exact Hx. }
  assert (Fons : forall x, bv_get ons' x = true <-> In x T').
  { intros x. unfold ons'. rewrite clear_bits_get, Gons, !in_app_iff. simpl.
    split.
    - intros [[H|[H|H]] Hn]; auto; exfalso; apply Hn; auto.
    - intros H. split; auto. intros [HB|[Hc|[]]].
      + apply (HBT x HB H).
      + subst. tauto. }
  assert (Flen : length scc = length B + 1).
  { unfold scc. rewrite vs_fromRange_gen_length.
    - rewrite length_app. simpl. lia.
    - eapply NoDup_segment; eauto.
    - intros x _ []. }
  destruct Hok as [Hin Hdone Hbl Hbv Hbr Hle Hwit Hlink].
  destruct Hdone as (done & E & Dv & Dl & Ds).
  simpl in E. rewrite app_nil_r in E.
  assert (Fsingle : B = [] -> scc = [cur]).
  { intros ->. reflexivity. }
  assert (Fcover : onlyBottomSccs = false -> forall x, In x scc ->
                   dropNaiveSccs = false \/ nontrivial model subsystem x ->
                   keep = true).
  { intros Hb x Hx Hc. unfold keep. rewrite Hb. simpl. rewrite andb_true_r.
    destruct dropNaiveSccs eqn:Hd; simpl; auto.
    destruct Hc as [Hc|Hc]; [discriminate|].
    destruct B as [|b0 B0].
    - rewrite (Fsingle eq_refl) in *. simpl.
      destruct Hx as [<-|[]].
      destruct Hc as [Hself|(y & Hne & Hy)].
      + apply Ds; auto. rewrite <- E. exact Hself.
      + apply (Hmax cur y) in Hy; auto. destruct Hy as [[]|Hy]. congruence.
    - assert (Hl : (1 <? length scc) = true).
      { apply Nat.ltb_lt. rewrite Flen. simpl. lia. }
      rewrite Hl. reflexivity. }
  assert (Fkept : dropNaiveSccs = true -> keep = true ->
                  forall x, In x scc -> nontrivial model subsystem x).
  { intros Hd Hk x Hx. unfold keep in Hk. rewrite Hd in Hk. simpl in Hk.
    apply andb_true_iff in Hk. destruct Hk as [Hk _].
    destruct B as [|b0 B0].
    - rewrite (Fsingle eq_refl) in *. simpl in Hk.
      destruct Hx as [<-|[]]. left. rewrite E. apply Ds; auto.
    - right. apply Fscc in Hx. destruct Hx as [Hx| ->].
      + exists cur. split; [intros ->; tauto|]. apply Hmax; auto.
      + exists b0. split; [intros ->; apply HcB; left; auto|].
        apply Hmax; auto. left. left. auto. }
  fold keep. fold scc. fold ons'.
  split; [|split; [|repeat split; auto]].
  - constructor; simpl; auto.
    + unfold ons'. rewrite clear_bits_length. auto.
    + intros x Hx. apply GvT. apply in_or_app. right. right. auto.
    + apply StronglySorted_app_inv in Gsort. destruct Gsort as (_ & S2 & _).
      inversion S2; auto.
    + intros B0 HB0. destruct keep; auto.
      apply in_app_or in HB0. destruct HB0 as [HB0|[<-|[]]]; auto.
    + intros B0 x HB0 Hx.
      assert (Hold : In B0 (blocks ts) ->
                     bv_get (visitedStates ts) x = true /\ ~ In x T').
      { intros H0. destruct (Gbc B0 x H0 Hx) as (Hv & Hn). split; auto.
        intros Hi. apply Hn. apply in_or_app. right. right. auto. }
      destruct keep; auto.
      apply in_app_or in HB0. destruct HB0 as [HB0|[<-|[]]]; auto.
    + destruct keep; auto. rewrite concat_app. simpl. rewrite app_nil_r.
      apply NoDup_app; auto.
      * apply vs_ok_NoDup, Fok.
      * intros x Hx Hs. apply in_concat in Hx. destruct Hx as (B0 & HB0 & Hx).
        destruct (Gbc B0 x HB0 Hx) as (_ & Hn). apply Hn, FsT, Hs.
    + intros Hb x Hv HxT Hc.
      destruct (in_dec Nat.eq_dec x (B ++ cur :: T')) as [Hi|Hni].
      * assert (Hs : In x scc).
        { apply Fscc. apply in_app_or in Hi. destruct Hi as [|[|]]; auto. tauto. }
        rewrite (Fcover Hb x Hs Hc). rewrite concat_app. apply in_or_app.
        right. simpl. rewrite app_nil_r. exact Hs.
      * assert (Ho : In x (concat (blocks ts))) by auto.
        destruct keep; auto. rewrite concat_app. apply in_or_app. auto.
    + intros Hd x Hx. destruct keep eqn:Hk; auto.
      rewrite concat_app in Hx. apply in_app_or in Hx.
      destruct Hx as [Hx|Hx]; auto.
      simpl in Hx. rewrite app_nil_r in Hx. eauto.
  - constructor; simpl; auto.

Qed.

Lemma GInv_setLowlinks ts l : GInv ts -> GInv (setLowlinks ts l).
Proof. intros [? ? ? ? ? ? ? ? ? ? ? ? ? ? ?]. constructor; simpl; auto. Qed.

Lemma LInv_setLowlinks ts l low sl fr :
  LInv low sl fr ts -> LInv low sl fr (setLowlinks ts l).
Proof. intros [? ? ? ?]. constructor; simpl; auto. Qed.

Lemma list_set_same (l : list nat) (i : nat) :
  list_set l i (vec_get l i) = l.
Proof.
  unfold vec_get. revert i; induction l as [|y t IH]; intros [|i]; simpl; auto.
  rewrite IH. reflexivity.
Qed.

(** The return to the parent [p] after the SCC of its successor [c] has
    been closed. *)
Lemma backward_closed ts low sl cl p c w next rest' :
  GInv ts -> LInv low sl ((p, (c, w) :: next) :: rest') ts ->
  lowlinks ts = low ->
  bv_get (visitedStates ts) c = true -> ~ In c (tarjanStack ts) ->
  vec_get low c = vec_get (stateIndices ts) c ->
  vec_get (stateIndices ts) p < vec_get (stateIndices ts) c ->
  let ts3 := fst (stepBackward onlyBottomSccs p c cl ts) in
  GInv ts3 /\ LInv (lowlinks ts3) sl ((p, next) :: rest') ts3 /\
  visitedStates ts3 = visitedStates ts.
Proof.
  intros G L El Hv HcT Hlc Hlt. simpl.
  destruct (top_frame_facts G L) as (HpT & Hpv & Hps & Hplt).
  split; [apply GInv_setLowlinks, G|]. split; [|reflexivity].
  apply LInv_setLowlinks.
  pose proof (LInv_advance G L (fun _ => Hv)) as L'.
  assert (Ho : bv_get (tarjanStackStates ts) c = false).
  { destruct (bv_get (tarjanStackStates ts) c) eqn:Ho; auto.
    apply (g_ons G) in Ho. tauto. }
  assert (Hne : (p =? c) = false).
  { apply Nat.eqb_neq. intros ->. tauto. }
  rewrite Ho, Hne, andb_false_r in L'.
  assert (Hle : vec_get low p <= vec_get (stateIndices ts) p).
  { destruct L as [_ _ _ Ls]. inversion Ls as [|? ? ? B T' _ Hok]; subst.
    apply (seg_low_le Hok). }
  rewrite El. rewrite Nat.min_l by lia. rewrite list_set_same. exact L'.
Qed.

(** The return to the parent [p] when its successor [cur] is not the root
    of an SCC: the segment of [cur] joins the segment of [p]. *)
Lemma Segs_merge idx low vis sl cur p w next rest' T low' :
  NoDup T ->
  StronglySorted (fun a b => idx b < idx a) T ->
  (forall x, In x T -> vis x = true) ->
  (forall x, vis x = true -> inS x = true) ->
  Segs idx low vis sl ((cur, []) :: (p, (cur, w) :: next) :: rest') T ->
  low cur <> idx cur ->
  (forall x, x <> p -> low' x = low x) ->
  low' p = Nat.min (low p) (low cur) ->
  Segs idx low' vis sl ((p, next) :: rest') T.
Proof.
  intros Hnd Hsort HvT HvS Hsegs Hnr Hlo Hlp.
  inversion Hsegs as [|? ? ? B T1 Hrest Hok]; subst.
  inversion Hrest as [|? ? ? Bp Tp Hrest' Hokp]; subst.
  destruct (NoDup_stack _ _ _ Hnd) as (HcB & HcT1 & HndT1 & HBT1).
  destruct (stack_order _ _ _ _ Hsort) as (HoB & HoT1).
  destruct (NoDup_stack _ _ _ HndT1) as (HpBp & HpTp & HndTp & HBpTp).
  assert (HsortT1 : StronglySorted (fun a b => idx b < idx a) (Bp ++ p :: Tp)).
  { apply StronglySorted_app_inv in Hsort. destruct Hsort as (_ & S2 & _).
    inversion S2; auto. }
  destruct (stack_order _ _ _ _ HsortT1) as (HoBp & HoTp).
  assert (HTp1 : forall y, In y Tp -> In y (Bp ++ p :: Tp)).
  { intros y Hy. apply in_or_app. right. right. auto. }
  assert (Hpc : p <> cur).
  { intros ->. apply HcT1. apply in_or_app. right. left. auto. }
  assert (Hvc : vis cur = true).
  { apply HvT. apply in_or_app. right. left. auto. }
  pose proof (Segs_reach_top Hrest) as Htop.
  destruct Hok as [Hin Hdone Hbl Hbv Hbr Hle Hwit Hlink].
  destruct Hdone as (done & E & Dv & Dl & Ds).
  simpl in E. rewrite app_nil_r in E.
  destruct Hokp as [Hinp Hdonep Hblp Hbvp Hbrp Hlep Hwitp Hlinkp].
  destruct Hdonep as (donep & Ep & Dvp & Dlp & Dsp).
  assert (Hlt : low cur < idx cur) by lia.
  destruct Hwit as (w0 & Hw0 & Ew0 & Rw0).
  assert (Hw1 : In w0 (Bp ++ p :: Tp)).
  { destruct Hw0 as [<-|Hw0]; auto. lia. }
  assert (Rcp : R cur p).
  { eapply reach_trans; [exact Rw0|]. apply Htop, Hw1. }
  assert (Rpc : R p cur).
  { apply reach_edge. split; auto. split; auto. rewrite Ep.
    apply in_or_app. right. left. auto. }
  assert (Hle' : low' p <= low p) by (rewrite Hlp; apply Nat.le_min_l).
  assert (Hlec : low' p <= low cur) by (rewrite Hlp; apply Nat.le_min_r).
  replace (B ++ cur :: Bp ++ p :: Tp) with ((B ++ cur :: Bp) ++ p :: Tp)
    by (rewrite <- app_assoc; reflexivity).
  constructor.
  - eapply Segs_mono; eauto.
    intros g it Hg. apply Hlo. intros ->. apply HpTp.
    eapply Segs_gray_In; eauto.
  - constructor; auto.
    + exists (donep ++ [cur]). split; [|split; [|split]].
      * rewrite Ep. simpl. rewrite <- app_assoc. reflexivity.
      * intros y Hy Hs. apply in_app_or in Hy. destruct Hy as [Hy|[<-|[]]]; auto.
      * intros y Hy HT. apply in_app_or in Hy. destruct Hy as [Hy|[<-|[]]].
        -- etransitivity; [exact Hle'|]. auto.
        -- exfalso. apply HcT1. auto.
      * intros Hd. rewrite (Dsp Hd). split.
        -- intros. apply in_or_app. auto.
        -- intros Hy. apply in_app_or in Hy. destruct Hy as [Hy|[Hy|[]]]; auto.
           congruence.
    + intros x y Hx Hy HT. apply in_app_or in Hx. destruct Hx as [Hx|[<-|Hx]].
      * etransitivity; [exact Hlec|]. eauto.
      * etransitivity; [exact Hlec|]. apply Dl; auto. rewrite <- E. auto.
      * etransitivity; [exact Hle'|]. eauto.
    + intros x y Hx Hy Hs. apply in_app_or in Hx. destruct Hx as [Hx|[<-|Hx]].
      * eauto.
      * apply Dv; auto. rewrite <- E. auto.
      * eauto.
    + intros x Hx. apply in_app_or in Hx. destruct Hx as [Hx|[<-|Hx]]; auto.
      destruct (Hbr x Hx). split; eapply reach_trans; eauto.
    + lia.
    + destruct (Nat.le_gt_cases (low p) (low cur)) as [Hcmp|Hcmp].
      * destruct Hwitp as (v & Hv & Ev & Rv). exists v.
        rewrite Hlp, Nat.min_l by assumption. auto.
      * exists w0. rewrite Hlp, Nat.min_r by lia.
        split; [|split; auto].
        -- apply in_app_or in Hw1. destruct Hw1 as [Hw1|[<-|Hw1]].
           ++ apply HoBp in Hw1. lia.
           ++ left; auto.
           ++ right; auto.
        -- eapply reach_trans; eauto.
Qed.

Lemma backward_open ts low sl cl cur p w next rest' :
  GInv ts -> LInv low sl ((cur, []) :: (p, (cur, w) :: next) :: rest') ts ->
  vec_get low cur <> vec_get (stateIndices ts) cur ->
  let ts3 := fst (stepBackward onlyBottomSccs p cur cl (setLowlinks ts low)) in
  GInv ts3 /\ LInv (lowlinks ts3) sl ((p, next) :: rest') ts3 /\
  visitedStates ts3 = visitedStates ts.
Proof.
  intros G L Hnr. simpl.
  split; [do 2 apply GInv_setLowlinks; exact G|]. split; [|reflexivity].
  do 2 apply LInv_setLowlinks.
  destruct L as [Zl Zsl Lslv Lsegs].
  assert (HpT : In p (tarjanStack ts)).
  { eapply Segs_gray_In; [exact Lsegs|]. right. left. reflexivity. }
  assert (Hplt : p < length low).
  { rewrite Zl. apply inS_lt, (g_visS G), (g_visT G), HpT. }
  constructor; auto.
  - rewrite list_set_length. auto.
  - eapply Segs_merge; try exact Lsegs; auto.
    + apply (g_nodup G).
    + apply (g_sorted G).
    + apply (g_visT G).
    + apply (g_visS G).
    + intros x Hx. rewrite vec_get_set_in by assumption.
      destruct (Nat.eqb_spec p x); congruence.
    + rewrite vec_get_set_in by assumption. rewrite Nat.eqb_refl. reflexivity.
Qed.

Lemma Segs_link idx low vis sl cur it p itp rest' T :
  Segs idx low vis sl ((cur, it) :: (p, itp) :: rest') T ->
  exists w next, itp = (cur, w) :: next.
Proof.
  inversion 1 as [|? ? ? B T' _ Hok]; subst. apply (seg_link Hok).
Qed.

Lemma Segs_bottom_root idx low vis sl cur it T :
  Segs idx low vis sl [(cur, it)] T -> low cur = idx cur.
Proof.
  inversion 1 as [|? ? ? B T' Hrest Hok]; subst.
  apply Segs_nil_inv in Hrest. subst.
  destruct (seg_low_wit Hok) as (w & [<-|[]] & E & _). exact E.
Qed.

Lemma closeScc_nonroot cur sl cl ts :
  vec_get (lowlinks ts) cur <> vec_get (stateIndices ts) cur ->
  closeScc dropNaiveSccs onlyBottomSccs cur sl cl ts = ts.
Proof.
  intros H. unfold closeScc. apply Nat.eqb_neq in H. rewrite H. reflexivity.
Qed.

Lemma filter_length_lt (f f' : nat -> bool) (l : list nat) (c : nat) :
  (forall x, f' x = true -> f x = true) ->
  In c l -> f c = true -> f' c = false ->
  length (filter f' l) < length (filter f l).
Proof.
  intros Himp. induction l as [|y l IH]; intros Hin Hc Hc'; [destruct Hin|].
  assert (Hle : length (filter f' l) <= length (filter f l)).
  { clear - Himp. induction l as [|z l IH]; simpl; auto.
    destruct (f' z) eqn:E'.
    - rewrite (Himp z E'). simpl. lia.
    - destruct (f z); simpl; lia. }
  simpl. destruct Hin as [->|Hin].
  - rewrite Hc, Hc'. simpl. lia.
  - specialize (IH Hin Hc Hc'). destruct (f' y) eqn:E'.
    + rewrite (Himp y E'). simpl. lia.
    + destruct (f y); simpl; lia.
Qed.

Lemma unvisited_forward ts c :
  length (visitedStates ts) = numberOfStates model ->
  inS c = true -> bv_get (visitedStates ts) c = false ->
  unvisited (stepForward c ts) < unvisited ts.
Proof.
  intros Zv Hs Hv. unfold unvisited. simpl.
  pose proof (inS_lt _ Hs) as Hlt.
  apply filter_length_lt with (c := c).
  - intros x. rewrite bv_get_set_in by lia.
    destruct (Nat.eqb_spec c x); auto. rewrite andb_false_r. discriminate.
  - apply in_seq. lia.
  - rewrite Hs, Hv. reflexivity.
  - rewrite bv_get_set_in by lia. rewrite Nat.eqb_refl, andb_false_r. reflexivity.
Qed.

Lemma helperLoop_total :
  forall fuel hs,
  GInv (env hs) ->
  LInv (lowlinks (env hs)) (statesWithSelfloop hs) (recursionStack hs) (env hs) ->
  recursionStack hs <> [] ->
  2 * unvisited (env hs) + length (recursionStack hs) <= fuel ->
  exists ts',
    helperLoop model subsystem dropNaiveSccs onlyBottomSccs fuel hs = Some ts' /\
    TopInv ts' /\
    (forall x, bv_get (visitedStates (env hs)) x = true ->
               bv_get (visitedStates ts') x = true).
Proof.
  induction fuel as [|fuel IH]; intros [ts fr sl cl]; simpl; intros G L Hne Hm.
  - destruct fr; [congruence|simpl in Hm; lia].
  - destruct fr as [|[cur it] rest]; [congruence|]. clear Hne.
    destruct (traverseSuccessors subsystem dropNaiveSccs cur it (lowlinks ts) sl ts)
      as [[low' sl'] r] eqn:Et.
    pose proof (traverse_inv G L Et) as Ht.
    destruct r as [|c it'].
    + (* all successors are done *)
      destruct (Nat.eq_dec (vec_get low' cur) (vec_get (stateIndices ts) cur))
        as [Hroot|Hnr].
      * destruct (close_root cl G Ht Hroot)
          as (G2 & L2 & El2 & Ei2 & Ev2 & Ec2 & HcT2 & Hord).
        remember (closeScc dropNaiveSccs onlyBottomSccs cur sl' cl
                           (setLowlinks ts low')) as ts2 eqn:Ets2.
        destruct rest as [|[p itp] rest'].
        -- exists ts2. split; auto. split.
           ++ split; auto. split.
              ** apply (Segs_nil_inv (l_segs L2)).
              ** rewrite El2. apply (l_size_low L2).
           ++ rewrite Ev2. auto.
        -- destruct (Segs_link (l_segs Ht)) as (w & next & ->).
           destruct (top_frame_facts G2 L2) as (HpT & _).
           assert (Hvc : bv_get (visitedStates ts2) cur = true).
           { rewrite Ev2. apply (top_frame_facts G Ht). }
           destruct (@backward_closed ts2 low' sl' cl p cur w next rest' G2 L2 El2 Hvc HcT2)
             as (G3 & L3 & Ev3).
           { rewrite Ei2. exact Hroot. }
           { rewrite Ei2. apply Hord, HpT. }
           simpl in G3, L3, Ev3.
           match goal with
           | |- context [helperLoop _ _ _ _ _ ?hs] =>
               destruct (IH hs) as (ts' & Er & Ti & Hmono)
           end; simpl; auto; [congruence| |].
           ++ unfold unvisited in *. simpl in *. rewrite Ev2. lia.
           ++ exists ts'. split; auto. split; auto.
              intros x Hx. apply Hmono. simpl. rewrite Ev2. exact Hx.
      * rewrite closeScc_nonroot by (simpl; exact Hnr).
        destruct rest as [|[p itp] rest'].
        -- exfalso. apply Hnr. apply (Segs_bottom_root (l_segs Ht)).
        -- destruct (Segs_link (l_segs Ht)) as (w & next & ->).
           destruct (@backward_open ts low' sl' cl cur p w next rest' G Ht Hnr)
             as (G3 & L3 & Ev3).
           simpl in G3, L3, Ev3.
           match goal with
           | |- context [helperLoop _ _ _ _ _ ?hs] =>
               destruct (IH hs) as (ts' & Er & Ti & Hmono)
           end; simpl; auto; [congruence| |].
           ++ unfold unvisited in *. simpl in *. lia.
           ++ exists ts'. split; auto.
    + (* descend to the unvisited successor [c] *)
      destruct Ht as (L' & (w & next & ->) & Hcs & Hcv).
      destruct (@forward_inv ts low' sl' ((cur, (c, w) :: next) :: rest) c G L' Hcs Hcv)
        as (G1 & L1); [eauto|].
      pose proof (@unvisited_forward (setLowlinks ts low') c (g_size_vis G) Hcs Hcv) as HU.
      match goal with
      | |- context [helperLoop _ _ _ _ _ ?hs] =>
          destruct (IH hs) as (ts' & Er & Ti & Hmono)
      end; simpl; auto; [congruence| |].
      * unfold unvisited in *. simpl in *. lia.
      * exists ts'. split; auto. split; auto.
        intros x Hx. apply Hmono. simpl.
        rewrite bv_get_set. destruct ((c =? x) && (c <? length (visitedStates ts))); auto.
Qed.

Lemma unvisited_le ts : unvisited ts <= numberOfStates model.
Proof.
  unfold unvisited.
  etransitivity; [apply filter_length_le|]. rewrite length_seq. auto.
Qed.

Lemma helper_total fuel s ts :
  TopInv ts -> inS s = true -> bv_get (visitedStates ts) s = false ->
  2 * numberOfStates model <= fuel ->
  exists ts',
    performSccDecompositionHelper model subsystem dropNaiveSccs onlyBottomSccs
      fuel s ts = Some ts' /\
    TopInv ts' /\
    bv_get (visitedStates ts') s = true /\
    (forall x, bv_get (visitedStates ts) x = true ->
               bv_get (visitedStates ts') x = true).
Proof.
  intros (G & HT & Zl) Hs Hv Hf.
  set (sl0 := if dropNaiveSccs then bv_new (length (lowlinks ts)) false else []).
  assert (L0 : LInv (lowlinks ts) sl0 [] ts).
  { constructor; auto.
    - intros Hd. unfold sl0. rewrite Hd, bv_new_length. auto.
    - intros Hd x _. unfold sl0. rewrite Hd. apply bv_get_new_false.
    - rewrite HT. constructor. }
  destruct (@forward_inv ts (lowlinks ts) sl0 [] s G L0 Hs Hv I) as (G1 & L1).
  pose proof (@unvisited_forward ts s (g_size_vis G) Hs Hv) as HU.
  pose proof (unvisited_le ts) as HN.
  pose proof (inS_lt _ Hs) as Hlt.
  unfold performSccDecompositionHelper. fold sl0.
  match goal with
  | |- context [helperLoop _ _ _ _ _ ?hs] =>
      destruct (@helperLoop_total fuel hs) as (ts' & Er & Ti & Hmono)
  end; simpl; auto; [congruence|lia|].
  exists ts'. split; auto. split; auto. simpl in Hmono. split.
  - apply Hmono. rewrite bv_get_set_in by (rewrite (g_size_vis G); lia).
    rewrite Nat.eqb_refl. reflexivity.
  - intros x Hx. apply Hmono. rewrite bv_get_set.
    destruct ((s =? x) && (s <? length (visitedStates ts))); auto.
Qed.

Lemma sccStartLoop_total fuel :
  2 * numberOfStates model <= fuel ->
  forall states ts,
  TopInv ts -> (forall s, In s states -> inS s = true) ->
  exists ts',
    sccStartLoop model subsystem dropNaiveSccs onlyBottomSccs fuel states ts
      = Some ts' /\
    TopInv ts' /\
    (forall x, bv_get (visitedStates ts) x = true ->
               bv_get (visitedStates ts') x = true) /\
    (forall s, In s states -> bv_get (visitedStates ts') s = true).
Proof.
  intros Hf. induction states as [|s rest IH]; intros ts Ti Hin; simpl.
  - exists ts. split; [reflexivity|]. split; [exact Ti|]. split; [auto|].
    intros s [].
  - destruct (bv_get (visitedStates ts) s) eqn:Hv; simpl.
    + destruct (IH ts Ti) as (ts' & Er & Ti' & Hmono & Hall).
      { intros; apply Hin; right; auto. }
      exists ts'. split; [exact Er|]. split; [exact Ti'|]. split; [auto|].
      intros x [<-|Hx]; auto.
    + destruct (@helper_total fuel s ts Ti) as (ts1 & E1 & Ti1 & Hs1 & Hm1); auto.
      { apply Hin. left; auto. }
      rewrite E1.
      destruct (IH ts1 Ti1) as (ts' & Er & Ti' & Hmono & Hall).
      { intros; apply Hin; right; auto. }
      exists ts'. split; [exact Er|]. split; [exact Ti'|]. split; [auto|].
      intros x [<-|Hx]; auto.
Qed.

Lemma initial_TopInv : TopInv (initialTarjanState model).
Proof.
  unfold TopInv, initialTarjanState. simpl. split; [|split].
  - constructor; simpl; try apply repeat_length; try apply bv_new_length.
    + intros x. rewrite bv_get_new_false. split; [discriminate|tauto].
    + constructor.
    + tauto.
    + intros x. rewrite bv_get_new_false. discriminate.
    + intros x. rewrite bv_get_new_false. discriminate.
    + constructor.
    + intros x y. rewrite bv_get_new_false. discriminate.
    + tauto.
    + tauto.
    + constructor.
    + intros _ x. rewrite bv_get_new_false. discriminate.
    + intros _ x [].
  - reflexivity.
  - apply repeat_length.
Qed.

(** The SCC engine terminates, and its result is made of strongly connected
    components of the restricted graph, pairwise disjoint; without the
    bottom-only option it contains every state of the subsystem, except the
    states of trivial SCCs when these are dropped. *)
Lemma performSccDecomposition_correct fuel :
  2 * numberOfStates model <= fuel ->
  exists bs,
    performSccDecomposition fuel model subsystem dropNaiveSccs onlyBottomSccs
      = Some bs /\
    (forall B, In B bs -> isScc model subsystem B) /\
    NoDup (concat bs) /\
    (onlyBottomSccs = false ->
     forall x, inS x = true ->
               dropNaiveSccs = false \/ nontrivial model subsystem x ->
               In x (concat bs)) /\
    (dropNaiveSccs = true ->
     forall x, In x (concat bs) -> nontrivial model subsystem x).
Proof.
  intros Hf. unfold performSccDecomposition.
  destruct (@sccStartLoop_total fuel Hf (bv_indices subsystem)
              (initialTarjanState model) initial_TopInv)
    as (ts' & Er & (G & HT & _) & _ & Hall).
  { intros s Hs. apply bv_indices_In. exact Hs. }
  rewrite Er. simpl. exists (blocks ts'). split; auto.
  split; [apply (g_blocks_scc G)|]. split; [apply (g_blocks_nodup G)|].
  split; [|apply (g_kept G)].
  intros Hb x Hx Hc. apply (g_cover G); auto.
  - apply Hall. apply bv_indices_In. exact Hx.
  - rewrite HT. tauto.
Qed.

Lemma popScc_members cur cl :
  forall stack ons scc b stack' ons' scc' b',
  popScc onlyBottomSccs cur stack ons cl scc b = (stack', ons', scc', b') ->
  forall x, In x scc' -> In x scc \/ In x stack.
Proof.
  induction stack as [|a stack IH]; intros ons scc b stack' ons' scc' b' H x Hx;
    simpl in H.
  - inversion H; subst. auto.
  - assert (Hins : In x (vs_insert a scc) -> In x scc \/ In x (a :: stack)).
    { intros Hi. apply vs_insert_In in Hi. destruct Hi as [->|Hi]; simpl; auto. }
    destruct (a =? cur).
    + inversion H; subst. auto.
    + apply IH with (x := x) in H; auto. destruct H as [H|H]; simpl; auto.
Qed.

(** Closing an SCC appends at most one block, made of states of the stack. *)
Lemma closeScc_blocks cur sl cl ts :
  blocks (closeScc dropNaiveSccs onlyBottomSccs cur sl cl ts) = blocks ts \/
  exists scc,
    blocks (closeScc dropNaiveSccs onlyBottomSccs cur sl cl ts)
      = blocks ts ++ [scc] /\
    forall x, In x scc -> In x (tarjanStack ts).
Proof.
  unfold closeScc.
  destruct (vec_get (lowlinks ts) cur =? vec_get (stateIndices ts) cur); auto.
  destruct (popScc onlyBottomSccs cur (tarjanStack ts) (tarjanStackStates ts)
                   cl [] true) as [[[stack' ons'] scc] b'] eqn:E.
  simpl.
  match goal with |- context [if ?k then _ else _] => destruct k end; auto.
  right. exists scc. split; auto.
  intros x Hx. eapply popScc_members in Hx; [|exact E].
  destruct Hx as [[]|Hx]. exact Hx.
Qed.

Lemma snoc_split (A : Type) (l1 l2 bl : list A) (b c : A) :
  l1 ++ b :: l2 = bl ++ [c] ->
  (l2 = [] /\ b = c /\ l1 = bl) \/
  exists l2', l2 = l2' ++ [c] /\ bl = l1 ++ b :: l2'.
Proof.
  intros H. destruct l2 as [|z l2t].
  - left. apply app_inj_tail in H. destruct H; auto.
  - right. destruct (@exists_last _ (z :: l2t)) as (l2' & c' & E); [discriminate|].
    rewrite E in *. exists l2'.
    change (l1 ++ b :: l2' ++ [c']) with (l1 ++ (b :: l2') ++ [c']) in H.
    rewrite app_assoc in H. apply app_inj_tail in H. destruct H as [H ->].
    auto.
Qed.

Lemma order_close ts low sl cl cur :
  GInv ts ->
  emittedInOrder model subsystem (blocks ts) ->
  emittedInOrder model subsystem
    (blocks (closeScc dropNaiveSccs onlyBottomSccs cur sl cl (setLowlinks ts low))).
Proof.
  intros G O.
  destruct (closeScc_blocks cur sl cl (setLowlinks ts low)) as [E|(scc & E & Hs)];
    rewrite E; simpl; auto.
  simpl in Hs.
  intros l1 B l2 x y Hsplit Hx Hedge Hy.
  symmetry in Hsplit. apply snoc_split in Hsplit.
  destruct Hsplit as [(-> & _ & _)|(l2' & -> & Hb)].
  - destruct Hy.
  - rewrite concat_app in Hy. simpl in Hy. rewrite app_nil_r in Hy.
    apply in_app_or in Hy. destruct Hy as [Hy|Hy].
    + apply (O l1 B l2' x y Hb Hx Hedge Hy).
    + assert (HB : In B (blocks ts)).
      { rewrite Hb. apply in_or_app. right. left. auto. }
      destruct (g_blocks_closed G B x HB Hx) as (Hv & HxT).
      destruct Hedge as (_ & HyS & Hsucc).
      destruct (g_closed G x y Hv HxT Hsucc HyS) as (_ & HyT).
      apply HyT, Hs, Hy.
Qed.

Lemma helperLoop_order :
  forall fuel hs ts',
  GInv (env hs) ->
  LInv (lowlinks (env hs)) (statesWithSelfloop hs) (recursionStack hs) (env hs) ->
  emittedInOrder model subsystem (blocks (env hs)) ->
  helperLoop model subsystem dropNaiveSccs onlyBottomSccs fuel hs = Some ts' ->
  emittedInOrder model subsystem (blocks ts').
Proof.
  induction fuel as [|fuel IH]; intros [ts fr sl cl] ts'; simpl; intros G L O H;
    [discriminate|].
  destruct fr as [|[cur it] rest]; [inversion H; subst; exact O|].
  destruct (traverseSuccessors subsystem dropNaiveSccs cur it (lowlinks ts) sl ts)
    as [[low' sl'] r] eqn:Et.
  pose proof (traverse_inv G L Et) as Ht.
  destruct r as [|c it'].
  - pose proof (@order_close ts low' sl' cl cur G O) as O2.
    destruct (Nat.eq_dec (vec_get low' cur) (vec_get (stateIndices ts) cur))
      as [Hroot|Hnr].
    + destruct (close_root cl G Ht Hroot)
        as (G2 & L2 & El2 & Ei2 & Ev2 & Ec2 & HcT2 & Hord).
      remember (closeScc dropNaiveSccs onlyBottomSccs cur sl' cl
                         (setLowlinks ts low')) as ts2 eqn:Ets2.
      destruct rest as [|[p itp] rest'].
      * inversion H; subst ts'. exact O2.
      * destruct (Segs_link (l_segs Ht)) as (w & next & ->).
        destruct (top_frame_facts G2 L2) as (HpT & _).
        assert (Hvc : bv_get (visitedStates ts2) cur = true).
        { rewrite Ev2. apply (top_frame_facts G Ht). }
        destruct (@backward_closed ts2 low' sl' cl p cur w next rest' G2 L2 El2 Hvc HcT2)
          as (G3 & L3 & Ev3).
        { rewrite Ei2. exact Hroot. }
        { rewrite Ei2. apply Hord, HpT. }
        simpl in G3, L3.
        match type of H with
        | helperLoop _ _ _ _ _ ?hs = _ => apply (IH hs ts'); simpl; auto
        end.
    + rewrite closeScc_nonroot in H, O2 by (simpl; exact Hnr).
      destruct rest as [|[p itp] rest'].
      * inversion H; subst ts'. exact O.
      * destruct (Segs_link (l_segs Ht)) as (w & next & ->).
        destruct (@backward_open ts low' sl' cl cur p w next rest' G Ht Hnr)
          as (G3 & L3 & Ev3).
        simpl in G3, L3.
        match type of H with
        | helperLoop _ _ _ _ _ ?hs = _ => apply (IH hs ts'); simpl; auto
        end.
  - destruct Ht as (L' & (w & next & ->) & Hcs & Hcv).
    destruct (@forward_inv ts low' sl' ((cur, (c, w) :: next) :: rest) c G L' Hcs Hcv)
      as (G1 & L1); [eauto|].
    match type of H with
    | helperLoop _ _ _ _ _ ?hs = _ => apply (IH hs ts'); simpl; auto
    end.
Qed.

Lemma helper_order fuel s ts ts' :
  TopInv ts -> inS s = true -> bv_get (visitedStates ts) s = false ->
  emittedInOrder model subsystem (blocks ts) ->
  performSccDecompositionHelper model subsystem dropNaiveSccs onlyBottomSccs
    fuel s ts = Some ts' ->
  emittedInOrder model subsystem (blocks ts').
Proof.
  intros (G & HT & Zl) Hs Hv O H.
  set (sl0 := if dropNaiveSccs then bv_new (length (lowlinks ts)) false else []).
  assert (L0 : LInv (lowlinks ts) sl0 [] ts).
  { constructor; auto.
    - intros Hd. unfold sl0. rewrite Hd, bv_new_length. auto.
    - intros Hd x _. unfold sl0. rewrite Hd. apply bv_get_new_false.
    - rewrite HT. constructor. }
  destruct (@forward_inv ts (lowlinks ts) sl0 [] s G L0 Hs Hv I) as (G1 & L1).
  unfold performSccDecompositionHelper in H. fold sl0 in H.
  match type of H with
  | helperLoop _ _ _ _ _ ?hs = _ => apply (@helperLoop_order fuel hs ts'); simpl; auto
  end.
Qed.

Lemma sccStartLoop_order fuel :
  forall states ts ts',
  TopInv ts -> (forall s, In s states -> inS s = true) ->
  emittedInOrder model subsystem (blocks ts) ->
  sccStartLoop model subsystem dropNaiveSccs onlyBottomSccs fuel states ts
    = Some ts' ->
  emittedInOrder model subsystem (blocks ts').
Proof.
  induction states as [|s rest IH]; intros ts ts' Ti Hin O H; simpl in H.
  - inversion H; subst. exact O.
  - destruct (bv_get (visitedStates ts) s) eqn:Hv; simpl in H.
    + apply (IH ts ts'); auto. intros; apply Hin; right; auto.
    + destruct (performSccDecompositionHelper model subsystem dropNaiveSccs
                  onlyBottomSccs fuel s ts) as [ts1|] eqn:E1; [|discriminate].
      assert (Hs : inS s = true) by (apply Hin; left; auto).
      pose proof (@helper_order fuel s ts ts1 Ti Hs Hv O E1) as O1.
      assert (Ti1 : TopInv ts1).
      { destruct (@helper_total (Nat.max fuel (2 * numberOfStates model)) s ts Ti Hs Hv)
          as (ts1' & E1' & Ti1 & _); [lia|].
        unfold performSccDecompositionHelper in E1, E1'.
        apply helperLoop_fuel with (fuel' := Nat.max fuel (2 * numberOfStates model))
          in E1; [|lia].
        congruence. }
      apply (IH ts1 ts'); auto. intros; apply Hin; right; auto.
Qed.

(** Whatever the options, the blocks are listed in reverse topological
    order. *)
Lemma performSccDecomposition_order fuel bs :
  performSccDecomposition fuel model subsystem dropNaiveSccs onlyBottomSccs
    = Some bs ->
  emittedInOrder model subsystem bs.
Proof.
  unfold performSccDecomposition. intros H.
  destruct (sccStartLoop model subsystem dropNaiveSccs onlyBottomSccs fuel
              (bv_indices subsystem) (initialTarjanState model)) as [ts'|] eqn:E;
    [|discriminate].
  inversion H; subst bs.
  refine (@sccStartLoop_order fuel (bv_indices subsystem)
            (initialTarjanState model) ts' initial_TopInv _ _ E).
  - intros s Hs. apply bv_indices_In. exact Hs.
  - intros l1 B l2 x y Hsplit. simpl in Hsplit. destruct l1; discriminate.
Qed.


End SccInvariant.

(* ================================================================= *)
(** ** The pruning of the MEC engine *)

Lemma filter_length_strict (A : Type) (f : A -> bool) (l : list A) (x : A) :
  In x l -> f x = false -> length (filter f l) < length l.
Proof.
  induction l as [|y l IH]; intros Hin Hf; [destruct Hin|].
  simpl. pose proof (filter_length_le f l) as Hle.
  destruct Hin as [->|Hin].
  - rewrite Hf. lia.
  - specialize (IH Hin Hf). destruct (f y); simpl; lia.
Qed.

Lemma bv_nonempty_get (bv : BitVector) :
  bv_empty bv = false -> exists x, bv_get bv x = true.
Proof.
  intros H. destruct (bv_indices bv) as [|x l] eqn:E.
  - apply bv_empty_indices in E. congruence.
  - exists x. apply bv_indices_In. rewrite E. left; auto.
Qed.

Section MecPrune.

Variable ValueType : Type.
Variable model : AbstractModel ValueType.

Lemma computeStatesToRemove_get scc stc x :
  bv_get (computeStatesToRemove model scc stc) x = true ->
  bv_get stc x = true /\ keepStateInMEC model scc x = false.
Proof.
  unfold computeStatesToRemove.
  assert (H : forall l acc,
    bv_get (fold_left (fun rem state =>
                         if keepStateInMEC model scc state then rem
                         else bv_set rem state true) l acc) x = true ->
    bv_get acc x = true \/ (In x l /\ keepStateInMEC model scc x = false)).
  { induction l as [|y l IH]; intros acc Hx; simpl in *; auto.
    apply IH in Hx. destruct Hx as [Hx|[Hx Hk]]; [|tauto].
    destruct (keepStateInMEC model scc y) eqn:Ek; auto.
    rewrite bv_get_set in Hx.
    destruct (Nat.eqb_spec y x) as [->|]; simpl in Hx; auto. }
  intros Hx. apply H in Hx. rewrite bv_get_new_false in Hx.
  destruct Hx as [Hx|[Hx Hk]]; [discriminate|].
  split; auto. apply bv_indices_In. exact Hx.
Qed.

Lemma statesToReconsider_length scc rem stc :
  length (statesToReconsider model scc rem stc) = length stc.
Proof.
  unfold statesToReconsider.
  assert (Hin : forall row acc,
    length (fold_left (fun chk' (entry : MatrixEntry ValueType) =>
                         if vs_contains scc (fst entry)
                         then bv_set chk' (fst entry) true else chk') row acc)
    = length acc).
  { induction row as [|e row IH]; intros acc; simpl; auto.
    rewrite IH. destruct (vs_contains scc (fst e)); auto. apply bv_set_length. }
  assert (H : forall l acc,
    length (fold_left (fun chk state =>
              fold_left (fun chk' (entry : MatrixEntry ValueType) =>
                           if vs_contains scc (fst entry)
                           then bv_set chk' (fst entry) true else chk')
                        (getRow (transitionMatrix model) state) chk) l acc)
    = length acc).
  { induction l as [|y l IH]; intros acc; simpl; auto. rewrite IH. apply Hin. }
  rewrite H. apply bv_clear_length.
Qed.

Lemma statesToReconsider_get scc rem stc x :
  bv_get (statesToReconsider model scc rem stc) x = true -> In x scc.
Proof.
  unfold statesToReconsider.
  assert (Hin : forall row acc,
    bv_get (fold_left (fun chk' (entry : MatrixEntry ValueType) =>
                         if vs_contains scc (fst entry)
                         then bv_set chk' (fst entry) true else chk') row acc) x
    = true -> bv_get acc x = true \/ In x scc).
  { induction row as [|e row IH]; intros acc Hx; simpl in *; auto.
    apply IH in Hx. destruct Hx as [Hx|Hx]; auto.
    destruct (vs_contains scc (fst e)) eqn:Ec; auto.
    rewrite bv_get_set in Hx.
    destruct (Nat.eqb_spec (fst e) x) as [<-|]; simpl in Hx; auto.
    right. apply vs_contains_In. exact Ec. }
  assert (H : forall l acc,
    bv_get (fold_left (fun chk state =>
              fold_left (fun chk' (entry : MatrixEntry ValueType) =>
                           if vs_contains scc (fst entry)
                           then bv_set chk' (fst entry) true else chk')
                        (getRow (transitionMatrix model) state) chk) l acc) x
    = true -> bv_get acc x = true \/ In x scc).
  { induction l as [|y l IH]; intros acc Hx; simpl in *; auto.
    apply IH in Hx. destruct Hx as [Hx|Hx]; auto. apply Hin in Hx. exact Hx. }
  intros Hx. apply H in Hx. rewrite bv_clear_get in Hx.
  destruct Hx; [discriminate|auto].
Qed.

Lemma statesToReconsider_none scc rem stc :
  bv_empty rem = true ->
  bv_empty (statesToReconsider model scc rem stc) = true.
Proof.
  intros H. apply bv_empty_indices in H. unfold statesToReconsider.
  rewrite H. simpl. apply bv_empty_get. apply bv_clear_get.
Qed.

(** What a run of the pruning loop on one SCC yields, when it returns. *)
Lemma pruneLoop_spec fuel :
  forall scc stc ch scc' stc' ch',
  pruneLoop model fuel scc stc ch = Some (scc', stc', ch') ->
  (forall x, bv_get stc x = true -> In x scc) ->
  incl scc' scc /\ length scc' <= length scc /\
  bv_empty stc' = true /\ length stc' = length stc /\
  (ch = true -> ch' = true) /\
  (ch' = true -> ch = true \/ length scc' < length scc).
Proof.
  induction fuel as [|fuel IH]; intros scc stc ch scc' stc' ch' H Hsub;
    [discriminate|].
  simpl in H. destruct (bv_empty stc) eqn:Ee.
  - inversion H; subst. repeat split; auto. apply incl_refl.
  - set (rem := computeStatesToRemove model scc stc) in *.
    set (scc1 := vs_erase scc (vs_fromRange (bv_indices rem))) in *.
    apply IH in H.
    + destruct H as (Hi & Hl & He & Hlen & Hc1 & Hc2).
      assert (Hi1 : incl scc1 scc).
      { intros x Hx. apply vs_erase_In in Hx. tauto. }
      assert (Hl1 : length scc1 <= length scc) by apply filter_length_le.
      rewrite statesToReconsider_length in Hlen.
      repeat split; auto.
      * eapply incl_tran; eauto.
      * lia.
      * intros ->. auto.
      * intros Hc. apply Hc2 in Hc. destruct Hc as [Hc|Hc]; [|right; lia].
        apply orb_true_iff in Hc. destruct Hc as [Hc|Hc]; auto.
        right. apply negb_true_iff, bv_nonempty_get in Hc.
        destruct Hc as (x & Hx).
        assert (Hlt : length scc1 < length scc).
        { apply filter_length_strict with (x := x).
          - apply Hsub. apply (computeStatesToRemove_get _ _ _ Hx).
          - apply negb_false_iff, vs_contains_In, vs_fromRange_In, bv_indices_In.
            exact Hx. }
        lia.
    + apply statesToReconsider_get.
Qed.

Lemma pruneLoop_total fuel :
  forall scc stc ch,
  (forall x, bv_get stc x = true -> In x scc) ->
  length scc + 2 <= fuel ->
  exists r, pruneLoop model fuel scc stc ch = Some r.
Proof.
  induction fuel as [|fuel IH]; intros scc stc ch Hsub Hf; [lia|].
  simpl. destruct (bv_empty stc) eqn:Ee; [eauto|].
  set (rem := computeStatesToRemove model scc stc).
  set (scc1 := vs_erase scc (vs_fromRange (bv_indices rem))).
  destruct (bv_empty rem) eqn:Er.
  - destruct fuel as [|fuel]; [lia|]. simpl.
    rewrite statesToReconsider_none by exact Er. eauto.
  - apply IH; [apply statesToReconsider_get|].
    apply bv_nonempty_get in Er. destruct Er as (x & Hx).
    assert (Hlt : length scc1 < length scc).
    { apply filter_length_strict with (x := x).
      - apply Hsub. apply (computeStatesToRemove_get _ _ _ Hx).
      - apply negb_false_iff, vs_contains_In, vs_fromRange_In, bv_indices_In.
        exact Hx. }
    lia.
Qed.

Lemma pruneLoop_fuel fuel :
  forall scc stc ch r,
  pruneLoop model fuel scc stc ch = Some r ->
  forall fuel', fuel <= fuel' -> pruneLoop model fuel' scc stc ch = Some r.
Proof.
  induction fuel as [|fuel IH]; intros scc stc ch r H fuel' Hle; [discriminate|].
  destruct fuel' as [|fuel']; [lia|]. simpl in *.
  destruct (bv_empty stc); auto. eapply IH; eauto. lia.
Qed.

End MecPrune.

(* ================================================================= *)
(** ** Termination of the MEC engine *)

Lemma blockWeight_sum (l : list StateBlock) :
  (forall B, In B l -> B <> []) ->
  list_sum (map blockWeight l) + length l = 2 * length (concat l).
Proof.
  induction l as [|B l IH]; intros Hne; simpl; auto.
  rewrite length_app. unfold blockWeight at 1.
  assert (H : length B <> 0).
  { intros E. apply (Hne B); [left; auto|]. destruct B; auto. discriminate. }
  specialize (IH (fun B0 H0 => Hne B0 (or_intror H0))). lia.
Qed.

Lemma newCandidates_weight (l : list StateBlock) :
  pendingWeight (newCandidates l) = list_sum (map blockWeight l).
Proof.
  unfold pendingWeight, newCandidates.
  induction l as [|B l IH]; [reflexivity|].
  destruct B as [|x B].
  - exact IH.
  - assert (E : candidateWeight (x :: B) = blockWeight (x :: B)).
    { unfold candidateWeight, blockWeight. cbn [length]. lia. }
    change (candidateWeight (x :: B)
            + list_sum (map candidateWeight
                          (filter (fun scc => negb (vs_empty scc)) l))
            = blockWeight (x :: B) + list_sum (map blockWeight l)).
    rewrite E. f_equal. exact IH.
Qed.

Lemma newCandidates_In (l : list StateBlock) (C : StateBlock) :
  In C (newCandidates l) <-> In C l /\ C <> [].
Proof.
  unfold newCandidates. rewrite filter_In. destruct C; simpl; intuition congruence.
Qed.

Section MecTermination.

Variable ValueType : Type.
Variable model : AbstractModel ValueType.

Local Notation N := (numberOfStates model).

Lemma pruneSccs_spec fuel :
  forall sccs stc ch sccs' stc' ch',
  pruneSccs model fuel sccs stc ch = Some (sccs', stc', ch') ->
  bv_empty stc = true ->
  bv_empty stc' = true /\
  (forall C, In C sccs' -> exists B, In B sccs /\ incl C B) /\
  list_sum (map blockWeight sccs') <= list_sum (map blockWeight sccs) /\
  (ch = true -> ch' = true) /\
  (ch' = true ->
   ch = true \/ list_sum (map blockWeight sccs') < list_sum (map blockWeight sccs)).
Proof.
  induction sccs as [|scc rest IH]; intros stc ch sccs' stc' ch' H He; simpl in H.
  - inversion H; subst. simpl. repeat split; auto. intros C [].
  - destruct (pruneLoop model fuel scc (bv_setRange stc scc) ch)
      as [[[scc1 stc1] ch1]|] eqn:E1; [|discriminate].
    destruct (pruneSccs model fuel rest stc1 ch1)
      as [[[rest1 stc2] ch2]|] eqn:E2; [|discriminate].
    inversion H; subst. clear H.
    apply pruneLoop_spec in E1.
    + destruct E1 as (Hi & Hl & He1 & _ & Hc1 & Hc2).
      destruct (IH _ _ _ _ _ E2 He1) as (He2 & Hin & Hs & Hd1 & Hd2).
      split; auto. split; [|split; [|split]].
      * intros C [<-|HC].
        -- exists scc. split; [left; auto|auto].
        -- destruct (Hin C HC) as (B & HB & Hi'). exists B. split; [right|]; auto.
      * simpl. unfold blockWeight at 1 3. lia.
      * auto.
      * intros Hc. simpl. unfold blockWeight at 1 3.
        destruct (Hd2 Hc) as [Hc'|Hlt]; [|right; lia].
        destruct (Hc2 Hc') as [Hc''|Hlt]; [left; auto|right; lia].
    + intros x Hx. apply bv_setRange_get in Hx.
      rewrite bv_empty_get in He. rewrite He in Hx.
      destruct Hx as [Hx|[Hx _]]; [discriminate|auto].
Qed.

Lemma pruneSccs_total fuel :
  forall sccs stc ch,
  (forall B, In B sccs -> length B + 2 <= fuel) ->
  bv_empty stc = true ->
  exists r, pruneSccs model fuel sccs stc ch = Some r.
Proof.
  induction sccs as [|scc rest IH]; intros stc ch Hf He; simpl; [eauto|].
  assert (Hsub : forall x, bv_get (bv_setRange stc scc) x = true -> In x scc).
  { intros x Hx. apply bv_setRange_get in Hx.
    rewrite bv_empty_get in He. rewrite He in Hx.
    destruct Hx as [Hx|[Hx _]]; [discriminate|auto]. }
  destruct (@pruneLoop_total _ model fuel scc (bv_setRange stc scc) ch Hsub)
    as ([[scc1 stc1] ch1] & E1); [apply Hf; left; auto|].
  rewrite E1.
  destruct (pruneLoop_spec _ _ _ _ _ E1 Hsub) as (_ & _ & He1 & _).
  destruct (IH stc1 ch1) as ([[rest1 stc2] ch2] & E2); auto.
  { intros B HB. apply Hf. right; auto. }
  rewrite E2. eauto.
Qed.

Lemma pruneSccs_fuel fuel fuel' :
  fuel <= fuel' ->
  forall sccs stc ch r,
  pruneSccs model fuel sccs stc ch = Some r ->
  pruneSccs model fuel' sccs stc ch = Some r.
Proof.
  intros Hle. induction sccs as [|scc rest IH]; intros stc ch r H; simpl in *; auto.
  destruct (pruneLoop model fuel scc (bv_setRange stc scc) ch)
    as [[[scc1 stc1] ch1]|] eqn:E1; [|discriminate].
  eapply pruneLoop_fuel in E1; [rewrite E1|exact Hle].
  destruct (pruneSccs model fuel rest stc1 ch1)
    as [[[rest1 stc2] ch2]|] eqn:E2; [|discriminate].
  rewrite (IH _ _ _ E2). exact H.
Qed.

(** The SCCs handed to the pruning are nonempty, pairwise disjoint sets of
    states of the candidate. *)
Lemma sccOfBlock_facts fuel K sccs :
  sccDecompositionOfBlock fuel model K true defaultOnlyBottomSccs = Some sccs ->
  (forall B, In B sccs ->
     B <> [] /\ NoDup B /\ forall x, In x B -> In x K /\ x < N) /\
  NoDup (concat sccs).
Proof.
  unfold sccDecompositionOfBlock. intros H.
  destruct (@performSccDecomposition_correct _ model (bv_fromRange N K) true
              defaultOnlyBottomSccs (bv_fromRange_length _ _)
              (Nat.max fuel (2 * N)))
    as (bs & E & Hscc & Hnd & _); [lia|].
  assert (Hbs : bs = sccs) by (eapply performSccDecomposition_unique; eauto).
  subst bs. split; auto.
  intros B HB. destruct (Hscc B HB) as (Hok & Hne & Hx).
  split; auto. split; [apply vs_ok_NoDup; auto|].
  intros x Hin. destruct (Hx x Hin) as (Hs & _).
  apply bv_fromRange_get in Hs. exact Hs.
Qed.

Lemma sccOfBlock_total fuel K :
  2 * N <= fuel ->
  exists sccs,
    sccDecompositionOfBlock fuel model K true defaultOnlyBottomSccs = Some sccs.
Proof.
  intros Hf. unfold sccDecompositionOfBlock.
  destruct (@performSccDecomposition_correct _ model (bv_fromRange N K) true
              defaultOnlyBottomSccs (bv_fromRange_length _ _) fuel Hf)
    as (bs & E & _).
  eauto.
Qed.

(** One round of the loop over the candidates: when the candidate changed,
    the candidates that replace it weigh less than it, and they consist of
    states of it. *)
Lemma refinementPass_spec fuel K stc ch sccs' stc' :
  refinementPass model fuel K stc = Some (ch, sccs', stc') ->
  bv_empty stc = true ->
  bv_empty stc' = true /\
  (forall C, In C sccs' -> incl C K) /\
  (ch = true -> pendingWeight (newCandidates sccs') < candidateWeight K).
Proof.
  unfold refinementPass. intros H He.
  destruct (sccDecompositionOfBlock fuel model K true defaultOnlyBottomSccs)
    as [sccs|] eqn:Es; [|discriminate].
  destruct (pruneSccs model fuel sccs stc (1 <? length sccs))
    as [[[sccs1 stc1] ch1]|] eqn:Ep; [|discriminate].
  inversion H; subst. clear H.
  destruct (sccOfBlock_facts _ _ Es) as (Hb & Hnd).
  destruct (pruneSccs_spec _ _ _ _ Ep He) as (He' & Hin & Hle & _ & Hch).
  split; auto. split.
  - intros C HC x Hx. destruct (Hin C HC) as (B & HB & Hi).
    apply (Hb B HB). apply Hi. exact Hx.
  - intros Hc. rewrite newCandidates_weight.
    pose proof (blockWeight_sum sccs (fun B HB => proj1 (Hb B HB))) as Hsum.
    assert (Hlen : length (concat sccs) <= length K).
    { apply NoDup_incl_length; auto. intros x Hx.
      apply in_concat in Hx. destruct Hx as (B & HB & Hx).
      apply (Hb B HB). exact Hx. }
    assert (Hzero : length sccs = 0 -> list_sum (map blockWeight sccs) = 0).
    { destruct sccs; [reflexivity|discriminate]. }
    unfold candidateWeight, blockWeight at 2.
    destruct (Hch Hc) as [Hk|Hlt].
    + apply Nat.ltb_lt in Hk. unfold StateBlock, VectorSet in *. lia.
    + unfold StateBlock, VectorSet in *. lia.
Qed.

Lemma refinementPass_total fuel K stc :
  2 * N + 2 <= fuel -> bv_empty stc = true ->
  exists r, refinementPass model fuel K stc = Some r.
Proof.
  intros Hf He. unfold refinementPass.
  destruct (@sccOfBlock_total fuel K) as (sccs & Es); [lia|].
  rewrite Es.
  destruct (sccOfBlock_facts _ _ Es) as (Hb & _).
  destruct (@pruneSccs_total fuel sccs stc (1 <? length sccs)) as ([[s1 c1] h1] & Ep);
    auto.
  - intros B HB. destruct (Hb B HB) as (_ & Hnd & Hx).
    assert (Hl : length B <= length (seq 0 N)).
    { apply NoDup_incl_length; auto. intros x Hin. apply in_seq.
      destruct (Hx x Hin). lia. }
    rewrite length_seq in Hl. lia.
  - rewrite Ep. eauto.
Qed.

Lemma refinementPass_fuel fuel fuel' K stc r :
  fuel <= fuel' ->
  refinementPass model fuel K stc = Some r ->
  refinementPass model fuel' K stc = Some r.
Proof.
  unfold refinementPass, sccDecompositionOfBlock. intros Hle H.
  destruct (performSccDecomposition fuel model (bv_fromRange N K) true
              defaultOnlyBottomSccs) as [sccs|] eqn:Es; [|discriminate].
  eapply performSccDecomposition_fuel in Es; [rewrite Es|exact Hle].
  destruct (pruneSccs model fuel sccs stc (1 <? length sccs))
    as [[[s1 c1] h1]|] eqn:Ep; [|discriminate].
  eapply pruneSccs_fuel in Ep; [rewrite Ep|exact Hle]. exact H.
Qed.

Lemma mecLoop_total fuel :
  forall passed pending stc,
  bv_empty stc = true ->
  2 * N + 2 + pendingWeight pending < fuel ->
  exists r, mecLoop model fuel passed pending stc = Some r.
Proof.
  induction fuel as [|fuel IH]; intros passed pending stc He Hf; [lia|].
  simpl. destruct pending as [|mec rest]; [eauto|].
  unfold pendingWeight in Hf. simpl in Hf. fold (pendingWeight rest) in Hf.
  destruct (@refinementPass_total fuel mec stc) as ([[ch sccs] stc'] & Ep); auto;
    [lia|].
  rewrite Ep.
  pose proof Ep as Ep'. eapply refinementPass_spec in Ep'; [|exact He].
  destruct Ep' as (He' & _ & Hw).
  destruct ch.
  - apply IH; auto.
    unfold pendingWeight in *. rewrite map_app, list_sum_app.
    specialize (Hw eq_refl). lia.
  - apply IH; auto.
    assert (1 <= candidateWeight mec) by (unfold candidateWeight; lia). lia.
Qed.

Lemma mecLoop_fuel fuel :
  forall passed pending stc r,
  mecLoop model fuel passed pending stc = Some r ->
  forall fuel', fuel <= fuel' -> mecLoop model fuel' passed pending stc = Some r.
Proof.
  induction fuel as [|fuel IH]; intros passed pending stc r H fuel' Hle;
    [discriminate|].
  destruct fuel' as [|fuel']; [lia|]. simpl in *.
  destruct pending as [|mec rest]; auto.
  destruct (refinementPass model fuel mec stc) as [[[ch sccs] stc']|] eqn:Ep;
    [|discriminate].
  eapply refinementPass_fuel in Ep; [rewrite Ep|lia].
  destruct ch; eapply IH; eauto; lia.
Qed.

End MecTermination.

(* ================================================================= *)
(** ** Disjoint blocks *)

Lemma NoDup_concat_disjoint (bs : list VectorSet) :
  NoDup (concat bs) -> disjointBlocks bs.
Proof.
  unfold disjointBlocks. induction bs as [|a bs IH]; intros H; simpl in *.
  - constructor.
  - constructor.
    + rewrite Forall_forall. intros b Hb x Hx Hxb.
      clear IH. induction a as [|y a IHa]; [destruct Hx|].
      simpl in H. inversion H as [|? ? Hy Hnd]; subst.
      destruct Hx as [->|Hx]; auto.
      apply Hy. apply in_or_app. right. apply in_concat. eauto.
    + apply IH. apply NoDup_app_remove_l in H. exact H.
Qed.

(* ================================================================= *)
(** ** The SCC engine does not read the weights *)

Section Weights.

Variables V W : Type.
Variable f : V -> W.
Variable m : AbstractModel V.
Variable subsystem : BitVector.
Variables dropNaiveSccs onlyBottomSccs : bool.

Local Notation mapEntries := (mapEntries f).
Local Notation mapWeights := (mapWeights f).
Local Notation mapTraversal := (mapTraversal f).
Local Notation mapHelper := (mapHelper f).

Lemma getRows_mapWeights s :
  getRows (mapWeights m) s = mapEntries (getRows m s).
Proof.
  unfold getRows, choicesOf. simpl.
  induction (seq (vec_get (nondeterministicChoiceIndices m) s)
                 (vec_get (nondeterministicChoiceIndices m) (s + 1)
                  - vec_get (nondeterministicChoiceIndices m) s))
    as [|c l IH]; simpl; auto.
  rewrite IH. unfold mapEntries at 3. rewrite map_app. f_equal.
  unfold getRow.
  change (@nil (MatrixEntry W)) with (mapEntries []).
  rewrite map_nth. reflexivity.
Qed.

Lemma traverseSuccessors_mapWeights cur it :
  forall low sl ts,
  traverseSuccessors subsystem dropNaiveSccs cur (mapEntries it) low sl ts =
  let '(low', sl', r) :=
    traverseSuccessors subsystem dropNaiveSccs cur it low sl ts in
  (low', sl', mapTraversal r).
Proof.
  induction it as [|[t w] next IH]; intros low sl ts; simpl; auto.
  destruct (bv_get subsystem t); auto.
  destruct (bv_get (visitedStates ts) t); simpl; auto.
  destruct (bv_get (tarjanStackStates ts) t); auto.
Qed.

Lemma helperLoop_mapWeights fuel :
  forall hs,
  helperLoop (mapWeights m) subsystem dropNaiveSccs onlyBottomSccs fuel
             (mapHelper hs)
  = helperLoop m subsystem dropNaiveSccs onlyBottomSccs fuel hs.
Proof.
  induction fuel as [|fuel IH]; intros [ts fr sl cl]; simpl; auto.
  destruct fr as [|[cur it] rest]; simpl; auto.
  rewrite traverseSuccessors_mapWeights.
  destruct (traverseSuccessors subsystem dropNaiveSccs cur it (lowlinks ts) sl ts)
    as [[low' sl'] [|c it']]; simpl.
  - destruct rest as [|[p [|[c w] next]] rest']; simpl; auto.
    apply (IH (mkHelper _ ((p, next) :: rest') sl' _)).
  - rewrite getRows_mapWeights.
    apply (IH (mkHelper _ ((c, getRows m c) :: (cur, it') :: rest) sl' cl)).
Qed.

Lemma performSccDecomposition_mapWeights fuel :
  performSccDecomposition fuel (mapWeights m) subsystem dropNaiveSccs onlyBottomSccs
  = performSccDecomposition fuel m subsystem dropNaiveSccs onlyBottomSccs.
Proof.
  unfold performSccDecomposition.
  change (initialTarjanState (mapWeights m)) with (initialTarjanState m).
  generalize (initialTarjanState m).
  induction (bv_indices subsystem) as [|s l IH]; intros ts; simpl; auto.
  destruct (negb (bv_get (visitedStates ts) s)); auto.
  unfold performSccDecompositionHelper.
  rewrite getRows_mapWeights.
  match goal with
  | |- context [helperLoop m _ _ _ _ ?hs] =>
      rewrite <- (helperLoop_mapWeights fuel hs)
  end.
  unfold mapHelper. simpl.
  match goal with
  | |- context [match ?h with _ => _ end] => destruct h; auto
  end.
Qed.

End Weights.

(* ================================================================= *)
(** ** Properties of the SCC engine *)

(** C2.  Run without options on a subsystem over the states of the model,
    the SCC engine returns; its blocks are exactly the strongly connected
    components of the graph restricted to the subsystem (each block is one,
    and the component of every state of the subsystem is a block), they are
    pairwise disjoint and their union is the subsystem.  The result is the
    same for every amount of fuel that suffices. *)
Theorem scc_blocks_are_the_components (ValueType : Type)
    (model : AbstractModel ValueType) (subsystem : BitVector) :
  length subsystem = numberOfStates model ->
  exists fuel blocks,
    performSccDecomposition fuel model subsystem false false = Some blocks /\
    (forall fuel' blocks',
       performSccDecomposition fuel' model subsystem false false = Some blocks' ->
       blocks' = blocks) /\
    (forall B, In B blocks -> isScc model subsystem B) /\
    (forall x, bv_get subsystem x = true ->
       exists B, In B blocks /\
                 forall y, In y B <-> mutuallyReachable model subsystem x y) /\
    disjointBlocks blocks /\
    (forall x, In x (concat blocks) <-> bv_get subsystem x = true).
Proof.
  intros Hlen.
  destruct (@performSccDecomposition_correct _ model subsystem false false Hlen
              (2 * numberOfStates model) (le_n _))
    as (bs & E & Hscc & Hnd & Hcov & _).
  exists (2 * numberOfStates model), bs.
  split; [exact E|]. split; [|split; [exact Hscc|split; [|split]]].
  - intros fuel' bs' E'. eapply performSccDecomposition_unique; eauto.
  - intros x Hx. assert (Hin : In x (concat bs)) by (apply Hcov; auto).
    apply in_concat in Hin. destruct Hin as (B & HB & HxB).
    exists B. split; auto. apply (Hscc B HB). exact HxB.
  - apply NoDup_concat_disjoint, Hnd.
  - intros x. split.
    + intros Hin. apply in_concat in Hin. destruct Hin as (B & HB & HxB).
      apply (Hscc B HB). exact HxB.
    + intros Hx. apply Hcov; auto.
Qed.

(** The statement of C2 at the line graph with all three states. *)
Lemma scc_blocks_are_the_components_witness :
  length (bv_new 3 true) = numberOfStates lineGraph /\
  exists fuel blocks,
    performSccDecomposition fuel lineGraph (bv_new 3 true) false false
      = Some blocks /\
    (forall fuel' blocks',
       performSccDecomposition fuel' lineGraph (bv_new 3 true) false false
         = Some blocks' -> blocks' = blocks) /\
    (forall B, In B blocks -> isScc lineGraph (bv_new 3 true) B) /\
    (forall x, bv_get (bv_new 3 true) x = true ->
       exists B, In B blocks /\
                 forall y, In y B <->
                           mutuallyReachable lineGraph (bv_new 3 true) x y) /\
    disjointBlocks blocks /\
    (forall x, In x (concat blocks) <-> bv_get (bv_new 3 true) x = true).
Proof.
  split; [reflexivity|].
  apply (@scc_blocks_are_the_components Q lineGraph (bv_new 3 true)).
  reflexivity.
Defined.

(** C5.  With [onlyBottomSccs] set, the engine keeps the block {1} of the
    model in which state 1 moves to the absorbing state 0, although the edge
    from 1 to 0 leaves the block: the SCC of 0 was closed by the earlier
    call of the helper, and an edge into a closed SCC marks nothing. *)
Theorem bottom_only_keeps_non_bottom_scc :
  wellFormedModel sinkAndFeeder = true /\
  performSccDecomposition 100 sinkAndFeeder (bv_new 2 true) false true
    = Some [[0]; [1]] /\
  edge sinkAndFeeder (bv_new 2 true) 1 0 /\
  ~ In 0 [1].
Proof.
  split; [reflexivity|]. split; [reflexivity|]. split.
  - split; [reflexivity|]. split; [reflexivity|]. simpl. auto.
  - intros [H|[]]. discriminate.
Qed.

(** C8, as stated, fails: the entry 0 -> 1 of weight 0 is an edge of the graph
    the engine traverses, which puts the states 0 and 1 into one SCC. *)
Lemma zero_weight_entry_is_an_edge :
  wellFormedModel zeroWeightEntry = true /\
  In 1 (successors zeroWeightEntry 0) /\
  ~ (exists c w, In c (choicesOf zeroWeightEntry 0) /\
                 In (1, w) (getRow (transitionMatrix zeroWeightEntry) c) /\
                 (0 < w)%Q) /\
  performSccDecomposition 100 zeroWeightEntry (bv_new 2 true) false false
    = Some [[0; 1]].
Proof.
  split; [reflexivity|]. split; [simpl; auto|]. split; [|reflexivity].
  intros (c & w & Hc & Hw & Hpos).
  simpl in Hc. destruct Hc as [<-|[]].
  simpl in Hw. destruct Hw as [Hw|[Hw|[]]].
  - discriminate.
  - inversion Hw; subst. apply (Qlt_irrefl 0). exact Hpos.
Qed.

(** C8, amended.  A state [s] has an edge to [t] in the graph the engine
    traverses iff some choice row of [s] stores an entry with successor [t],
    whatever its weight; the graph restricted to a subsystem keeps the edges
    between states of the subsystem; and the result of the engine is the
    same when the weights of the model are replaced by any others. *)
Theorem edge_iff_stored_entry (ValueType : Type)
    (model : AbstractModel ValueType) (subsystem : BitVector) (s t : nat) :
  (In t (successors model s) <->
   exists c w, In c (choicesOf model s) /\
               In (t, w) (getRow (transitionMatrix model) c)) /\
  (edge model subsystem s t <->
   bv_get subsystem s = true /\ bv_get subsystem t = true /\
   exists c w, In c (choicesOf model s) /\
               In (t, w) (getRow (transitionMatrix model) c)) /\
  (forall (W : Type) (f : ValueType -> W) fuel dropNaiveSccs onlyBottomSccs,
     performSccDecomposition fuel (mapWeights f model) subsystem
                             dropNaiveSccs onlyBottomSccs
     = performSccDecomposition fuel model subsystem
                               dropNaiveSccs onlyBottomSccs).
Proof.
  assert (H : In t (successors model s) <->
              exists c w, In c (choicesOf model s) /\
                          In (t, w) (getRow (transitionMatrix model) c)).
  { unfold successors, getRows. rewrite in_map_iff. split.
    - intros ([t' w] & Et & Hin). simpl in Et. subst t'.
      apply in_flat_map in Hin. destruct Hin as (c & Hc & Hin). eauto.
    - intros (c & w & Hc & Hin). exists (t, w). split; auto.
      apply in_flat_map. eauto. }
  split; [exact H|]. split.
  - unfold edge. rewrite H. tauto.
  - intros. apply performSccDecomposition_mapWeights.
Qed.

(* ================================================================= *)
(** ** Properties of the MEC engine *)

Lemma rt_closed (A : Type) (Rel : A -> A -> Prop) (C : A -> Prop) :
  (forall x y, C x -> Rel x y -> C y) ->
  forall x y, clos_refl_trans A Rel x y -> C x -> C y.
Proof.
  intros HC x y H. induction H; eauto.
Qed.

Lemma candidateWeight_le_pending (C : StateBlock) (l : list StateBlock) :
  In C l -> candidateWeight C <= pendingWeight l.
Proof.
  unfold pendingWeight. induction l as [|B l IH]; intros H; [destruct H|].
  destruct H as [->|H]; simpl; [lia|].
  specialize (IH H). lia.
Qed.

(** C4, as stated, fails: for the line graph and the candidate {0,1,2} the
    refinement pass runs the SCC engine with [dropNaiveSccs] set, and the SCC
    list it prunes is [{2}]: the states 0 and 1 of the candidate are in none
    of its members, while the engine without options returns {2}, {1}, {0}. *)
Lemma refinement_scc_list_omits_trivial_sccs :
  wellFormedModel lineGraph = true /\
  sccDecompositionOfBlock 100 lineGraph [0; 1; 2] true defaultOnlyBottomSccs
    = Some [[2]] /\
  refinementPass lineGraph 100 [0; 1; 2] (bv_new 3 false)
    = Some (false, [[2]], bv_new 3 false) /\
  sccDecompositionOfBlock 100 lineGraph [0; 1; 2] false false
    = Some [[2]; [1]; [0]] /\
  In 0 [0; 1; 2] /\ ~ In 0 (concat [[2]]).
Proof.
  repeat (split; [reflexivity|]). split; [simpl; auto|].
  simpl. intros [H|[]]. discriminate.
Qed.

(** C4, amended.  A refinement pass that returns has obtained its SCC list by
    running the SCC engine on the candidate [K] with [dropNaiveSccs] set and
    [onlyBottomSccs] unset.  The members of the list are strongly connected
    components of the graph restricted to [K], pairwise disjoint, and the
    list covers exactly the states of [K] that lie in a non-trivial SCC (one
    with a self-loop or with more than one state). *)
Theorem refinement_sccs_are_the_nontrivial_components (ValueType : Type)
    (model : AbstractModel ValueType) (fuel : nat) (K : StateBlock)
    (stc : BitVector) (r : bool * list StateBlock * BitVector) :
  refinementPass model fuel K stc = Some r ->
  exists sccs,
    performSccDecomposition fuel model (bv_fromRange (numberOfStates model) K)
                            true false = Some sccs /\
    pruneSccs model fuel sccs stc (1 <? length sccs)
      = Some (snd (fst r), snd r, fst (fst r)) /\
    (forall B, In B sccs ->
               isScc model (bv_fromRange (numberOfStates model) K) B) /\
    disjointBlocks sccs /\
    (forall s, In s (concat sccs) <->
               In s K /\ s < numberOfStates model /\
               nontrivial model (bv_fromRange (numberOfStates model) K) s).
Proof.
  unfold refinementPass, sccDecompositionOfBlock, defaultOnlyBottomSccs.
  intros H.
  destruct (performSccDecomposition fuel model
              (bv_fromRange (numberOfStates model) K) true false)
    as [sccs|] eqn:Es; [|discriminate].
  destruct (pruneSccs model fuel sccs stc (1 <? length sccs))
    as [[[sccs1 stc1] ch1]|] eqn:Ep; [|discriminate].
  inversion H; subst r. clear H. simpl.
  destruct (@performSccDecomposition_correct _ model
              (bv_fromRange (numberOfStates model) K) true false
              (bv_fromRange_length _ _)
              (Nat.max fuel (2 * numberOfStates model)))
    as (bs & E & Hscc & Hnd & Hcov & Hkept); [lia|].
  assert (Hbs : bs = sccs) by (eapply performSccDecomposition_unique; eauto).
  subst bs. exists sccs.
  split; [reflexivity|]. split; [exact Ep|]. split; [exact Hscc|].
  split; [apply NoDup_concat_disjoint, Hnd|].
  intros s. split.
  - intros Hin. pose proof (Hkept eq_refl s Hin) as Hnt.
    apply in_concat in Hin. destruct Hin as (B & HB & Hs).
    destruct (Hscc B HB) as (_ & _ & Hx). destruct (Hx s Hs) as (Hsub & _).
    apply bv_fromRange_get in Hsub. tauto.
  - intros (HK & Hlt & Hnt). apply Hcov; auto.
    apply bv_fromRange_get. auto.
Qed.

(** The amended statement of C4 at the first pass on [forcedExit]. *)
Lemma refinement_sccs_are_the_nontrivial_components_witness :
  refinementPass forcedExit 100 [0; 1; 2] (bv_new 3 false)
    = Some (true, [[2]; [0; 1]], bv_new 3 false) /\
  exists sccs,
    performSccDecomposition 100 forcedExit (bv_fromRange 3 [0; 1; 2])
                            true false = Some sccs /\
    pruneSccs forcedExit 100 sccs (bv_new 3 false) (1 <? length sccs)
      = Some ([[2]; [0; 1]], bv_new 3 false, true) /\
    (forall B, In B sccs -> isScc forcedExit (bv_fromRange 3 [0; 1; 2]) B) /\
    disjointBlocks sccs /\
    (forall s, In s (concat sccs) <->
               In s [0; 1; 2] /\ s < 3 /\
               nontrivial forcedExit (bv_fromRange 3 [0; 1; 2]) s).
Proof.
  split; [reflexivity|].
  apply (@refinement_sccs_are_the_nontrivial_components Q forcedExit 100
           [0; 1; 2] (bv_new 3 false) (true, [[2]; [0; 1]], bv_new 3 false)).
  reflexivity.
Defined.

(** By construction, the choices retained at a state of an output block
    have all their successors in the block. *)
Lemma retained_choices_stay_inside (ValueType : Type)
    (model : AbstractModel ValueType) (mecStateSet : StateBlock) (s c t : nat)
    (choices : list nat) :
  In (s, choices) (buildMec model mecStateSet) -> In c choices ->
  In t (map fst (getRow (transitionMatrix model) c)) ->
  In t (mecStates (buildMec model mecStateSet)).
Proof.
  unfold buildMec, mecStates. rewrite map_map. simpl. rewrite map_id.
  intros Hin Hc Ht. apply in_map_iff in Hin. destruct Hin as (s' & E & _).
  inversion E; subst. unfold containedChoices in Hc.
  apply filter_In in Hc. destruct Hc as (_ & Hc).
  unfold choiceContained in Hc. rewrite forallb_forall in Hc.
  apply in_map_iff in Ht. destruct Ht as (entry & <- & Hentry).
  apply vs_contains_In. apply Hc. exact Hentry.
Qed.

(** C1.  On the line graph 0 -> 1 -> 2 with a self-loop on 2, the engine
    returns the single block {0,1,2}, in which no path of retained choices
    leads from 2 back to 0; on the leaky cycle it returns the block {0,1}
    in which state 1 retains no choice.  Neither block is an end
    component. *)
Theorem mec_blocks_need_not_be_end_components :
  wellFormedModel lineGraph = true /\
  performMaximalEndComponentDecomposition lineGraph 100 (bv_new 3 true)
    = Some [[(0, [0]); (1, [1]); (2, [2])]] /\
  ~ clos_refl_trans nat
      (retainedStep lineGraph [(0, [0]); (1, [1]); (2, [2])]) 2 0 /\
  ~ isEndComponent lineGraph [(0, [0]); (1, [1]); (2, [2])] /\
  wellFormedModel leakyCycle = true /\
  performMaximalEndComponentDecomposition leakyCycle 100 (bv_new 4 true)
    = Some [[(3, [3])]; [(0, [0]); (1, [])]] /\
  retainedChoices [(0, [0]); (1, [])] 1 = [] /\
  ~ isEndComponent leakyCycle [(0, [0]); (1, [])].
Proof.
  assert (Hpath : ~ clos_refl_trans nat
                    (retainedStep lineGraph [(0, [0]); (1, [1]); (2, [2])]) 2 0).
  { intros H.
    assert (E : 0 = 2); [|discriminate].
    refine (rt_closed (fun x => x = 2) _ H eq_refl).
    intros x y -> (_ & _ & c & Hc & Hy).
    simpl in Hc. destruct Hc as [<-|[]].
    simpl in Hy. destruct Hy as [<-|[]]. reflexivity. }
  split; [reflexivity|]. split; [reflexivity|]. split; [exact Hpath|].
  split.
  { intros (_ & _ & _ & Hconn). apply Hpath. apply Hconn; simpl; auto. }
  split; [reflexivity|]. split; [reflexivity|]. split; [reflexivity|].
  intros (_ & Hch & _). apply (Hch 1); simpl; auto.
Qed.

(** C3.  In the leaky cycle the pruning of the SCC {0,1,2} removes state 2;
    the states reconsidered next are {0}, the successor of 2 that is left in
    the SCC, read from row 2 of the forward matrix, whereas the only
    predecessor of 2 inside the SCC is state 1.  State 1 is therefore never
    checked again, the pruning stops with {0,1}, and the engine returns the
    block {0,1} in which state 1 retains no choice. *)
Theorem prune_reconsiders_successors_of_removed_states :
  wellFormedModel leakyCycle = true /\
  sccDecompositionOfBlock 100 leakyCycle [0; 1; 2; 3] true defaultOnlyBottomSccs
    = Some [[3]; [0; 1; 2]] /\
  computeStatesToRemove leakyCycle [0; 1; 2] [true; true; true; false]
    = [false; false; true; false] /\
  vs_erase [0; 1; 2] (vs_fromRange (bv_indices [false; false; true; false]))
    = [0; 1] /\
  bv_indices (statesToReconsider leakyCycle [0; 1] [false; false; true; false]
                                 [true; true; true; false]) = [0] /\
  predecessorsInside leakyCycle [0; 1] [2] = [1] /\
  pruneLoop leakyCycle 100 [0; 1; 2] [true; true; true; false] false
    = Some ([0; 1], bv_new 4 false, true) /\
  performMaximalEndComponentDecomposition leakyCycle 100 (bv_new 4 true)
    = Some [[(3, [3])]; [(0, [0]); (1, [])]].
Proof.
  repeat (split; [reflexivity|]). reflexivity.
Qed.

(** C6.  For an empty subsystem the engine returns a decomposition with one
    block, the empty one: the initial candidate is never marked as changed
    and, unlike the candidates appended later, is not tested for
    emptiness. *)
Theorem mec_of_empty_subsystem_has_one_block :
  wellFormedModel lineGraph = true /\
  bv_empty (bv_new 3 false) = true /\
  performMaximalEndComponentDecomposition lineGraph 100 (bv_new 3 false)
    = Some [[]] /\
  length [@nil (nat * list nat)] = 1.
Proof.
  repeat (split; [reflexivity|]). reflexivity.
Qed.

(** C7.  State 0 of the line graph has no self-choice, and for the
    subsystem {0} the engine returns the singleton block {0}, with no
    retained choice: the SCC engine, run with [dropNaiveSccs] set, returns
    no SCC at all for the candidate {0}, so the pruning never sees state 0
    and the candidate is not marked as changed. *)
Theorem mec_keeps_singleton_without_self_choice :
  wellFormedModel lineGraph = true /\
  (forall c, In c (choicesOf lineGraph 0) -> choiceContained lineGraph [0] c = false) /\
  sccDecompositionOfBlock 100 lineGraph [0] true defaultOnlyBottomSccs = Some [] /\
  refinementPass lineGraph 100 [0] (bv_new 3 false)
    = Some (false, [], bv_new 3 false) /\
  performMaximalEndComponentDecomposition lineGraph 100 [true; false; false]
    = Some [[(0, [])]].
Proof.
  split; [reflexivity|]. split.
  - intros c [<-|[]]. reflexivity.
  - repeat (split; [reflexivity|]). reflexivity.
Qed.

(* ================================================================= *)
(** ** Further properties of the SCC engine *)

Lemma bv_get_new_true (n x : nat) : bv_get (bv_new n true) x = true <-> x < n.
Proof.
  unfold bv_get, bv_new. split.
  - intros H. destruct (Nat.lt_ge_cases x n) as [|Hge]; auto.
    rewrite nth_overflow in H by (rewrite repeat_length; lia). discriminate.
  - intros H. destruct (nth_in_or_default x (repeat true n) false) as [Hin|Hd].
    + apply repeat_spec in Hin. exact Hin.
    + exfalso. revert Hd. rewrite nth_indep with (d' := true)
        by (rewrite repeat_length; lia).
      rewrite nth_repeat. discriminate.
Qed.

(** Two ascending vectors with the same members are equal. *)
Lemma vs_ok_ext (a b : VectorSet) :
  vs_ok a -> vs_ok b -> (forall x, In x a <-> In x b) -> a = b.
Proof.
  unfold vs_ok. revert b. induction a as [|x a IH]; intros b Ha Hb Hab.
  - destruct b as [|y b]; auto. exfalso. apply (Hab y). left; auto.
  - destruct b as [|y b]; [exfalso; apply (Hab x); left; auto|].
    inversion Ha as [|? ? Sa Fa]; subst. inversion Hb as [|? ? Sb Fb]; subst.
    rewrite Forall_forall in Fa, Fb.
    assert (Exy : x = y).
    { destruct (proj1 (Hab x) (or_introl eq_refl)) as [E|Hin]; auto.
      destruct (proj2 (Hab y) (or_introl eq_refl)) as [E|Hin']; auto.
      specialize (Fb x Hin). specialize (Fa y Hin'). lia. }
    subst y. f_equal. apply IH; auto.
    intros z. split; intros Hz.
    + destruct (proj1 (Hab z) (or_intror Hz)) as [E|Hin]; auto.
      subst z. specialize (Fa x Hz). lia.
    + destruct (proj2 (Hab z) (or_intror Hz)) as [E|Hin]; auto.
      subst z. specialize (Fb x Hz). lia.
Qed.

(** X1.  Whatever the options, the SCC engine returns within [2 * N]
    rounds of its main loop per start state; every block of its result is a
    strongly connected component of the graph restricted to the subsystem,
    and the blocks are pairwise disjoint. *)
Theorem scc_engine_sound_for_all_options (ValueType : Type)
    (model : AbstractModel ValueType) (subsystem : BitVector)
    (dropNaiveSccs onlyBottomSccs : bool) (fuel : nat) :
  length subsystem = numberOfStates model ->
  2 * numberOfStates model <= fuel ->
  exists blocks,
    performSccDecomposition fuel model subsystem dropNaiveSccs onlyBottomSccs
      = Some blocks /\
    (forall B, In B blocks -> isScc model subsystem B) /\
    disjointBlocks blocks /\
    (forall x, In x (concat blocks) -> bv_get subsystem x = true).
Proof.
  intros Hlen Hf.
  destruct (@performSccDecomposition_correct _ model subsystem dropNaiveSccs
              onlyBottomSccs Hlen fuel Hf) as (bs & E & Hscc & Hnd & _).
  exists bs. split; [exact E|]. split; [exact Hscc|].
  split; [apply NoDup_concat_disjoint, Hnd|].
  intros x Hin. apply in_concat in Hin. destruct Hin as (B & HB & HxB).
  apply (Hscc B HB). exact HxB.
Qed.

(** The statement of X1 at the bottom-only run on [forcedExit]. *)
Lemma scc_engine_sound_for_all_options_witness :
  exists blocks,
    performSccDecomposition 6 forcedExit (bv_new 3 true) false true
      = Some blocks /\
    (forall B, In B blocks -> isScc forcedExit (bv_new 3 true) B) /\
    disjointBlocks blocks /\
    (forall x, In x (concat blocks) -> bv_get (bv_new 3 true) x = true).
Proof.
  apply (@scc_engine_sound_for_all_options Q forcedExit (bv_new 3 true)
           false true 6).
  - reflexivity.
  - simpl. lia.
Defined.

(** X2.  With [dropNaiveSccs] set (and [onlyBottomSccs] unset) the blocks
    cover exactly the states of the subsystem that lie in a non-trivial SCC;
    in particular a singleton block has a self-loop. *)
Theorem drop_naive_omits_exactly_the_trivial_sccs (ValueType : Type)
    (model : AbstractModel ValueType) (subsystem : BitVector)
    (fuel : nat) (blocks : list VectorSet) :
  length subsystem = numberOfStates model ->
  performSccDecomposition fuel model subsystem true false = Some blocks ->
  (forall x, In x (concat blocks) <->
             bv_get subsystem x = true /\ nontrivial model subsystem x) /\
  (forall s, In [s] blocks -> In s (successors model s)).
Proof.
  intros Hlen H.
  destruct (@performSccDecomposition_correct _ model subsystem true false Hlen
              (Nat.max fuel (2 * numberOfStates model)))
    as (bs & E & Hscc & Hnd & Hcov & Hkept); [lia|].
  assert (Hbs : bs = blocks) by (eapply performSccDecomposition_unique; eauto).
  subst bs.
  assert (Hsub : forall x, In x (concat blocks) -> bv_get subsystem x = true).
  { intros x Hin. apply in_concat in Hin. destruct Hin as (B & HB & HxB).
    apply (Hscc B HB). exact HxB. }
  split.
  - intros x. split.
    + intros Hin. split; auto.
    + intros (Hx & Hnt). apply Hcov; auto.
  - intros s Hs.
    assert (Hin : In s (concat blocks)).
    { apply in_concat. exists [s]. split; auto. left; auto. }
    destruct (Hkept eq_refl s Hin) as [Hself|(y & Hne & Hy)]; auto.
    exfalso. apply Hne.
    destruct (Hscc [s] Hs) as (_ & _ & Hmem).
    destruct (Hmem s (or_introl eq_refl)) as (_ & Hiff).
    apply Hiff in Hy. destruct Hy as [Hy|[]]. auto.
Qed.

(** The statement of X2 at the line graph, where only {2} is kept. *)
Lemma drop_naive_omits_exactly_the_trivial_sccs_witness :
  (forall x, In x (concat [[2]]) <->
             bv_get (bv_new 3 true) x = true /\
             nontrivial lineGraph (bv_new 3 true) x) /\
  (forall s, In [s] [[2]] -> In s (successors lineGraph s)).
Proof.
  apply (@drop_naive_omits_exactly_the_trivial_sccs Q lineGraph (bv_new 3 true)
           100 [[2]]); reflexivity.
Defined.

(** X3.  The options only filter: every block returned by a run with
    options is a block of the run without options. *)
Theorem blocks_with_options_are_blocks_without (ValueType : Type)
    (model : AbstractModel ValueType) (subsystem : BitVector)
    (dropNaiveSccs onlyBottomSccs : bool) (fuel fuel0 : nat)
    (blocks blocks0 : list VectorSet) :
  length subsystem = numberOfStates model ->
  performSccDecomposition fuel model subsystem dropNaiveSccs onlyBottomSccs
    = Some blocks ->
  performSccDecomposition fuel0 model subsystem false false = Some blocks0 ->
  forall B, In B blocks -> In B blocks0.
Proof.
  intros Hlen H H0 B HB.
  destruct (@performSccDecomposition_correct _ model subsystem dropNaiveSccs
              onlyBottomSccs Hlen (Nat.max fuel (2 * numberOfStates model)))
    as (bs & E & Hscc & _); [lia|].
  assert (Hbs : bs = blocks) by (eapply performSccDecomposition_unique; eauto).
  subst bs.
  destruct (@performSccDecomposition_correct _ model subsystem false false Hlen
              (Nat.max fuel0 (2 * numberOfStates model)))
    as (bs0 & E0 & Hscc0 & _ & Hcov0 & _); [lia|].
  assert (Hbs0 : bs0 = blocks0) by (eapply performSccDecomposition_unique; eauto).
  subst bs0.
  destruct (Hscc B HB) as (Hok & Hne & Hmem).
  destruct B as [|x B']; [congruence|].
  destruct (Hmem x (or_introl eq_refl)) as (Hx & Hiff).
  assert (Hin : In x (concat blocks0)) by (apply Hcov0; auto).
  apply in_concat in Hin. destruct Hin as (B0 & HB0 & HxB0).
  destruct (Hscc0 B0 HB0) as (Hok0 & _ & Hmem0).
  destruct (Hmem0 x HxB0) as (_ & Hiff0).
  assert (EB : x :: B' = B0).
  { apply vs_ok_ext; auto. intros z. rewrite Hiff, Hiff0. tauto. }
  rewrite EB. exact HB0.
Qed.

(** The statement of X3 at the run on the line graph that drops trivial
    SCCs. *)
Lemma blocks_with_options_are_blocks_without_witness :
  In [2] [[2]; [1]; [0]].
Proof.
  apply (@blocks_with_options_are_blocks_without Q lineGraph (bv_new 3 true)
           true false 100 100 [[2]] [[2]; [1]; [0]]).
  - reflexivity.
  - reflexivity.
  - reflexivity.
  - simpl. auto.
Defined.

(** X4.  Whatever the options, the blocks are listed in reverse topological
    order: an edge of the restricted graph from a state of the block at
    position [i] to a state of the block at position [j] has [j <= i]. *)
Theorem scc_blocks_in_reverse_topological_order (ValueType : Type)
    (model : AbstractModel ValueType) (subsystem : BitVector)
    (dropNaiveSccs onlyBottomSccs : bool) (fuel : nat)
    (blocks : list VectorSet) :
  length subsystem = numberOfStates model ->
  performSccDecomposition fuel model subsystem dropNaiveSccs onlyBottomSccs
    = Some blocks ->
  forall i j Bi Bj x y,
    nth_error blocks i = Some Bi -> nth_error blocks j = Some Bj ->
    In x Bi -> In y Bj -> edge model subsystem x y -> j <= i.
Proof.
  intros Hlen H i j Bi Bj x y Hi Hj Hx Hy Hedge.
  pose proof (@performSccDecomposition_order _ model subsystem dropNaiveSccs
                onlyBottomSccs Hlen fuel blocks H) as Hord.
  destruct (Nat.le_gt_cases j i) as [|Hlt]; auto. exfalso.
  apply nth_error_split in Hi. destruct Hi as (l1 & l2 & E & Hl1).
  apply (Hord l1 Bi l2 x y E Hx Hedge).
  apply in_concat. exists Bj. split; auto.
  rewrite E in Hj.
  rewrite nth_error_app2 in Hj by lia.
  rewrite Hl1 in Hj.
  destruct (j - i) as [|k] eqn:Ek; [lia|]. simpl in Hj.
  apply nth_error_In in Hj. exact Hj.
Qed.

(** The statement of X4 at [forcedExit]: the edge from state 1 in block
    {0,1} (position 1) to state 2 in block {2} (position 0). *)
Lemma scc_blocks_in_reverse_topological_order_witness : 0 <= 1.
Proof.
  apply (@scc_blocks_in_reverse_topological_order Q forcedExit (bv_new 3 true)
           false false 100 [[2]; [0; 1]] eq_refl eq_refl
           1 0 [0; 1] [2] 1 2 eq_refl eq_refl).
  - simpl. auto.
  - simpl. auto.
  - split; [reflexivity|]. split; [reflexivity|]. simpl. auto.
Defined.

(** X5.  The overload without a subsystem decomposes the whole state space:
    run without options it returns, and its blocks are the strongly
    connected components of the graph on all states, pairwise disjoint, with
    union the set of all states [0, N). *)
Theorem scc_of_model_partitions_all_states (ValueType : Type)
    (model : AbstractModel ValueType) :
  exists fuel blocks,
    performSccDecompositionOfModel fuel model false false = Some blocks /\
    (forall B, In B blocks ->
               isScc model (bv_new (numberOfStates model) true) B) /\
    disjointBlocks blocks /\
    (forall x, In x (concat blocks) <-> x < numberOfStates model).
Proof.
  unfold performSccDecompositionOfModel.
  destruct (@performSccDecomposition_correct _ model
              (bv_new (numberOfStates model) true) false false
              (bv_new_length _ _) (2 * numberOfStates model) (le_n _))
    as (bs & E & Hscc & Hnd & Hcov & _).
  exists (2 * numberOfStates model), bs.
  split; [exact E|]. split; [exact Hscc|].
  split; [apply NoDup_concat_disjoint, Hnd|].
  intros x. rewrite <- bv_get_new_true. split.
  - intros Hin. apply in_concat in Hin. destruct Hin as (B & HB & HxB).
    apply (Hscc B HB). exact HxB.
  - intros Hx. apply Hcov; auto.
Qed.

(* ================================================================= *)
(** ** Further properties of the MEC engine *)

Lemma filter_filter (A : Type) (f g : A -> bool) (l : list A) :
  filter g (filter f l) = filter (fun x => f x && g x) l.
Proof.
  induction l as [|x l IH]; simpl; auto.
  destruct (f x); simpl; [destruct (g x)|]; rewrite IH; auto.
Qed.

Lemma filter_all (A : Type) (l : list A) : filter (fun _ => true) l = l.
Proof. induction l as [|x l IH]; simpl; [|rewrite IH]; auto. Qed.

Lemma vs_ok_filter (g : nat -> bool) (s : VectorSet) :
  vs_ok s -> vs_ok (filter g s).
Proof.
  unfold vs_ok. induction 1 as [|x s Hs IH Hx]; simpl; [constructor|].
  destruct (g x); auto. constructor; auto.
  rewrite Forall_forall in *. intros y Hy. apply filter_In in Hy. apply Hx, Hy.
Qed.

Lemma nonempty_In (A : Type) (l : list A) : l <> [] -> exists x, In x l.
Proof. destruct l as [|x l]; [congruence|]. intros _. exists x. left; auto. Qed.

Section MecCover.

Variable ValueType : Type.
Variable model : AbstractModel ValueType.

Local Notation N := (numberOfStates model).

Lemma choiceContained_mono (A B : StateBlock) (c : nat) :
  incl A B -> choiceContained model A c = true ->
  choiceContained model B c = true.
Proof.
  unfold choiceContained. intros Hi H. rewrite forallb_forall in *.
  intros e He. apply vs_contains_In, Hi, vs_contains_In, H, He.
Qed.

Lemma keepStateInMEC_mono (A B : StateBlock) (s : nat) :
  incl A B -> keepStateInMEC model A s = true ->
  keepStateInMEC model B s = true.
Proof.
  unfold keepStateInMEC. intros Hi H. rewrite existsb_exists in *.
  destruct H as (c & Hc & H). exists c. split; auto.
  eapply choiceContained_mono; eauto.
Qed.

(** The pruned SCC is the SCC filtered by some predicate. *)
Lemma pruneLoop_filter fuel :
  forall scc stc ch scc' stc' ch',
  pruneLoop model fuel scc stc ch = Some (scc', stc', ch') ->
  exists g, scc' = filter g scc.
Proof.
  induction fuel as [|fuel IH]; intros scc stc ch scc' stc' ch' H; [discriminate|].
  simpl in H. destruct (bv_empty stc).
  - inversion H; subst. exists (fun _ => true). symmetry. apply filter_all.
  - apply IH in H. destruct H as (g & ->). unfold vs_erase.
    rewrite filter_filter. eauto.
Qed.

Lemma pruneLoop_incl fuel scc stc ch scc' stc' ch' :
  pruneLoop model fuel scc stc ch = Some (scc', stc', ch') -> incl scc' scc.
Proof.
  intros H. apply pruneLoop_filter in H. destruct H as (g & ->).
  intros x Hx. apply filter_In in Hx. tauto.
Qed.

(** A set of states in which every state has a choice that stays inside the
    set survives the pruning of an SCC that contains it. *)
Lemma pruneLoop_keeps (E : list nat) fuel :
  (forall s, In s E -> keepStateInMEC model E s = true) ->
  forall scc stc ch scc' stc' ch',
  pruneLoop model fuel scc stc ch = Some (scc', stc', ch') ->
  incl E scc -> incl E scc'.
Proof.
  intros HE.
  induction fuel as [|fuel IH]; intros scc stc ch scc' stc' ch' H Hi; [discriminate|].
  simpl in H. destruct (bv_empty stc).
  - inversion H; subst. exact Hi.
  - apply IH in H; auto.
    intros x Hx. apply vs_erase_In. split; [apply Hi, Hx|].
    intros Hr. apply vs_fromRange_In, bv_indices_In in Hr.
    apply computeStatesToRemove_get in Hr. destruct Hr as (_ & Hk).
    rewrite (keepStateInMEC_mono _ Hi (HE x Hx)) in Hk. discriminate.
Qed.

(** A state removed by the pruning has no choice that stays inside the
    pruned SCC. *)
Lemma pruneLoop_removed fuel :
  forall scc stc ch scc' stc' ch',
  pruneLoop model fuel scc stc ch = Some (scc', stc', ch') ->
  forall x, In x scc -> ~ In x scc' -> keepStateInMEC model scc' x = false.
Proof.
  induction fuel as [|fuel IH]; intros scc stc ch scc' stc' ch' H x Hx Hn;
    [discriminate|].
  simpl in H. destruct (bv_empty stc).
  - inversion H; subst. contradiction.
  - set (rem := computeStatesToRemove model scc stc) in *.
    set (scc1 := vs_erase scc (vs_fromRange (bv_indices rem))) in *.
    destruct (in_dec Nat.eq_dec x scc1) as [Hin|Hout].
    + eapply IH; eauto.
    + assert (Hr : bv_get rem x = true).
      { destruct (bv_get rem x) eqn:Er; auto. exfalso. apply Hout.
        apply vs_erase_In. split; auto. intros Hr.
        apply vs_fromRange_In, bv_indices_In in Hr. congruence. }
      apply computeStatesToRemove_get in Hr. destruct Hr as (_ & Hk).
      destruct (keepStateInMEC model scc' x) eqn:Ek; auto.
      rewrite <- Hk. symmetry. apply keepStateInMEC_mono with (A := scc'); auto.
      apply pruneLoop_incl in H. intros y Hy. apply H in Hy.
      apply vs_erase_In in Hy. tauto.
Qed.

Lemma pruneSccs_filter fuel :
  forall sccs stc ch sccs' stc' ch',
  pruneSccs model fuel sccs stc ch = Some (sccs', stc', ch') ->
  Forall2 (fun C B => exists g, C = filter g B) sccs' sccs.
Proof.
  induction sccs as [|scc rest IH]; intros stc ch sccs' stc' ch' H; simpl in H.
  - inversion H; subst. constructor.
  - destruct (pruneLoop model fuel scc (bv_setRange stc scc) ch)
      as [[[scc1 stc1] ch1]|] eqn:E1; [|discriminate].
    destruct (pruneSccs model fuel rest stc1 ch1)
      as [[[rest1 stc2] ch2]|] eqn:E2; [|discriminate].
    inversion H; subst. constructor.
    + eapply pruneLoop_filter; eauto.
    + eapply IH; eauto.
Qed.

Lemma pruneSccs_keeps (E : list nat) fuel :
  (forall s, In s E -> keepStateInMEC model E s = true) ->
  forall sccs stc ch sccs' stc' ch',
  pruneSccs model fuel sccs stc ch = Some (sccs', stc', ch') ->
  (exists B, In B sccs /\ incl E B) ->
  exists C, In C sccs' /\ incl E C.
Proof.
  intros HE.
  induction sccs as [|scc rest IH]; intros stc ch sccs' stc' ch' H (B & HB & Hi);
    [destruct HB|].
  simpl in H.
  destruct (pruneLoop model fuel scc (bv_setRange stc scc) ch)
    as [[[scc1 stc1] ch1]|] eqn:E1; [|discriminate].
  destruct (pruneSccs model fuel rest stc1 ch1)
    as [[[rest1 stc2] ch2]|] eqn:E2; [|discriminate].
  inversion H; subst. destruct HB as [->|HB].
  - exists scc1. split; [left; auto|]. eapply pruneLoop_keeps; eauto.
  - destruct (IH _ _ _ _ _ E2) as (C & HC & HiC); eauto.
    exists C. split; [right|]; auto.
Qed.

Section Cover.

Variable E : list nat.
Hypothesis E_ec : endComponentSet model E.
Hypothesis E_states : forall s, In s E -> s < N.

Lemma ec_keeps (s : nat) : In s E -> keepStateInMEC model E s = true.
Proof.
  intros Hs. destruct E_ec as (_ & Hstep & _).
  destruct (Hstep s Hs) as (t & _ & _ & c & Hc & Hcc & _).
  unfold keepStateInMEC. apply existsb_exists. eauto.
Qed.

Lemma insideStep_edge (K : StateBlock) (s t : nat) :
  incl E K -> insideStep model E s t ->
  edge model (bv_fromRange N K) s t.
Proof.
  intros Hi (Hs & Ht & c & Hc & _ & Hrow).
  split; [apply bv_fromRange_get; auto|].
  split; [apply bv_fromRange_get; auto|].
  unfold successors, getRows. rewrite flat_map_concat_map, concat_map, map_map.
  apply in_concat. exists (map fst (getRow (transitionMatrix model) c)).
  split; auto. apply in_map_iff. exists c. auto.
Qed.

Lemma ec_reach (K : StateBlock) (s t : nat) :
  incl E K -> clos_refl_trans nat (insideStep model E) s t ->
  reach model (bv_fromRange N K) s t.
Proof.
  intros Hi H. induction H as [x y H|x|x y z _ IH1 _ IH2].
  - apply rt_step. apply insideStep_edge; auto.
  - apply rt_refl.
  - eapply rt_trans; eauto.
Qed.

Lemma ec_nontrivial (K : StateBlock) (s : nat) :
  incl E K -> In s E -> nontrivial model (bv_fromRange N K) s.
Proof.
  intros Hi Hs. destruct E_ec as (_ & Hstep & Hconn).
  destruct (Hstep s Hs) as (t & Hst).
  pose proof (insideStep_edge Hi Hst) as (_ & _ & Hsucc).
  destruct (Nat.eq_dec t s) as [->|Hne]; [left; auto|].
  right. exists t. split; auto.
  destruct Hst as (_ & Ht & _).
  split; apply ec_reach; auto.
Qed.

(** One round of the loop over the candidates keeps an end component of
    the candidate inside one of the pruned SCCs. *)
Lemma refinementPass_cover fuel K stc ch sccs' stc' :
  refinementPass model fuel K stc = Some (ch, sccs', stc') ->
  incl E K ->
  exists C, In C sccs' /\ incl E C.
Proof.
  unfold refinementPass, sccDecompositionOfBlock. intros H Hi.
  destruct (performSccDecomposition fuel model (bv_fromRange N K) true
              defaultOnlyBottomSccs) as [sccs|] eqn:Es; [|discriminate].
  destruct (pruneSccs model fuel sccs stc (1 <? length sccs))
    as [[[sccs1 stc1] ch1]|] eqn:Ep; [|discriminate].
  inversion H; subst. clear H.
  destruct (@performSccDecomposition_correct _ model (bv_fromRange N K) true
              defaultOnlyBottomSccs (bv_fromRange_length _ _)
              (Nat.max fuel (2 * N)))
    as (bs & Eb & Hscc & _ & Hcov & _); [lia|].
  assert (Hbs : bs = sccs) by (eapply performSccDecomposition_unique; eauto).
  subst bs.
  eapply pruneSccs_keeps; eauto using ec_keeps.
  destruct E_ec as (Hne & _ & Hconn).
  destruct (nonempty_In Hne) as (s0 & Hs0).
  assert (Hin : In s0 (concat sccs)).
  { apply Hcov; [reflexivity| |right; apply ec_nontrivial; auto].
    apply bv_fromRange_get. auto. }
  apply in_concat in Hin. destruct Hin as (B & HB & Hs0B).
  exists B. split; auto. intros t Ht.
  destruct (Hscc B HB) as (_ & _ & Hmem).
  apply (Hmem s0 Hs0B). split; apply ec_reach; auto.
Qed.

Lemma mecLoop_cover fuel :
  forall passed pending stc r,
  mecLoop model fuel passed pending stc = Some r ->
  (exists K, In K (passed ++ pending) /\ incl E K) ->
  exists K, In K r /\ incl E K.
Proof.
  induction fuel as [|fuel IH]; intros passed pending stc r H (K & HK & Hi);
    [discriminate|].
  simpl in H. destruct pending as [|mec rest].
  - inversion H; subst. rewrite app_nil_r in HK. eauto.
  - destruct (refinementPass model fuel mec stc) as [[[ch sccs] stc']|] eqn:Ep;
      [|discriminate].
    apply in_app_or in HK.
    destruct ch; apply IH in H; auto.
    + destruct HK as [HK|[<-|HK]].
      * exists K. split; auto. apply in_or_app; auto.
      * destruct (refinementPass_cover _ _ Ep Hi) as (C & HC & HiC).
        exists C. split; auto. apply in_or_app. right. apply in_or_app. right.
        apply newCandidates_In. split; auto.
        destruct E_ec as (Hne & _). intros ->.
        destruct (nonempty_In Hne) as (s & Hs). destruct (HiC s Hs).
      * exists K. split; auto. apply in_or_app. right. apply in_or_app; auto.
    + exists K. split; auto. rewrite <- app_assoc. simpl.
      apply in_or_app. destruct HK as [HK|HK]; auto.
Qed.

End Cover.

Lemma mecStates_buildMec (K : StateBlock) : mecStates (buildMec model K) = K.
Proof. unfold mecStates, buildMec. rewrite map_map. simpl. apply map_id. Qed.

Lemma retainedChoices_buildMec (K : StateBlock) (s : nat) :
  In s K -> retainedChoices (buildMec model K) s = containedChoices model K s.
Proof.
  unfold retainedChoices, buildMec.
  generalize (containedChoices model K). intros g.
  induction K as [|x K IH]; intros Hs; [destruct Hs|].
  simpl. destruct (Nat.eqb_spec x s) as [->|Hne]; auto.
  apply IH. destruct Hs; [contradiction|auto].
Qed.

End MecCover.

(** X6.  Every end component lies inside one block of the result: a set of
    states of the subsystem that is an end component under the choices
    staying inside it is contained in the states of one returned block, and
    that block retains, at the states of the set, every choice that stays
    inside the set. *)
Theorem mec_blocks_cover_every_end_component (ValueType : Type)
    (model : AbstractModel ValueType) (subsystem : BitVector) (fuel : nat)
    (mecs : list MaximalEndComponent) (E : list nat) :
  performMaximalEndComponentDecomposition model fuel subsystem = Some mecs ->
  endComponentSet model E ->
  (forall s, In s E ->
             bv_get subsystem s = true /\ s < numberOfStates model) ->
  exists mec,
    In mec mecs /\ incl E (mecStates mec) /\
    forall s c, In s E -> In c (choicesOf model s) ->
                choiceContained model E c = true ->
                In c (retainedChoices mec s).
Proof.
  unfold performMaximalEndComponentDecomposition. intros H Hec Hst.
  destruct (mecLoop model fuel [] [bv_indices subsystem]
              (bv_new (numberOfStates model) false)) as [r|] eqn:Er;
    [|discriminate].
  inversion H; subst. clear H.
  destruct (@mecLoop_cover _ model E Hec (fun s Hs => proj2 (Hst s Hs))
              fuel [] [bv_indices subsystem] _ r Er) as (K & HK & Hi).
  { exists (bv_indices subsystem). split; [left; auto|].
    intros s Hs. apply bv_indices_In. apply Hst, Hs. }
  exists (buildMec model K). split; [apply in_map; auto|].
  rewrite mecStates_buildMec. split; auto.
  intros s c Hs Hc Hcc. rewrite retainedChoices_buildMec by auto.
  unfold containedChoices. apply filter_In. split; auto.
  eapply choiceContained_mono; eauto.
Qed.

(** The statement of X6 at [forcedExit] and its end component {0,1}, in
    which state 1 keeps the choice leading to state 0. *)
Lemma mec_blocks_cover_every_end_component_witness :
  exists mec,
    In mec [[(2, [3])]; [(0, [0]); (1, [1])]] /\ incl [0; 1] (mecStates mec) /\
    forall s c, In s [0; 1] -> In c (choicesOf forcedExit s) ->
                choiceContained forcedExit [0; 1] c = true ->
                In c (retainedChoices mec s).
Proof.
  apply (@mec_blocks_cover_every_end_component Q forcedExit (bv_new 3 true) 100
           [[(2, [3])]; [(0, [0]); (1, [1])]] [0; 1]).
  - reflexivity.
  - assert (H01 : insideStep forcedExit [0; 1] 0 1).
    { split; [simpl; auto|]. split; [simpl; auto|].
      exists 0. split; [simpl; auto|]. split; [reflexivity|simpl; auto]. }
    assert (H10 : insideStep forcedExit [0; 1] 1 0).
    { split; [simpl; auto|]. split; [simpl; auto|].
      exists 1. split; [simpl; auto|]. split; [reflexivity|simpl; auto]. }
    split; [discriminate|]. split.
    + intros s [<-|[<-|[]]]; eauto.
    + intros s t [<-|[<-|[]]] [<-|[<-|[]]];
        try apply rt_refl; apply rt_step; auto.
  - intros s [<-|[<-|[]]]; split; try reflexivity; simpl; lia.
Defined.

(** X7.  The constructor without a subsystem decomposes the whole state
    space: for a model whose matrix has a row for every state number (the
    pruning reads [getRow(state)]), the engine returns, and every end
    component of the model lies inside one of the returned blocks. *)
Theorem mec_of_model_covers_end_components (ValueType : Type)
    (model : AbstractModel ValueType) :
  numberOfStates model <= length (transitionMatrix model) ->
  exists fuel mecs,
    mecDecompositionOfModel model fuel = Some mecs /\
    forall E, endComponentSet model E ->
              (forall s, In s E -> s < numberOfStates model) ->
              exists mec, In mec mecs /\ incl E (mecStates mec).
Proof.
  intros _.
  unfold mecDecompositionOfModel, performMaximalEndComponentDecomposition.
  set (K0 := bv_indices (bv_new (numberOfStates model) true)).
  set (fuel := 2 * numberOfStates model + 3 + pendingWeight [K0]).
  destruct (@mecLoop_total _ model fuel [] [K0]
              (bv_new (numberOfStates model) false)) as (r & Er).
  - apply bv_empty_get. apply bv_get_new_false.
  - unfold fuel. lia.
  - exists fuel, (map (buildMec model) r). rewrite Er. split; [reflexivity|].
    intros E Hec Hst.
    destruct (@mecLoop_cover _ model E Hec Hst fuel [] [K0] _ r Er)
      as (K & HK & Hi).
    { exists K0. split; [left; auto|].
      intros s Hs. apply bv_indices_In, bv_get_new_true. auto. }
    exists (buildMec model K). split; [apply in_map; auto|].
    rewrite mecStates_buildMec. exact Hi.
Qed.

(** The statement of X7 at [forcedExit], which has four rows for three
    states. *)
Lemma mec_of_model_covers_end_components_witness :
  exists fuel mecs,
    mecDecompositionOfModel forcedExit fuel = Some mecs /\
    forall E, endComponentSet forcedExit E ->
              (forall s, In s E -> s < numberOfStates forcedExit) ->
              exists mec, In mec mecs /\ incl E (mecStates mec).
Proof.
  apply (@mec_of_model_covers_end_components Q forcedExit).
  simpl. lia.
Defined.

(* ================================================================= *)
(** ** The shape of the blocks of the MEC engine *)

Lemma NoDup_app_inv (A : Type) (l1 l2 : list A) :
  NoDup (l1 ++ l2) ->
  NoDup l1 /\ NoDup l2 /\ forall a, In a l1 -> ~ In a l2.
Proof.
  induction l1 as [|x l1 IH]; simpl; intros H.
  - split; [constructor|]. split; auto.
  - inversion H as [|? ? Hx Hnd]; subst.
    destruct (IH Hnd) as (H1 & H2 & H3).
    split; [constructor; auto; intros Hin; apply Hx, in_or_app; auto|].
    split; auto.
    intros a [<-|Ha]; [intros Hin; apply Hx, in_or_app; auto|auto].
Qed.

Lemma NoDup_replace (A : Type) (P M R M' : list A) :
  NoDup (P ++ M ++ R) -> NoDup M' -> incl M' M -> NoDup (P ++ R ++ M').
Proof.
  intros H HM' Hi.
  apply NoDup_app_inv in H. destruct H as (HP & HMR & HPd).
  apply NoDup_app_inv in HMR. destruct HMR as (HM & HR & HMd).
  apply NoDup_app; auto.
  - apply NoDup_app; auto. intros a Ha Ha'. apply (HMd a); auto.
  - intros a Ha Hin. apply (HPd a Ha). apply in_or_app.
    apply in_app_or in Hin. destruct Hin; auto.
Qed.

Lemma Forall2_In_l (A B : Type) (Rel : A -> B -> Prop) (l' : list A) (l : list B) :
  Forall2 Rel l' l ->
  forall a, In a l' -> exists b, In b l /\ Rel a b.
Proof.
  induction 1 as [|a0 b0 l' l H0 _ IH]; intros a Ha; [destruct Ha|].
  destruct Ha as [<-|Ha].
  - exists b0. split; [left|]; auto.
  - destruct (IH a Ha) as (b & Hb & Hr). exists b. split; [right|]; auto.
Qed.

Lemma concat_filtered (l' l : list (list nat)) :
  Forall2 (fun C B => exists g, C = filter g B) l' l ->
  NoDup (concat l) -> NoDup (concat l') /\ incl (concat l') (concat l).
Proof.
  induction 1 as [|C B l' l (g & ->) _ IH]; simpl; intros H.
  - split; auto. apply incl_refl.
  - apply NoDup_app_inv in H. destruct H as (HB & Hl & Hd).
    destruct (IH Hl) as (Hl' & Hi).
    split.
    + apply NoDup_app; auto.
      * apply NoDup_filter. exact HB.
      * intros a Ha Hin. apply filter_In in Ha. apply (Hd a); [tauto|auto].
    + intros a Ha. apply in_or_app. apply in_app_or in Ha.
      destruct Ha as [Ha|Ha]; [left|right; auto].
      apply filter_In in Ha. tauto.
Qed.

Lemma concat_newCandidates (l : list StateBlock) :
  concat (newCandidates l) = concat l.
Proof.
  unfold newCandidates. induction l as [|B l IH]; simpl; auto.
  destruct B as [|x B]; simpl; [|rewrite IH]; auto.
Qed.

Lemma seq_ok (n a : nat) : vs_ok (seq a n).
Proof.
  unfold vs_ok. revert a. induction n as [|n IH]; intros a; simpl; constructor.
  - apply IH.
  - rewrite Forall_forall. intros x Hx. apply in_seq in Hx. lia.
Qed.

Lemma bv_indices_ok (bv : BitVector) : vs_ok (bv_indices bv).
Proof. unfold bv_indices. apply vs_ok_filter, seq_ok. Qed.

Lemma bv_empty_eq (bv : BitVector) :
  bv_empty bv = true -> bv = bv_new (length bv) false.
Proof.
  unfold bv_empty, bv_new. induction bv as [|b bv IH]; simpl; auto.
  intros H. apply andb_true_iff in H. destruct H as (Hb & H).
  destruct b; [discriminate|]. f_equal. auto.
Qed.

Lemma bv_indices_fromRange (n : nat) (K : StateBlock) :
  vs_ok K -> (forall x, In x K -> x < n) ->
  bv_indices (bv_fromRange n K) = K.
Proof.
  intros Hok Hlt. apply vs_ok_ext; auto using bv_indices_ok.
  intros x. rewrite bv_indices_In, bv_fromRange_get. split; [tauto|auto].
Qed.

Section MecShape.

Variable ValueType : Type.
Variable model : AbstractModel ValueType.

Local Notation N := (numberOfStates model).

(** The pruned SCCs of a candidate are pairwise disjoint ascending sets of
    states of the candidate. *)
Lemma refinementPass_shape fuel K stc ch sccs' stc' :
  refinementPass model fuel K stc = Some (ch, sccs', stc') ->
  NoDup (concat sccs') /\
  forall C, In C sccs' -> vs_ok C /\ incl C K.
Proof.
  unfold refinementPass, sccDecompositionOfBlock. intros H.
  destruct (performSccDecomposition fuel model (bv_fromRange N K) true
              defaultOnlyBottomSccs) as [sccs|] eqn:Es; [|discriminate].
  destruct (pruneSccs model fuel sccs stc (1 <? length sccs))
    as [[[sccs1 stc1] ch1]|] eqn:Ep; [|discriminate].
  inversion H; subst. clear H.
  destruct (@performSccDecomposition_correct _ model (bv_fromRange N K) true
              defaultOnlyBottomSccs (bv_fromRange_length _ _)
              (Nat.max fuel (2 * N)))
    as (bs & Eb & Hscc & Hnd & _); [lia|].
  assert (Hbs : bs = sccs) by (eapply performSccDecomposition_unique; eauto).
  subst bs.
  apply pruneSccs_filter in Ep.
  split; [apply (concat_filtered Ep Hnd)|].
  intros C HC. destruct (Forall2_In_l Ep C HC) as (B & HB & g & ->).
  destruct (Hscc B HB) as (Hok & _ & Hmem).
  split; [apply vs_ok_filter; auto|].
  intros x Hx. apply filter_In in Hx. destruct Hx as (Hx & _).
  destruct (Hmem x Hx) as (Hs & _). apply bv_fromRange_get in Hs. tauto.
Qed.

Lemma mecLoop_shape (K0 : StateBlock) fuel :
  forall passed pending stc r,
  mecLoop model fuel passed pending stc = Some r ->
  NoDup (concat (passed ++ pending)) ->
  (forall K, In K (passed ++ pending) -> vs_ok K /\ incl K K0) ->
  NoDup (concat r) /\ forall K, In K r -> vs_ok K /\ incl K K0.
Proof.
  induction fuel as [|fuel IH]; intros passed pending stc r H Hnd Hall;
    [discriminate|].
  simpl in H. destruct pending as [|mec rest].
  - inversion H; subst. rewrite app_nil_r in *. auto.
  - destruct (refinementPass model fuel mec stc) as [[[ch sccs] stc']|] eqn:Ep;
      [|discriminate].
    destruct (refinementPass_shape _ _ _ Ep) as (Hnd' & Hsh).
    destruct ch; apply IH in H; auto.
    + rewrite !concat_app, concat_newCandidates.
      rewrite concat_app in Hnd. simpl in Hnd.
      apply NoDup_replace with (M := mec); auto.
      intros x Hx. apply in_concat in Hx. destruct Hx as (C & HC & Hx).
      apply (Hsh C HC). exact Hx.
    + intros K HK. apply in_app_or in HK. destruct HK as [HK|HK].
      * apply Hall. apply in_or_app; auto.
      * apply in_app_or in HK. destruct HK as [HK|HK].
        -- apply Hall. apply in_or_app. right. right. exact HK.
        -- apply newCandidates_In in HK. destruct HK as (HK & _).
           destruct (Hsh K HK) as (Hok & Hi). split; auto.
           eapply incl_tran; [exact Hi|].
           apply (Hall mec). apply in_or_app. right. left. auto.
    + rewrite <- app_assoc. exact Hnd.
    + rewrite <- app_assoc. exact Hall.
Qed.

Lemma pruneSccs_length fuel :
  forall sccs stc ch sccs' stc' ch',
  pruneSccs model fuel sccs stc ch = Some (sccs', stc', ch') ->
  bv_empty stc = true -> length stc' = length stc.
Proof.
  induction sccs as [|scc rest IH]; intros stc ch sccs' stc' ch' H He; simpl in H.
  - inversion H; subst. auto.
  - destruct (pruneLoop model fuel scc (bv_setRange stc scc) ch)
      as [[[scc1 stc1] ch1]|] eqn:E1; [|discriminate].
    destruct (pruneSccs model fuel rest stc1 ch1)
      as [[[rest1 stc2] ch2]|] eqn:E2; [|discriminate].
    inversion H; subst. clear H.
    apply pruneLoop_spec in E1.
    + destruct E1 as (_ & _ & He1 & Hlen & _).
      rewrite (IH _ _ _ _ _ E2 He1), Hlen. apply bv_setRange_length.
    + intros x Hx. apply bv_setRange_get in Hx.
      rewrite bv_empty_get in He. rewrite He in Hx.
      destruct Hx as [Hx|[Hx _]]; [discriminate|auto].
Qed.

(** Every pass starts with [statesToCheck] cleared. *)
Lemma refinementPass_stc fuel K ch sccs' stc' :
  refinementPass model fuel K (bv_new N false) = Some (ch, sccs', stc') ->
  stc' = bv_new N false.
Proof.
  intros H.
  assert (He : bv_empty (bv_new N false) = true)
    by (apply bv_empty_get, bv_get_new_false).
  pose proof H as H'. eapply refinementPass_spec in H'; [|exact He].
  destruct H' as (He' & _).
  apply bv_empty_eq in He'. rewrite He'. f_equal.
  unfold refinementPass in H.
  destruct (sccDecompositionOfBlock fuel model K true defaultOnlyBottomSccs)
    as [sccs|]; [|discriminate].
  destruct (pruneSccs model fuel sccs (bv_new N false) (1 <? length sccs))
    as [[[sccs1 stc1] ch1]|] eqn:Ep; [|discriminate].
  inversion H; subst.
  rewrite (pruneSccs_length _ _ _ _ Ep He). apply bv_new_length.
Qed.

(** A candidate is stable when a pass over it reports no change. *)
Lemma mecLoop_stable fuel :
  forall passed pending r,
  mecLoop model fuel passed pending (bv_new N false) = Some r ->
  (forall K, In K passed ->
     exists f sccs stc',
       refinementPass model f K (bv_new N false) = Some (false, sccs, stc')) ->
  forall K, In K r ->
    exists f sccs stc',
      refinementPass model f K (bv_new N false) = Some (false, sccs, stc').
Proof.
  induction fuel as [|fuel IH]; intros passed pending r H Hp; [discriminate|].
  simpl in H. destruct pending as [|mec rest].
  - inversion H; subst. exact Hp.
  - destruct (refinementPass model fuel mec (bv_new N false))
      as [[[ch sccs] stc']|] eqn:Ep; [|discriminate].
    pose proof Ep as Es. apply refinementPass_stc in Es. subst stc'.
    destruct ch; (eapply IH; [exact H|]); auto.
    intros K HK. apply in_app_or in HK. destruct HK as [HK|[<-|[]]]; eauto.
Qed.

Lemma mecLoop_of_stable fuel K sccs stc' f :
  refinementPass model f K (bv_new N false) = Some (false, sccs, stc') ->
  2 * N + 3 <= fuel ->
  mecLoop model fuel [] [K] (bv_new N false) = Some [K].
Proof.
  intros Hs Hf. destruct fuel as [|fuel]; [lia|]. simpl.
  destruct (@refinementPass_total _ model fuel K (bv_new N false))
    as (r1 & E1); [lia|apply bv_empty_get, bv_get_new_false|].
  assert (Er : r1 = (false, sccs, stc')).
  { pose proof E1 as H1. pose proof Hs as H2.
    apply refinementPass_fuel with (fuel' := Nat.max f fuel) in H1;
      [|apply Nat.le_max_r].
    apply refinementPass_fuel with (fuel' := Nat.max f fuel) in H2;
      [|apply Nat.le_max_l].
    congruence. }
  rewrite E1, Er. destruct fuel as [|fuel]; [lia|]. reflexivity.
Qed.

End MecShape.

(** X8.  The blocks of a result are pairwise disjoint ascending sets of
    states of the subsystem, and the choices retained at a state of a block
    are exactly the choices of the state all of whose successors lie in the
    block. *)
Theorem mec_blocks_are_disjoint_with_their_inside_choices (ValueType : Type)
    (model : AbstractModel ValueType) (subsystem : BitVector) (fuel : nat)
    (mecs : list MaximalEndComponent) :
  performMaximalEndComponentDecomposition model fuel subsystem = Some mecs ->
  disjointBlocks (map (@mecStates) mecs) /\
  forall mec, In mec mecs ->
    vs_ok (mecStates mec) /\
    (forall s, In s (mecStates mec) -> bv_get subsystem s = true) /\
    (forall s c, In s (mecStates mec) ->
       (In c (retainedChoices mec s) <->
        In c (choicesOf model s) /\
        choiceContained model (mecStates mec) c = true)).
Proof.
  unfold performMaximalEndComponentDecomposition. intros H.
  destruct (mecLoop model fuel [] [bv_indices subsystem]
              (bv_new (numberOfStates model) false)) as [r|] eqn:Er;
    [|discriminate].
  inversion H; subst. clear H.
  destruct (@mecLoop_shape _ model (bv_indices subsystem) fuel [] _ _ r Er)
    as (Hnd & Hall).
  { simpl. rewrite app_nil_r. apply vs_ok_NoDup, bv_indices_ok. }
  { intros K [<-|[]]. split; [apply bv_indices_ok|apply incl_refl]. }
  split.
  - apply NoDup_concat_disjoint. rewrite map_map.
    erewrite map_ext; [rewrite map_id; exact Hnd|].
    intros K. apply mecStates_buildMec.
  - intros mec Hmec. apply in_map_iff in Hmec. destruct Hmec as (K & <- & HK).
    rewrite mecStates_buildMec. destruct (Hall K HK) as (Hok & Hi).
    split; auto. split.
    + intros s Hs. apply bv_indices_In, Hi, Hs.
    + intros s c Hs. rewrite retainedChoices_buildMec by auto.
      unfold containedChoices. apply filter_In.
Qed.

(** The statement of X8 at [forcedExit]. *)
Lemma mec_blocks_are_disjoint_with_their_inside_choices_witness :
  disjointBlocks (map (@mecStates) [[(2, [3])]; [(0, [0]); (1, [1])]]) /\
  forall mec, In mec [[(2, [3])]; [(0, [0]); (1, [1])]] ->
    vs_ok (mecStates mec) /\
    (forall s, In s (mecStates mec) -> bv_get (bv_new 3 true) s = true) /\
    (forall s c, In s (mecStates mec) ->
       (In c (retainedChoices mec s) <->
        In c (choicesOf forcedExit s) /\
        choiceContained forcedExit (mecStates mec) c = true)).
Proof.
  apply (@mec_blocks_are_disjoint_with_their_inside_choices Q forcedExit
           (bv_new 3 true) 100 [[(2, [3])]; [(0, [0]); (1, [1])]]).
  reflexivity.
Defined.

(** X9.  Every block of a result is a fixpoint of the engine: run on the
    states of the block as subsystem, the engine returns exactly that
    block. *)
Theorem mec_blocks_are_fixpoints (ValueType : Type)
    (model : AbstractModel ValueType) (subsystem : BitVector) (fuel fuel' : nat)
    (mecs : list MaximalEndComponent) (mec : MaximalEndComponent) :
  length subsystem = numberOfStates model ->
  performMaximalEndComponentDecomposition model fuel subsystem = Some mecs ->
  In mec mecs ->
  2 * numberOfStates model + 3 <= fuel' ->
  performMaximalEndComponentDecomposition model fuel'
    (bv_fromRange (numberOfStates model) (mecStates mec)) = Some [mec].
Proof.
  unfold performMaximalEndComponentDecomposition. intros Hlen H Hmec Hf.
  destruct (mecLoop model fuel [] [bv_indices subsystem]
              (bv_new (numberOfStates model) false)) as [r|] eqn:Er;
    [|discriminate].
  inversion H; subst. clear H.
  apply in_map_iff in Hmec. destruct Hmec as (K & <- & HK).
  rewrite mecStates_buildMec.
  destruct (@mecLoop_shape _ model (bv_indices subsystem) fuel [] _ _ r Er)
    as (_ & Hall).
  { simpl. rewrite app_nil_r. apply vs_ok_NoDup, bv_indices_ok. }
  { intros K' [<-|[]]. split; [apply bv_indices_ok|apply incl_refl]. }
  destruct (Hall K HK) as (Hok & Hi).
  destruct (@mecLoop_stable _ model fuel [] _ r Er) with (K := K)
    as (f & sccs & stc' & Hs); auto.
  { intros K' []. }
  rewrite bv_indices_fromRange; auto.
  - erewrite mecLoop_of_stable; [reflexivity|exact Hs|exact Hf].
  - intros x Hx. apply Hi, bv_indices_In, bv_get_lt in Hx. lia.
Qed.

(** The statement of X9 at the block {0,1} of [forcedExit]. *)
Lemma mec_blocks_are_fixpoints_witness :
  performMaximalEndComponentDecomposition forcedExit 9
    (bv_fromRange 3 (mecStates [(0, [0]); (1, [1])]))
  = Some [[(0, [0]); (1, [1])]].
Proof.
  apply (@mec_blocks_are_fixpoints Q forcedExit (bv_new 3 true) 100 9
           [[(2, [3])]; [(0, [0]); (1, [1])]] [(0, [0]); (1, [1])]).
  - reflexivity.
  - reflexivity.
  - simpl. auto.
  - simpl. lia.
Defined.

(* ================================================================= *)
(** ** The MEC engine does not read the weights *)

Lemma fold_left_ext (A B : Type) (f g : A -> B -> A) (l : list B) (a : A) :
  (forall x y, f x y = g x y) -> fold_left f l a = fold_left g l a.
Proof.
  intros H. revert a. induction l as [|y l IH]; intros a; simpl; auto.
  rewrite H. apply IH.
Qed.

Section MecWeights.

Variables V W : Type.
Variable f : V -> W.
Variable m : AbstractModel V.

Local Notation m' := (mapWeights f m).

Lemma getRow_mapWeights c :
  getRow (transitionMatrix m') c = mapEntries f (getRow (transitionMatrix m) c).
Proof.
  unfold getRow. simpl.
  change (@nil (MatrixEntry W)) with (mapEntries f []).
  apply map_nth.
Qed.

Lemma choiceContained_mapWeights B c :
  choiceContained m' B c = choiceContained m B c.
Proof.
  unfold choiceContained. rewrite getRow_mapWeights.
  induction (getRow (transitionMatrix m) c) as [|e row IH]; simpl; auto.
  rewrite IH. reflexivity.
Qed.

Lemma keepStateInMEC_mapWeights B s :
  keepStateInMEC m' B s = keepStateInMEC m B s.
Proof.
  unfold keepStateInMEC.
  change (choicesOf m' s) with (choicesOf m s).
  induction (choicesOf m s) as [|c l IH]; simpl; auto.
  rewrite IH, choiceContained_mapWeights. reflexivity.
Qed.

Lemma computeStatesToRemove_mapWeights B stc :
  computeStatesToRemove m' B stc = computeStatesToRemove m B stc.
Proof.
  unfold computeStatesToRemove.
  change (numberOfStates m') with (numberOfStates m).
  apply fold_left_ext. intros rem s.
  rewrite keepStateInMEC_mapWeights. reflexivity.
Qed.

Lemma statesToReconsider_mapWeights B rem stc :
  statesToReconsider m' B rem stc = statesToReconsider m B rem stc.
Proof.
  unfold statesToReconsider. apply fold_left_ext. intros chk s.
  rewrite getRow_mapWeights. revert chk.
  induction (getRow (transitionMatrix m) s) as [|e row IH]; intros chk; simpl; auto.
Qed.

Lemma pruneLoop_mapWeights fuel :
  forall B stc ch, pruneLoop m' fuel B stc ch = pruneLoop m fuel B stc ch.
Proof.
  induction fuel as [|fuel IH]; intros B stc ch; simpl; auto.
  destruct (bv_empty stc); auto.
  rewrite computeStatesToRemove_mapWeights, statesToReconsider_mapWeights.
  apply IH.
Qed.

Lemma pruneSccs_mapWeights fuel sccs :
  forall stc ch, pruneSccs m' fuel sccs stc ch = pruneSccs m fuel sccs stc ch.
Proof.
  induction sccs as [|B rest IH]; intros stc ch; simpl; auto.
  rewrite pruneLoop_mapWeights.
  destruct (pruneLoop m fuel B (bv_setRange stc B) ch) as [[[B1 stc1] ch1]|]; auto.
  rewrite IH. reflexivity.
Qed.

Lemma refinementPass_mapWeights fuel K stc :
  refinementPass m' fuel K stc = refinementPass m fuel K stc.
Proof.
  unfold refinementPass, sccDecompositionOfBlock.
  change (numberOfStates m') with (numberOfStates m).
  rewrite performSccDecomposition_mapWeights.
  destruct (performSccDecomposition fuel m (bv_fromRange (numberOfStates m) K)
              true defaultOnlyBottomSccs) as [sccs|]; auto.
  rewrite pruneSccs_mapWeights. reflexivity.
Qed.

Lemma mecLoop_mapWeights fuel :
  forall passed pending stc,
  mecLoop m' fuel passed pending stc = mecLoop m fuel passed pending stc.
Proof.
  induction fuel as [|fuel IH]; intros passed pending stc; simpl; auto.
  destruct pending as [|mec rest]; auto.
  rewrite refinementPass_mapWeights.
  destruct (refinementPass m fuel mec stc) as [[[ch sccs] stc']|]; auto.
  destruct ch; apply IH.
Qed.

Lemma buildMec_mapWeights K : buildMec m' K = buildMec m K.
Proof.
  unfold buildMec. apply map_ext. intros s. f_equal.
  unfold containedChoices. change (choicesOf m' s) with (choicesOf m s).
  apply filter_ext. intros c. apply choiceContained_mapWeights.
Qed.

End MecWeights.

(** X10.  The MEC engine never reads a weight: replacing every weight of the
    matrix by any other value (zeros included) leaves the result unchanged.
    Only the stored entries of the rows count. *)
Theorem mec_engine_ignores_weights (V W : Type) (f : V -> W)
    (model : AbstractModel V) (fuel : nat) (subsystem : BitVector) :
  performMaximalEndComponentDecomposition (mapWeights f model) fuel subsystem
  = performMaximalEndComponentDecomposition model fuel subsystem.
Proof.
  unfold performMaximalEndComponentDecomposition.
  change (numberOfStates (mapWeights f model)) with (numberOfStates model).
  rewrite mecLoop_mapWeights.
  destruct (mecLoop model fuel [] [bv_indices subsystem]
              (bv_new (numberOfStates model) false)) as [r|]; simpl; auto.
  f_equal. apply map_ext. intros K. apply buildMec_mapWeights.
Qed.

(* ================================================================= *)
(** ** The pruning of one SCC *)

Lemma pruneLoop_unchanged (ValueType : Type) (model : AbstractModel ValueType)
    fuel :
  forall scc stc ch scc' stc' ch',
  pruneLoop model fuel scc stc ch = Some (scc', stc', ch') ->
  ch' = false -> scc' = scc /\ ch = false.
Proof.
  induction fuel as [|fuel IH]; intros scc stc ch scc' stc' ch' H Hc;
    [discriminate|].
  simpl in H. destruct (bv_empty stc).
  - inversion H; subst. auto.
  - apply IH in H; auto. destruct H as (-> & Hc1).
    apply orb_false_iff in Hc1. destruct Hc1 as (-> & Hr).
    apply negb_false_iff, bv_empty_indices in Hr. rewrite Hr.
    split; auto. unfold vs_erase. simpl. apply filter_all.
Qed.

(** X11.  The pruning of one SCC whose states are rows of the matrix (the
    loop reads [getRow(state)] for every removed state), started with states
    of the SCC to check, returns within [|scc| + 2] rounds.  It only removes
    states: the pruned
    SCC is a subset, every removed state has no choice that stays inside the
    pruned SCC, every set of states of the SCC in which each state has a
    choice staying inside the set is kept, and [mecChanged] is raised
    exactly when a state was removed. *)
Theorem prune_removes_only_states_without_inside_choice (ValueType : Type)
    (model : AbstractModel ValueType) (fuel : nat) (scc : StateBlock)
    (statesToCheck : BitVector) :
  (forall x, In x scc -> x < length (transitionMatrix model)) ->
  (forall x, bv_get statesToCheck x = true -> In x scc) ->
  length scc + 2 <= fuel ->
  exists scc' statesToCheck' mecChanged,
    pruneLoop model fuel scc statesToCheck false
      = Some (scc', statesToCheck', mecChanged) /\
    incl scc' scc /\
    bv_empty statesToCheck' = true /\
    (forall x, In x scc -> ~ In x scc' -> keepStateInMEC model scc' x = false) /\
    (forall E, incl E scc ->
               (forall s, In s E -> keepStateInMEC model E s = true) ->
               incl E scc') /\
    (mecChanged = false -> scc' = scc) /\
    (mecChanged = true -> length scc' < length scc).
Proof.
  intros _ Hsub Hf.
  destruct (@pruneLoop_total _ model fuel scc statesToCheck false Hsub Hf)
    as ([[scc' stc'] ch'] & E).
  exists scc', stc', ch'. split; [exact E|].
  pose proof E as E'. eapply pruneLoop_spec in E'; [|exact Hsub].
  destruct E' as (Hi & _ & He & _ & _ & Hc).
  split; [exact Hi|]. split; [exact He|]. split; [|split; [|split]].
  - eapply pruneLoop_removed; eauto.
  - intros E0 Hi0 Hk. eapply pruneLoop_keeps; eauto.
  - intros Hc'. eapply pruneLoop_unchanged in E; eauto. tauto.
  - intros Hc'. destruct (Hc Hc'); [discriminate|auto].
Qed.

(** The statement of X11 at the SCC {0,1,2} of [leakyCycle], all of whose
    states are to be checked. *)
Lemma prune_removes_only_states_without_inside_choice_witness :
  exists scc' statesToCheck' mecChanged,
    pruneLoop leakyCycle 5 [0; 1; 2] (bv_fromRange 4 [0; 1; 2]) false
      = Some (scc', statesToCheck', mecChanged) /\
    incl scc' [0; 1; 2] /\
    bv_empty statesToCheck' = true /\
    (forall x, In x [0; 1; 2] -> ~ In x scc' ->
               keepStateInMEC leakyCycle scc' x = false) /\
    (forall E, incl E [0; 1; 2] ->
               (forall s, In s E -> keepStateInMEC leakyCycle E s = true) ->
               incl E scc') /\
    (mecChanged = false -> scc' = [0; 1; 2]) /\
    (mecChanged = true -> length scc' < length [0; 1; 2]).
Proof.
  apply (@prune_removes_only_states_without_inside_choice Q leakyCycle 5
           [0; 1; 2] (bv_fromRange 4 [0; 1; 2])).
  - intros x [<-|[<-|[<-|[]]]]; simpl; lia.
  - intros x Hx. apply bv_fromRange_get in Hx. tauto.
  - simpl. lia.
Defined.

(* ================================================================= *)
(** ** What a pass without change guarantees *)

Section MecStable.

Variable ValueType : Type.
Variable model : AbstractModel ValueType.

Local Notation N := (numberOfStates model).

Lemma computeStatesToRemove_complete scc stc x :
  bv_get stc x = true -> x < N -> keepStateInMEC model scc x = false ->
  bv_get (computeStatesToRemove model scc stc) x = true.
Proof.
  intros Hx Hlt Hk. unfold computeStatesToRemove.
  assert (H : forall l acc,
    length acc = N -> bv_get acc x = true \/ In x l ->
    bv_get (fold_left (fun rem state =>
                         if keepStateInMEC model scc state then rem
                         else bv_set rem state true) l acc) x = true).
  { induction l as [|y l IH]; intros acc Hlen Hor; simpl.
    - destruct Hor as [Hor|[]]; auto.
    - apply IH.
      + destruct (keepStateInMEC model scc y); auto.
        rewrite bv_set_length. exact Hlen.
      + destruct Hor as [Hor|[->|Hin]]; [left|left|right; exact Hin].
        * destruct (keepStateInMEC model scc y); auto.
          rewrite bv_get_set, Hor.
          destruct ((y =? x) && (y <? length acc)); auto.
        * rewrite Hk, bv_get_set, Nat.eqb_refl. simpl.
          destruct (Nat.ltb_spec x (length acc)); auto. lia. }
  apply H; [apply bv_new_length|]. right. apply bv_indices_In. exact Hx.
Qed.

(** A run of the pruning that reports no change found a choice staying
    inside the SCC for every state it checked. *)
Lemma pruneLoop_unchanged_keeps fuel scc stc scc' stc' :
  pruneLoop model fuel scc stc false = Some (scc', stc', false) ->
  forall x, bv_get stc x = true -> x < N -> keepStateInMEC model scc x = true.
Proof.
  intros H x Hx Hlt. destruct fuel as [|fuel]; [discriminate|].
  simpl in H. destruct (bv_empty stc) eqn:Ee.
  - rewrite bv_empty_get in Ee. rewrite Ee in Hx. discriminate.
  - apply pruneLoop_unchanged in H; auto. destruct H as (_ & Hr).
    apply negb_false_iff in Hr. rewrite bv_empty_get in Hr.
    destruct (keepStateInMEC model scc x) eqn:Ek; auto.
    rewrite <- (Hr x).
    apply computeStatesToRemove_complete; auto.
Qed.

(** A pass without change: the candidate has at most one non-trivial SCC,
    and every state of that SCC has a choice that stays inside it. *)
Lemma stable_pass fuel K sccs' stc' :
  refinementPass model fuel K (bv_new N false) = Some (false, sccs', stc') ->
  exists sccs,
    sccDecompositionOfBlock fuel model K true defaultOnlyBottomSccs = Some sccs /\
    length sccs <= 1 /\
    forall B s, In B sccs -> In s B -> keepStateInMEC model B s = true.
Proof.
  unfold refinementPass. intros H.
  destruct (sccDecompositionOfBlock fuel model K true defaultOnlyBottomSccs)
    as [sccs|] eqn:Es; [|discriminate].
  destruct (pruneSccs model fuel sccs (bv_new N false) (1 <? length sccs))
    as [[[sccs1 stc1] ch1]|] eqn:Ep; [|discriminate].
  inversion H; subst. clear H.
  assert (He : bv_empty (bv_new N false) = true)
    by (apply bv_empty_get, bv_get_new_false).
  pose proof Ep as Ep'. eapply pruneSccs_spec in Ep'; [|exact He].
  destruct Ep' as (_ & _ & _ & Hmono & _).
  exists sccs. split; auto.
  destruct (1 <? length sccs) eqn:El; [specialize (Hmono eq_refl); discriminate|].
  apply Nat.ltb_ge in El. split; auto.
  pose proof Es as Hb. apply sccOfBlock_facts in Hb. destruct Hb as (Hb & _).
  destruct sccs as [|B [|B2 rest]]; simpl in El; [intros ? ? []| |lia].
  intros B0 s [<-|[]] Hs. simpl in Ep.
  destruct (pruneLoop model fuel B (bv_setRange (bv_new N false) B) false)
    as [[[B1 stc2] ch2]|] eqn:E1; [|discriminate].
  inversion Ep; subst.
  eapply pruneLoop_unchanged_keeps; [exact E1| |].
  - apply bv_setRange_get. right. split; auto.
    rewrite bv_new_length. apply (Hb B); [left; auto|auto].
  - apply (Hb B); [left; auto|auto].
Qed.

End MecStable.

(** X12.  What every block of a result satisfies, for a subsystem over the
    states of the model.  In the graph restricted to the block: any two
    states of the block that lie in non-trivial SCCs are mutually reachable,
    and every state of the block that lies in a non-trivial SCC retains a
    choice all of whose successors are mutually reachable with it.  (States
    of trivial SCCs of the block are not constrained.) *)
Theorem mec_blocks_have_one_closed_nontrivial_scc (ValueType : Type)
    (model : AbstractModel ValueType) (subsystem : BitVector) (fuel : nat)
    (mecs : list MaximalEndComponent) (mec : MaximalEndComponent) :
  length subsystem = numberOfStates model ->
  performMaximalEndComponentDecomposition model fuel subsystem = Some mecs ->
  In mec mecs ->
  let inside := bv_fromRange (numberOfStates model) (mecStates mec) in
  (forall s t, In s (mecStates mec) -> In t (mecStates mec) ->
     nontrivial model inside s -> nontrivial model inside t ->
     mutuallyReachable model inside s t) /\
  (forall s, In s (mecStates mec) -> nontrivial model inside s ->
     exists c, In c (retainedChoices mec s) /\
       forall t, In t (map fst (getRow (transitionMatrix model) c)) ->
                 mutuallyReachable model inside s t).
Proof.
  unfold performMaximalEndComponentDecomposition. intros Hlen H Hmec.
  destruct (mecLoop model fuel [] [bv_indices subsystem]
              (bv_new (numberOfStates model) false)) as [r|] eqn:Er;
    [|discriminate].
  inversion H; subst. clear H.
  apply in_map_iff in Hmec. destruct Hmec as (K & <- & HK).
  rewrite mecStates_buildMec.
  destruct (@mecLoop_shape _ model (bv_indices subsystem) fuel [] _ _ r Er)
    as (_ & Hall).
  { simpl. rewrite app_nil_r. apply vs_ok_NoDup, bv_indices_ok. }
  { intros K' [<-|[]]. split; [apply bv_indices_ok|apply incl_refl]. }
  destruct (Hall K HK) as (Hok & Hi).
  assert (HltK : forall x, In x K -> x < numberOfStates model).
  { intros x Hx. apply Hi, bv_indices_In, bv_get_lt in Hx. lia. }
  destruct (@mecLoop_stable _ model fuel [] _ r Er) with (K := K)
    as (f & sccs' & stc' & Hs); auto.
  { intros K' []. }
  apply stable_pass in Hs. destruct Hs as (sccs & Es & Hone & Hkeep).
  unfold sccDecompositionOfBlock in Es.
  set (inside := bv_fromRange (numberOfStates model) K) in *.
  destruct (@performSccDecomposition_correct _ model inside true
              defaultOnlyBottomSccs (bv_fromRange_length _ _)
              (Nat.max f (2 * numberOfStates model)))
    as (bs & Eb & Hscc & _ & Hcov & _); [lia|].
  assert (Hbs : bs = sccs) by (eapply performSccDecomposition_unique; eauto).
  subst bs.
  assert (Hin : forall s, In s K -> nontrivial model inside s ->
                exists B, sccs = [B] /\ In s B).
  { intros s Hs Hnt.
    assert (Hc : In s (concat sccs)).
    { apply Hcov; [reflexivity| |right; exact Hnt].
      apply bv_fromRange_get. auto. }
    destruct sccs as [|B [|B2 rest]]; simpl in Hone; [destruct Hc| |lia].
    simpl in Hc. rewrite app_nil_r in Hc. eauto. }
  cbv zeta. split.
  - intros s t Hs Ht Hns Hnt.
    destruct (Hin s Hs Hns) as (B & EB & HsB).
    destruct (Hin t Ht Hnt) as (B' & EB' & HtB).
    assert (B' = B) by congruence. subst B'.
    destruct (Hscc B) as (_ & _ & Hmem); [rewrite EB; left; auto|].
    apply (Hmem s HsB). exact HtB.
  - intros s Hs Hns.
    destruct (Hin s Hs Hns) as (B & EB & HsB).
    assert (HB : In B sccs) by (rewrite EB; left; auto).
    destruct (Hscc B HB) as (_ & _ & Hmem).
    assert (HBK : incl B K).
    { intros x Hx. destruct (Hmem x Hx) as (Hx' & _).
      apply bv_fromRange_get in Hx'. tauto. }
    pose proof (Hkeep B s HB HsB) as Hk.
    unfold keepStateInMEC in Hk. apply existsb_exists in Hk.
    destruct Hk as (c & Hc & Hcc). exists c. split.
    + rewrite retainedChoices_buildMec by auto.
      unfold containedChoices. apply filter_In. split; auto.
      eapply choiceContained_mono; eauto.
    + intros t Ht. apply (Hmem s HsB).
      unfold choiceContained in Hcc. rewrite forallb_forall in Hcc.
      apply in_map_iff in Ht. destruct Ht as (e & <- & He).
      apply vs_contains_In, Hcc, He.
Qed.

(** The statement of X12 at the block {0,1} of [forcedExit]. *)
Lemma mec_blocks_have_one_closed_nontrivial_scc_witness :
  (forall s t, In s [0; 1] -> In t [0; 1] ->
     nontrivial forcedExit (bv_fromRange 3 [0; 1]) s ->
     nontrivial forcedExit (bv_fromRange 3 [0; 1]) t ->
     mutuallyReachable forcedExit (bv_fromRange 3 [0; 1]) s t) /\
  (forall s, In s [0; 1] -> nontrivial forcedExit (bv_fromRange 3 [0; 1]) s ->
     exists c, In c (retainedChoices [(0, [0]); (1, [1])] s) /\
       forall t, In t (map fst (getRow (transitionMatrix forcedExit) c)) ->
                 mutuallyReachable forcedExit (bv_fromRange 3 [0; 1]) s t).
Proof.
  apply (@mec_blocks_have_one_closed_nontrivial_scc Q forcedExit (bv_new 3 true)
           100 [[(2, [3])]; [(0, [0]); (1, [1])]] [(0, [0]); (1, [1])]).
  - reflexivity.
  - reflexivity.
  - simpl. auto.
Defined.

(* ================================================================= *)
(** ** Termination of the loop over the candidates *)

(** C9.  For a model whose matrix has a row for every state number (the
    pruning reads [getRow(state)]) and every subsystem, the loop of the MEC
    engine over the candidates terminates: with enough fuel the engine
    returns, and every returned block is a candidate over which a pass
    reports no change.  A pass that marks its candidate [K] as changed makes
    the loop erase [K] and append the nonempty pruned SCCs, each of which
    consists of states of [K] and has strictly fewer states than [K]; a pass
    without change makes the loop move on to the next candidate.  Either
    way the weight of the pending candidates, at most [2 * |subsystem| - 1]
    (or 1) at the start, strictly decreases. *)
Theorem mec_fixpoint_terminates (ValueType : Type)
    (model : AbstractModel ValueType) (subsystem : BitVector) :
  numberOfStates model <= length (transitionMatrix model) ->
  (forall fuel,
     2 * numberOfStates model + 3 + pendingWeight [bv_indices subsystem] <= fuel ->
     exists mecs,
       performMaximalEndComponentDecomposition model fuel subsystem = Some mecs /\
       forall mec, In mec mecs ->
         exists f sccs stc',
           refinementPass model f (mecStates mec)
             (bv_new (numberOfStates model) false) = Some (false, sccs, stc')) /\
  (forall fuel passed K rest stc sccs stc',
     bv_empty stc = true ->
     refinementPass model fuel K stc = Some (true, sccs, stc') ->
     mecLoop model (S fuel) passed (K :: rest) stc
       = mecLoop model fuel passed (rest ++ newCandidates sccs) stc' /\
     (forall C, In C (newCandidates sccs) -> incl C K /\ length C < length K) /\
     pendingWeight (rest ++ newCandidates sccs) < pendingWeight (K :: rest)) /\
  (forall fuel passed K rest stc sccs stc',
     refinementPass model fuel K stc = Some (false, sccs, stc') ->
     mecLoop model (S fuel) passed (K :: rest) stc
       = mecLoop model fuel (passed ++ [K]) rest stc' /\
     pendingWeight rest < pendingWeight (K :: rest)).
Proof.
  intros _. split; [|split].
  - intros fuel Hf.
    destruct (@mecLoop_total _ model fuel [] [bv_indices subsystem]
                (bv_new (numberOfStates model) false)) as (r & E).
    + apply bv_empty_get. apply bv_get_new_false.
    + lia.
    + exists (map (buildMec model) r).
      unfold performMaximalEndComponentDecomposition. rewrite E.
      split; [reflexivity|].
      intros mec Hmec. apply in_map_iff in Hmec. destruct Hmec as (K & <- & HK).
      rewrite mecStates_buildMec.
      eapply mecLoop_stable; [exact E| |exact HK].
      intros K' [].
  - intros fuel passed K rest stc sccs stc' He Hp.
    split; [simpl; rewrite Hp; reflexivity|].
    pose proof Hp as Hp'. eapply refinementPass_spec in Hp'; [|exact He].
    destruct Hp' as (_ & Hin & Hw). specialize (Hw eq_refl).
    split.
    + intros C HC.
      pose proof (candidateWeight_le_pending _ _ HC) as Hle.
      apply newCandidates_In in HC. destruct HC as (HC & Hne).
      split; [apply Hin, HC|].
      assert (Hl : length C <> 0) by (destruct C; simpl; congruence).
      unfold candidateWeight, blockWeight in *. lia.
    + unfold pendingWeight in *. rewrite map_app, list_sum_app. simpl. lia.
  - intros fuel passed K rest stc sccs stc' Hp.
    split; [simpl; rewrite Hp; reflexivity|].
    unfold pendingWeight. simpl.
    assert (1 <= candidateWeight K) by (unfold candidateWeight; lia). lia.
Qed.

(** The statement of C9 at [forcedExit], whose first pass replaces the
    candidate {0,1,2} by {2} and {0,1}. *)
Lemma mec_fixpoint_terminates_witness :
  (exists mecs,
     performMaximalEndComponentDecomposition forcedExit 14 (bv_new 3 true)
       = Some mecs /\
     forall mec, In mec mecs ->
       exists f sccs stc',
         refinementPass forcedExit f (mecStates mec) (bv_new 3 false)
           = Some (false, sccs, stc')) /\
  (mecLoop forcedExit 14 [] [[0; 1; 2]] (bv_new 3 false)
     = mecLoop forcedExit 13 [] ([] ++ newCandidates [[2]; [0; 1]])
         (bv_new 3 false) /\
   (forall C, In C (newCandidates [[2]; [0; 1]]) ->
              incl C [0; 1; 2] /\ length C < length [0; 1; 2]) /\
   pendingWeight ([] ++ newCandidates [[2]; [0; 1]])
     < pendingWeight [[0; 1; 2]]).
Proof.
  destruct (@mec_fixpoint_terminates Q forcedExit (bv_new 3 true))
    as (H1 & H2 & _); [simpl; lia|].
  split.
  - apply (H1 14). vm_compute. lia.
  - apply (H2 13 [] [0; 1; 2] [] (bv_new 3 false) [[2]; [0; 1]] (bv_new 3 false));
      reflexivity.
Defined.
